(** * Dense matrix container and its multiplication routines

    A shallow embedding of [hw3/Sean20405/matrix.cpp]: the [Matrix] class
    (a raw owning pointer to a row-major buffer of doubles together with
    its two dimensions) and the free functions [multiply_naive] and
    [multiply_tile]; also [multiply_mkl] around its call of the BLAS,
    [operator<<] as the insertions it makes into the stream, and the text
    of [__repr__] in the Python binding.

    - [size_t] is a 64-bit unsigned integer: a [Z] in [0, 2^64) whose
      additions and multiplications wrap around ([wadd], [wmul]).
    - [double] is Rocq's primitive binary64 float, so [+], [*] and [!=]
      are the IEEE-754 operations the compiled code performs.
    - Objects and element buffers live in an explicit store; a [Matrix]
      object holds the address of its buffer (or the null pointer), so
      copies, moves and swaps are visible as address manipulations.
    - Undefined behaviour (a read or write outside a buffer, a null or
      dangling dereference) is the outcome [Undefined]; a C++ exception
      is the outcome [Throw].  Exhaustion of memory is not modelled:
      [new double[n]] succeeds whenever its byte size fits [size_t]. *)

From Stdlib Require Import ZArith Floats Lia Ascii.
From stdpp Require Import gmap list strings pretty.

Open Scope Z_scope.

(** * The program *)

(** ** Machine integers *)

Module SizeT.

Definition modulus : Z := 2 ^ 64.

Definition wrap (z : Z) : Z := z mod modulus.

Definition wadd (a b : Z) : Z := wrap (a + b).

Definition wmul (a b : Z) : Z := wrap (a * b).

Definition in_range (z : Z) : Prop := 0 <= z < modulus.

(** [sizeof(double)] *)
Definition sizeof_double : Z := 8.

End SizeT.

Import SizeT.

(** ** The store *)

Abbreviation loc := positive.

(** Modelled from the spec: the class declaration (this implementation's
    [matrix.hpp]) is not among the sources; the one header there is
    another implementation's, with other member names.  The member
    functions use the three data members [nrow], [ncol] and [data];
    [data] is the raw buffer pointer, [None] standing for [nullptr], which
    is also its value before a constructor body runs (every constructor
    starts with [reset_buffer], which tests [data]). *)
Record Matrix : Type := mkMatrix {
  nrow : Z;
  ncol : Z;
  data : option loc
}.

Record state : Type := mkState {
  objs : gmap loc Matrix;        (* live Matrix objects, by identity *)
  bufs : gmap loc (list float)   (* live arrays made by new double[n] *)
}.

Definition empty_state : state := mkState ∅ ∅.

Inductive exn : Type :=
| out_of_range (msg : string)    (* std::out_of_range *)
| bad_array_new_length.          (* new[] with an unrepresentable size *)

Inductive result (A : Type) : Type :=
| Ok (a : A) (s : state)
| Throw (e : exn) (s : state)
| Undefined
| OutOfFuel.

Arguments Ok {A} a s.
Arguments Throw {A} e s.
Arguments Undefined {A}.
Arguments OutOfFuel {A}.

Definition M (A : Type) : Type := state → result A.

Definition ret {A} (a : A) : M A := λ s, Ok a s.

Definition bind {A B} (m : M A) (k : A → M B) : M B := λ s,
  match m s with
  | Ok a s' => k a s'
  | Throw e s' => Throw e s'
  | Undefined => Undefined
  | OutOfFuel => OutOfFuel
  end.

#[export] Instance M_ret : MRet M := @ret.
#[export] Instance M_bind : MBind M := λ A B k m, bind m k.

Definition throw {A} (e : exn) : M A := λ s, Throw e s.

Definition undefined {A} : M A := λ _, Undefined.

Definition out_of_fuel {A} : M A := λ _, OutOfFuel.

(** ** Primitive actions on the store *)

Definition get_obj (o : loc) : M Matrix := λ s,
  match objs s !! o with
  | Some m => Ok m s
  | None => Undefined
  end.

Definition put_obj (o : loc) (m : Matrix) : M unit := λ s,
  match objs s !! o with
  | Some _ => Ok tt (mkState (<[o := m]> (objs s)) (bufs s))
  | None => Undefined
  end.

Definition set_nrow (o : loc) (v : Z) : M unit :=
  m ← get_obj o; put_obj o (mkMatrix v (ncol m) (data m)).

Definition set_ncol (o : loc) (v : Z) : M unit :=
  m ← get_obj o; put_obj o (mkMatrix (nrow m) v (data m)).

Definition set_data (o : loc) (d : option loc) : M unit :=
  m ← get_obj o; put_obj o (mkMatrix (nrow m) (ncol m) d).

(** Storage for a new object, holding what the member initialisers give. *)
Definition alloc_obj (init : Matrix) : M loc := λ s,
  let o := fresh (dom (objs s)) in
  Ok o (mkState (<[o := init]> (objs s)) (bufs s)).

Definition free_obj (o : loc) : M unit := λ s,
  Ok tt (mkState (delete o (objs s)) (bufs s)).

(** The contents of a fresh array are indeterminate; [junk] marks them. *)
Definition junk : float := nan.

(** [new double[n]] *)
Definition new_array (n : Z) : M loc := λ s,
  if decide (sizeof_double * n < modulus) then
    let a := fresh (dom (bufs s)) in
    Ok a (mkState (objs s) (<[a := replicate (Z.to_nat n) junk]> (bufs s)))
  else Throw bad_array_new_length s.

(** [delete[] p] for a non-null [p] *)
Definition delete_array (a : loc) : M unit := λ s,
  match bufs s !! a with
  | Some _ => Ok tt (mkState (objs s) (delete a (bufs s)))
  | None => Undefined
  end.

(** [memset(p, 0, nbytes)]: all-zero bytes are the double [+0.0]. *)
Definition memset_zero (a : loc) (nbytes : Z) : M unit := λ s,
  match bufs s !! a with
  | Some buf =>
      let k := Z.to_nat (nbytes / sizeof_double) in
      if decide (k ≤ length buf)%nat then
        Ok tt (mkState (objs s)
                 (<[a := replicate k 0%float ++ drop k buf]> (bufs s)))
      else Undefined
  | None => Undefined
  end.

(** [p[idx]] as an rvalue *)
Definition read_elem (p : option loc) (idx : Z) : M float := λ s,
  match p with
  | None => Undefined
  | Some a =>
      match bufs s !! a with
      | None => Undefined
      | Some buf =>
          match buf !! Z.to_nat idx with
          | Some x => Ok x s
          | None => Undefined
          end
      end
  end.

(** [p[idx] = v] *)
Definition write_elem (p : option loc) (idx : Z) (v : float) : M unit := λ s,
  match p with
  | None => Undefined
  | Some a =>
      match bufs s !! a with
      | None => Undefined
      | Some buf =>
          if decide (Z.to_nat idx < length buf)%nat then
            Ok tt (mkState (objs s) (<[a := <[Z.to_nat idx := v]> buf]> (bufs s)))
          else Undefined
      end
  end.

(** [vec[k]] on a [std::vector<double> const &] *)
Definition vec_at (vec : list float) (k : Z) : M float :=
  match vec !! Z.to_nat k with
  | Some x => ret x
  | None => undefined
  end.

(** [vec.size()] *)
Definition vec_size (vec : list float) : Z := Z.of_nat (length vec).

(** ** Loops *)

(** [for (size_t i = lo; i < hi; ++i) body], threading the local variables
    [l] the body updates.  As [i < hi] holds whenever [++i] runs, the
    counter never wraps, and the loop runs [hi - lo] times. *)
Fixpoint for_count {L} (n : nat) (i : Z) (body : Z → L → M L) (l : L) : M L :=
  match n with
  | O => ret l
  | S n' => l' ← body i l; for_count n' (i + 1) body l'
  end.

Definition for_range {L} (lo hi : Z) (body : Z → L → M L) (l : L) : M L :=
  for_count (Z.to_nat (hi - lo)) lo body l.

(** The same loop with a body that may [return r] out of the function:
    [Some r] stops the iteration. *)
Fixpoint for_count_ret {R} (n : nat) (i : Z) (body : Z → M (option R))
  : M (option R) :=
  match n with
  | O => ret None
  | S n' =>
      r ← body i;
      match r with
      | Some x => ret (Some x)
      | None => for_count_ret n' (i + 1) body
      end
  end.

Definition for_range_ret {R} (lo hi : Z) (body : Z → M (option R))
  : M (option R) :=
  for_count_ret (Z.to_nat (hi - lo)) lo body.

(** [for (size_t t = lo; t < hi; t += step) body]: the stride may carry the
    counter past [2^64], so this loop is run on fuel. *)
Fixpoint for_step (fuel : nat) (t hi step : Z) (body : Z → M unit) : M unit :=
  match fuel with
  | O => out_of_fuel
  | S fuel' =>
      if decide (t < hi) then
        body t ;; for_step fuel' (wadd t step) hi step body
      else ret tt
  end.

(** ** The Matrix class *)

Definition msg_elements : string := "number of elements mismatch".

Definition msg_dimensions : string :=
  "the number of first matrix column differs from that of second matrix row".

(** [Matrix::reset_buffer(nrow, ncol)] *)
Definition reset_buffer (this : loc) (nrow' ncol' : Z) : M unit :=
  m ← get_obj this;
  match data m with
  | Some a => delete_array a
  | None => ret tt
  end;;
  let nelement := wmul nrow' ncol' in
  (if decide (nelement ≠ 0) then
     a ← new_array nelement;
     set_data this (Some a);;
     memset_zero a (wmul sizeof_double nelement)
   else set_data this None);;
  set_nrow this nrow';;
  set_ncol this ncol'.

(** [Matrix::operator()(row, col) const]: [data[ncol * row + col]] *)
Definition elem_get (this : loc) (row col : Z) : M float :=
  m ← get_obj this;
  read_elem (data m) (wadd (wmul (ncol m) row) col).

(** [Matrix::operator()(row, col) = v], through the reference the
    non-const overload returns *)
Definition elem_set (this : loc) (row col : Z) (v : float) : M unit :=
  m ← get_obj this;
  write_elem (data m) (wadd (wmul (ncol m) row) col) v.

(** A constructor call: storage for the object, the member initialisers
    ([init]), then the constructor body.  When the body throws, the object
    never existed: its storage goes away and no destructor runs. *)
Definition construct (init : Matrix) (body : loc → M unit) : M loc := λ s,
  match alloc_obj init s with
  | Ok o s1 =>
      match body o s1 with
      | Ok _ s2 => Ok o s2
      | Throw e s2 => Throw e (mkState (delete o (objs s2)) (bufs s2))
      | Undefined => Undefined
      | OutOfFuel => OutOfFuel
      end
  | Throw e s1 => Throw e s1
  | Undefined => Undefined
  | OutOfFuel => OutOfFuel
  end.

(** [Matrix::Matrix(size_t num_row, size_t num_col)] *)
Definition Matrix_new (num_row num_col : Z) : M loc :=
  construct (mkMatrix num_row num_col None) (λ this,
    m ← get_obj this;
    reset_buffer this (nrow m) (ncol m)).

(** [Matrix::operator=(std::vector<double> const & vec)].  The loop bounds
    [nrow], [ncol] are members the loop body does not write. *)
Definition assign_vector (this : loc) (vec : list float) : M unit :=
  m ← get_obj this;
  if decide (wmul (nrow m) (ncol m) ≠ vec_size vec) then
    throw (out_of_range msg_elements)
  else
    for_range 0 (nrow m) (λ i k,
      for_range 0 (ncol m) (λ j k,
        x ← vec_at vec k;
        elem_set this i j x;;
        ret (wadd k 1)) k) 0;;
    ret tt.

(** [Matrix::Matrix(size_t num_row, size_t num_col, std::vector<double> const & vec)] *)
Definition Matrix_new_vec (num_row num_col : Z) (vec : list float) : M loc :=
  construct (mkMatrix num_row num_col None) (λ this,
    reset_buffer this num_row num_col;;
    assign_vector this vec).

(** [Matrix::operator==(const Matrix & m) const] *)
Definition equals (this other : loc) : M bool :=
  m1 ← get_obj this;
  m2 ← get_obj other;
  if decide (nrow m1 ≠ nrow m2 ∨ ncol m1 ≠ ncol m2) then ret false
  else
    r ← for_range_ret 0 (nrow m1) (λ i,
          for_range_ret 0 (ncol m1) (λ j,
            x ← elem_get this i j;
            y ← elem_get other i j;
            if negb (PrimFloat.eqb x y) then ret (Some false) else ret None));
    match r with
    | Some b => ret b
    | None => ret true
    end.

(** The element-wise copy loop shared by the copy constructor and the copy
    assignment: [(∗this)(i, j) = other(i, j)] for [i < nrow], [j < ncol]. *)
Definition copy_elements (this other : loc) : M unit :=
  m ← get_obj this;
  for_range 0 (nrow m) (λ i _,
    for_range 0 (ncol m) (λ j _,
      x ← elem_get other i j;
      elem_set this i j x) tt) tt.

(** [Matrix::Matrix(Matrix const & other)] *)
Definition Matrix_copy (other : loc) : M loc :=
  mo ← get_obj other;
  construct (mkMatrix (nrow mo) (ncol mo) None) (λ this,
    mo ← get_obj other;
    reset_buffer this (nrow mo) (ncol mo);;
    copy_elements this other).

(** [Matrix::operator=(Matrix const & other)] *)
Definition copy_assign (this other : loc) : M unit :=
  if decide (this = other) then ret tt
  else
    m ← get_obj this;
    mo ← get_obj other;
    (if decide (nrow m ≠ nrow mo ∨ ncol m ≠ ncol mo) then
       reset_buffer this (nrow mo) (ncol mo)
     else ret tt);;
    copy_elements this other.

(** [std::swap] on the three members, one at a time *)
Definition swap_nrow (a b : loc) : M unit :=
  ma ← get_obj a; mb ← get_obj b;
  set_nrow a (nrow mb);; set_nrow b (nrow ma).

Definition swap_ncol (a b : loc) : M unit :=
  ma ← get_obj a; mb ← get_obj b;
  set_ncol a (ncol mb);; set_ncol b (ncol ma).

Definition swap_data (a b : loc) : M unit :=
  ma ← get_obj a; mb ← get_obj b;
  set_data a (data mb);; set_data b (data ma).

(** [Matrix::Matrix(Matrix && other)] *)
Definition Matrix_move (other : loc) : M loc :=
  mo ← get_obj other;
  construct (mkMatrix (nrow mo) (ncol mo) None) (λ this,
    reset_buffer this 0 0;;
    swap_nrow this other;;
    swap_ncol this other;;
    swap_data this other).

(** [Matrix::operator=(Matrix && other)] *)
Definition move_assign (this other : loc) : M unit :=
  if decide (this = other) then ret tt
  else
    swap_nrow this other;;
    swap_ncol this other;;
    swap_data this other.

(** [Matrix::~Matrix()], then the release of the object's storage *)
Definition Matrix_destroy (this : loc) : M unit :=
  reset_buffer this 0 0;;
  free_obj this.

(** The range constructor [std::vector<double>(p, p + n)] for a non-null [p] *)
Definition copy_range (a : loc) (n : Z) : M (list float) := λ s,
  match bufs s !! a with
  | Some buf =>
      if decide (Z.to_nat n ≤ length buf)%nat
      then Ok (take (Z.to_nat n) buf) s
      else Undefined
  | None => Undefined
  end.

(** [Matrix::to_vector() const]:
    [std::vector<double>(data, data + nrow * ncol)] *)
Definition to_vector (this : loc) : M (list float) :=
  m ← get_obj this;
  let n := wmul (nrow m) (ncol m) in
  match data m with
  | None => if decide (n = 0) then ret [] else undefined
  | Some a => copy_range a n
  end.

(** ** Multiplication *)

(** [multiply_naive(mat1, mat2)].  [ret] is a local object, returned by
    value: the caller receives that object.  The loop bounds are members
    of the operands, which the loops do not write. *)
Definition multiply_naive (mat1 mat2 : loc) : M loc :=
  m1 ← get_obj mat1;
  m2 ← get_obj mat2;
  if decide (ncol m1 ≠ nrow m2) then throw (out_of_range msg_dimensions)
  else
    r ← Matrix_new (nrow m1) (ncol m2);
    for_range 0 (nrow m1) (λ i _,
      for_range 0 (ncol m2) (λ k _,
        for_range 0 (ncol m1) (λ j _,
          a ← elem_get mat1 i j;
          b ← elem_get mat2 j k;
          c ← elem_get r i k;
          elem_set r i k (c + a * b)%float) tt) tt) tt;;
    ret r.

(** [std::min] on [size_t] *)
Definition size_min (a b : Z) : Z := if decide (b < a) then b else a.

(** [multiply_tile(mat1, mat2, tile_size)] *)
Definition multiply_tile (fuel : nat) (mat1 mat2 : loc) (tile_size : Z) : M loc :=
  m1 ← get_obj mat1;
  m2 ← get_obj mat2;
  if decide (ncol m1 ≠ nrow m2) then throw (out_of_range msg_dimensions)
  else
    let mat1_nrow := nrow m1 in
    let mat1_ncol := ncol m1 in
    let mat2_ncol := ncol m2 in
    r ← Matrix_new mat1_nrow mat2_ncol;
    for_step fuel 0 mat1_nrow tile_size (λ tile_i,
      for_step fuel 0 mat2_ncol tile_size (λ tile_k,
        for_step fuel 0 mat1_ncol tile_size (λ tile_j,
          let tile_i_end := size_min (wadd tile_i tile_size) mat1_nrow in
          let tile_k_end := size_min (wadd tile_k tile_size) mat2_ncol in
          let tile_j_end := size_min (wadd tile_j tile_size) mat1_ncol in
          for_range tile_i tile_i_end (λ i _,
            for_range tile_k tile_k_end (λ k _,
              tmp ← elem_get mat1 i k;
              for_range tile_j tile_j_end (λ j _,
                b ← elem_get mat2 k j;
                c ← elem_get r i j;
                elem_set r i j (c + tmp * b)%float) tt) tt) tt)));;
    ret r.

(** ** Multiplication through the BLAS *)

Section Blas.

(** [cblas_dgemm] is the library's routine; what it does to the store is
    left open.  Of its fourteen arguments it is given here those that vary:
    the sizes [m], [n], [k] and, for each of the three matrices, the
    buffer pointer and the leading dimension.  The others are the
    constants [CblasRowMajor], [CblasNoTrans], [CblasNoTrans],
    [alpha = 1.0] and [beta = 0.0]. *)
Variable cblas_dgemm :
  Z → Z → Z → option loc → Z → option loc → Z → option loc → Z → M unit.


End Blas.

(** ** The Python binding *)

(** [std::to_string] on a [size_t]: its decimal digits *)
Definition to_string (z : Z) : string := pretty z.

(** The [__repr__] lambda:
    ["Matrix(" + std::to_string(mat.nrow) + ", " + std::to_string(mat.ncol) + ")"] *)
Definition repr (this : loc) : M string :=
  m ← get_obj this;
  ret ("Matrix(" +:+ to_string (nrow m) +:+ ", " +:+ to_string (ncol m) +:+ ")").

(** ** Output to a stream *)

(** What is inserted into a [std::ostream]; how the stream lays a double
    out in text is the stream's business. *)
Inductive item : Type :=
| Endl                   (* std::endl *)
| Text (t : string)      (* a string literal *)
| Setw (n : Z)           (* std::setw(n) *)
| Double (x : float).    (* a double *)

(** [operator<<(std::ostream & ostr, Matrix const & mat)]: the insertions
    it makes into [ostr], in order.  The loop bounds are members of [mat],
    which the loops do not write. *)
Definition print (mat : loc) : M (list item) :=
  m ← get_obj mat;
  for_range 0 (nrow m) (λ i out,
    for_range 0 (ncol m) (λ j out,
      x ← elem_get mat i j;
      ret (out ++ [Text " "; Setw 2; Double x]))
      (out ++ [Endl; Text " "])) [].

(** * Specification vocabulary *)

(** ** Assertions *)

(** A [std::vector<double>] holds its elements in addressable storage. *)
Definition is_vector (v : list float) : Prop :=
  sizeof_double * vec_size v < modulus.

(** The data model: object [o] is an [r] by [c] matrix whose row-major
    element sequence is [els]; the buffer holds exactly [r * c] values,
    and an empty matrix has no buffer. *)
Definition is_matrix (s : state) (o : loc) (r c : Z) (els : list float) : Prop :=
  match objs s !! o with
  | None => False
  | Some m =>
      nrow m = r ∧ ncol m = c ∧ in_range r ∧ in_range c ∧
      Z.of_nat (length els) = r * c ∧ is_vector els ∧
      match data m with
      | None => els = []
      | Some a => els ≠ [] ∧ bufs s !! a = Some els
      end
  end.

(** [m] run from [s] returns normally, with a result and a final state
    that satisfy [Q]. *)
Definition returns {A} (m : M A) (s : state) (Q : A → state → Prop) : Prop :=
  match m s with
  | Ok a s' => Q a s'
  | _ => False
  end.

(** [m] run from [s] comes to an end: it does not exhaust its fuel. *)
Definition finishes {A} (m : M A) (s : state) : Prop := m s ≠ OutOfFuel.

(** Partial correctness: if [m] run from [s] returns, [Q] holds of the
    result and the final state; if it throws, [E] holds of the state the
    exception leaves. *)
Definition safe {A} (m : M A) (s : state)
    (Q : A → state → Prop) (E : state → Prop) : Prop :=
  match m s with
  | Ok a s' => Q a s'
  | Throw _ s' => E s'
  | Undefined => True
  | OutOfFuel => True
  end.



#[export] Instance float_inhabited : Inhabited float := populate 0%float.

(** The row-major offset of element [(i, j)] in a matrix of [c] columns *)
Definition offset (c i j : Z) : nat := Z.to_nat (c * i + j).

(** The sum [A(i,0)*B(0,k) + ... + A(i,q-1)*B(q-1,k)], accumulated from
    [+0.0] in increasing order of the summation index, for row-major
    [ea] of [n] columns and [eb] of [p] columns *)
Fixpoint dot_upto (ea eb : list float) (n p i k : Z) (q : nat) : float :=
  match q with
  | O => 0%float
  | S q' =>
      (dot_upto ea eb n p i k q'
       + (ea !!! offset n i (Z.of_nat q')) * (eb !!! offset p (Z.of_nat q') k))%float
  end.

Definition dot (ea eb : list float) (n p i k : Z) : float :=
  dot_upto ea eb n p i k (Z.to_nat n).

(** ** Stores met during execution *)

Definition with_buf (s : state) (a : loc) (buf : list float) : state :=
  mkState (objs s) (<[a := buf]> (bufs s)).

Definition drop_buf (d : option loc) (B : gmap loc (list float))
  : gmap loc (list float) :=
  match d with
  | Some a => delete a B
  | None => B
  end.

(** The state [reset_buffer(r, c)] leaves, for an object whose buffer
    pointer was [d] *)
Definition reset_result (s : state) (this : loc) (r c : Z) (d : option loc)
  : state :=
  let B := drop_buf d (bufs s) in
  let n := wmul r c in
  if decide (n ≠ 0) then
    mkState (<[this := mkMatrix r c (Some (fresh (dom B)))]> (objs s))
            (<[fresh (dom B) := replicate (Z.to_nat n) 0%float]> B)
  else mkState (<[this := mkMatrix r c None]> (objs s)) B.

(** The state in which the body of a constructor starts *)
Definition born (s : state) (init : Matrix) : state :=
  mkState (<[fresh (dom (objs s)) := init]> (objs s)) (bufs s).

(** What a buffer pointer gives access to: [buf] for a live array, nothing
    for the null pointer *)
Definition set_contents (s : state) (d : option loc) (buf : list float) : state :=
  match d with
  | Some a => with_buf s a buf
  | None => s
  end.

(** The store after a matrix of [r] by [c] elements [els] has been
    constructed in store [s]: one more object and, unless the matrix is
    empty, one more array *)
Definition fresh_matrix (s : state) (r c : Z) (els : list float) : state :=
  if decide (r * c ≠ 0) then
    mkState (<[fresh (dom (objs s)) := mkMatrix r c (Some (fresh (dom (bufs s))))]>
               (objs s))
            (<[fresh (dom (bufs s)) := els]> (bufs s))
  else mkState (<[fresh (dom (objs s)) := mkMatrix r c None]> (objs s)) (bufs s).

(** The buffer pointer of that matrix *)
Definition fresh_data (s : state) (r c : Z) : option loc :=
  if decide (r * c ≠ 0) then Some (fresh (dom (bufs s))) else None.

(** ** Equality *)

(** The first [Some] among [f i], [f (i+1)], ..., [n] candidates *)
Fixpoint first_some {R} (n : nat) (i : Z) (f : Z → option R) : option R :=
  match n with
  | O => None
  | S n' =>
      match f i with
      | Some x => Some x
      | None => first_some n' (i + 1) f
      end
  end.

(** The comparison [x == y] of two doubles *)
Definition double_eq (x y : float) : Prop := PrimFloat.eqb x y = true.

(** ** Copies *)

(** Two objects that do not point to the same array *)
Definition separate (s : state) (o1 o2 : loc) : Prop :=
  ∀ m1 m2 a, objs s !! o1 = Some m1 → objs s !! o2 = Some m2 →
             data m1 = Some a → data m2 ≠ Some a.

(** Two objects hold equal [r] by [c] matrices in arrays of their own, and
    storing into an in-range element of either changes that one only. *)
Definition independent (s : state) (o1 o2 : loc) (r c : Z) (els : list float)
  : Prop :=
  is_matrix s o1 r c els ∧ is_matrix s o2 r c els ∧ separate s o1 o2 ∧
  ∀ i j v, 0 <= i < r → 0 <= j < c →
    returns (elem_set o1 i j v) s (λ _ s',
      is_matrix s' o1 r c (<[offset c i j := v]> els) ∧ is_matrix s' o2 r c els) ∧
    returns (elem_set o2 i j v) s (λ _ s',
      is_matrix s' o2 r c (<[offset c i j := v]> els) ∧ is_matrix s' o1 r c els).

(** ** The loop nests of the multiplications

    The loops of [multiply_naive] and of [multiply_tile] (with a square
    second operand), level by level, on operands [a] ([m] by [n]) and [b]
    ([n] by [p]) and a result object [o] whose buffer pointer is [d]. *)

Section NaiveNest.

Variables (st : state) (a b o : loc) (m n p : Z) (ea eb : list float).
Variable d : option loc.

(** The store while the result's array holds [buf] *)
Definition cur (buf : list float) : state := set_contents st d buf.

(** Every cell [(i, k)] of the result holds the first [K i k] terms of
    its sum. *)
Definition progress (buf : list float) (K : Z → Z → Z) : Prop :=
  Z.of_nat (length buf) = m * p ∧
  ∀ i k, 0 <= i < m → 0 <= k < p →
         buf !!! offset p i k = dot_upto ea eb n p i k (Z.to_nat (K i k)).

(** The cells before position [pos] (in row-major order) are complete, the
    cell at [pos] holds [j0] terms, the cells after it none. *)
Definition naive_progress (pos j0 : Z) : Z → Z → Z := λ i k,
  if decide (p * i + k < pos) then n
  else if decide (p * i + k = pos) then j0 else 0.

Definition naive_cell (i k : Z) : M unit :=
  for_range 0 n (λ j _,
    x ← elem_get a i j;
    y ← elem_get b j k;
    c ← elem_get o i k;
    elem_set o i k (c + x * y)%float) tt.

End NaiveNest.

Section TiledNest.

Variables (st : state) (a b o : loc) (m n : Z) (ea eb : list float).
Variable d : option loc.
Variables (tile_size : Z) (fuel : nat).

(** The cells of rows [i1 .. i2 - 1] and columns [j1 .. j2 - 1] hold [v]
    terms of their sums, the others what [K] says. *)
Definition region_set (K : Z → Z → Z) (i1 i2 j1 j2 v : Z) : Z → Z → Z := λ i j,
  if decide (i1 <= i < i2 ∧ j1 <= j < j2) then v else K i j.

Definition holds (K : Z → Z → Z) (s' : state) : Prop :=
  ∃ buf, s' = cur st d buf ∧ progress m n n ea eb buf K.

(** Within a tile, row [i] and summation index [k]: the sweep over the
    columns *)
Definition tile_sweep (i k : Z) (tmp : float) (j1 j2 : Z) : M unit :=
  for_range j1 j2 (λ j _,
    y ← elem_get b k j;
    c ← elem_get o i j;
    elem_set o i j (c + tmp * y)%float) tt.

(** Within a tile, row [i]: the loop over the summation indices *)
Definition tile_row (i k1 k2 j1 j2 : Z) : M unit :=
  for_range k1 k2 (λ k _,
    tmp ← elem_get a i k;
    tile_sweep i k tmp j1 j2) tt.

(** One tile: the loop over its rows *)
Definition tile_block (i1 i2 k1 k2 j1 j2 : Z) : M unit :=
  for_range i1 i2 (λ i _, tile_row i k1 k2 j1 j2) tt.

(** For fixed tiles of rows and of summation indices: the loop over the
    tiles of columns *)
Definition tile_j_loop (i1 i2 k1 k2 : Z) : M unit :=
  for_step fuel 0 n tile_size (λ tile_j,
    tile_block i1 i2 k1 k2 tile_j (size_min (wadd tile_j tile_size) n)).

(** For a fixed tile of rows: the loop over the tiles of summation
    indices *)
Definition tile_k_loop (i1 i2 : Z) : M unit :=
  for_step fuel 0 n tile_size (λ tile_k,
    tile_j_loop i1 i2 tile_k (size_min (wadd tile_k tile_size) n)).

(** The whole nest: the loop over the tiles of rows *)
Definition tile_loops : M unit :=
  for_step fuel 0 m tile_size (λ tile_i,
    tile_k_loop tile_i (size_min (wadd tile_i tile_size) m)).

End TiledNest.

(** The loops of [multiply_tile] on operands [a] ([m] by [n]) and [b]
    ([n] by [p]) of any shapes, with result object [o]: the tiles of
    summation indices run up to [mat2_ncol = p], the tiles of columns up
    to [mat1_ncol = n]. *)
Definition tile_nest (a b o : loc) (m n p tile_size : Z) (fuel : nat) : M unit :=
  for_step fuel 0 m tile_size (λ tile_i,
    for_step fuel 0 p tile_size (λ tile_k,
      for_step fuel 0 n tile_size (λ tile_j,
        tile_block a b o
          tile_i (size_min (wadd tile_i tile_size) m)
          tile_k (size_min (wadd tile_k tile_size) p)
          tile_j (size_min (wadd tile_j tile_size) n)))).

(** What a multiplication leaves behind: the store [st] of the operands
    and of the result object [o], whose array (through [d]) holds [buf],
    every cell complete. *)
Definition multiplied (s : state) (a b o : loc) (m n p : Z)
    (ea eb : list float) (s' : state) : Prop :=
  ∃ st d buf,
    s' = set_contents st d buf ∧
    objs s !! o = None ∧
    is_matrix st a m n ea ∧ is_matrix st b n p eb ∧
    objs st !! o = Some (mkMatrix m p d) ∧
    match d with
    | Some ac =>
        (∀ mo, objs st !! a = Some mo → data mo ≠ Some ac) ∧
        (∀ mo, objs st !! b = Some mo → data mo ≠ Some ac) ∧
        m * p ≠ 0
    | None => m * p = 0
    end ∧
    progress m n p ea eb buf (λ _ _, n).

(** The last tile along an axis of [extent] elements ends below [2^64]:
    the tile counter, which advances by [tile], never wraps. *)
Definition tiles_fit (extent tile : Z) : Prop :=
  extent = 0 ∨ tile * ((extent - 1) `div` tile) + tile < modulus.

(** ** The representation invariant *)

(** What [reset_buffer] establishes for an object: with [n] the product of
    its dimensions as [size_t] computes it (modulo [2^64]), there is no
    array when [n] is 0, and else an array of exactly [n] elements (whose
    size in bytes [new] accepted). *)
Definition obj_ok (s : state) (M : Matrix) : Prop :=
  match data M with
  | None => wmul (nrow M) (ncol M) = 0
  | Some a =>
      wmul (nrow M) (ncol M) ≠ 0 ∧
      sizeof_double * wmul (nrow M) (ncol M) < modulus ∧
      ∃ buf, bufs s !! a = Some buf ∧
             Z.of_nat (length buf) = wmul (nrow M) (ncol M)
  end.

(** No array belongs to two objects. *)
Definition unshared (s : state) : Prop :=
  ∀ o1 o2 M1 M2 a, objs s !! o1 = Some M1 → objs s !! o2 = Some M2 →
                   data M1 = Some a → data M2 = Some a → o1 = o2.

Definition heap_inv (s : state) : Prop :=
  (∀ o M, objs s !! o = Some M → obj_ok s M) ∧ unshared s.

(** The invariant but for object [this], which is being worked on *)
Definition others_ok (s : state) (this : loc) : Prop :=
  (∀ o M, o ≠ this → objs s !! o = Some M → obj_ok s M) ∧ unshared s.

(** Every live array is the array of some object: nothing has leaked. *)
Definition owned (s : state) : Prop :=
  ∀ a, is_Some (bufs s !! a) → ∃ o M, objs s !! o = Some M ∧ data M = Some a.

(** The same once object [this] is gone: [this] owns none of the live
    arrays. *)
Definition owned_without (s : state) (this : loc) : Prop :=
  owned (mkState (delete this (objs s)) (bufs s)).

(** The public operations *)
Inductive operation : Type :=
| OpNew (r c : Z)
| OpNewVec (r c : Z) (v : list float)
| OpCopy (src : loc)
| OpMove (src : loc)
| OpCopyAssign (dst src : loc)
| OpMoveAssign (dst src : loc)
| OpAssignVec (dst : loc) (v : list float)
| OpGet (o : loc) (i j : Z)
| OpSet (o : loc) (i j : Z) (x : float)
| OpEquals (o1 o2 : loc)
| OpToVector (o : loc)
| OpDestroy (o : loc)
| OpMultiplyNaive (a b : loc)
| OpMultiplyTile (fuel : nat) (a b : loc) (tile_size : Z).

Definition run (op : operation) : M unit :=
  match op with
  | OpNew r c => Matrix_new r c;; mret tt
  | OpNewVec r c v => Matrix_new_vec r c v;; mret tt
  | OpCopy src => Matrix_copy src;; mret tt
  | OpMove src => Matrix_move src;; mret tt
  | OpCopyAssign dst src => copy_assign dst src
  | OpMoveAssign dst src => move_assign dst src
  | OpAssignVec dst v => assign_vector dst v
  | OpGet o i j => elem_get o i j;; mret tt
  | OpSet o i j x => elem_set o i j x
  | OpEquals o1 o2 => equals o1 o2;; mret tt
  | OpToVector o => to_vector o;; mret tt
  | OpDestroy o => Matrix_destroy o
  | OpMultiplyNaive a b => multiply_naive a b;; mret tt
  | OpMultiplyTile fuel a b tile_size => multiply_tile fuel a b tile_size;; mret tt
  end.

(** ** Texts and streams *)

(** The character [ch] does not occur in [s]. *)
Fixpoint lacks (ch : Ascii.ascii) (s : string) : Prop :=
  match s with
  | EmptyString => True
  | String a s' => a ≠ ch ∧ lacks ch s'
  end.

(** The doubles among the insertions [out], in order *)
Definition doubles (out : list item) : list float :=
  omap (λ it, match it with Double x => Some x | _ => None end) out.

(** The number of [std::endl] among them *)
Definition endls (out : list item) : nat :=
  length (omap (λ it, match it with Endl => Some tt | _ => None end) out).

(** ** Example stores *)

(** A store with a 1 by 2 matrix [1 2] (object 1) and a 1 by 1 matrix [3]
    (object 2) *)
Definition two_matrices : state :=
  mkState
    (list_to_map [(1%positive, mkMatrix 1 2 (Some 1%positive));
                  (2%positive, mkMatrix 1 1 (Some 2%positive))])
    (list_to_map [(1%positive, [1; 2]%float); (2%positive, [3]%float)]).

(** A store with two 1 by 1 matrices, [+0.0] (object 1) and [-0.0]
    (object 2), and a 1 by 1 matrix holding a NaN (object 3) *)
Definition special_values : state :=
  mkState
    (list_to_map [(1%positive, mkMatrix 1 1 (Some 1%positive));
                  (2%positive, mkMatrix 1 1 (Some 2%positive));
                  (3%positive, mkMatrix 1 1 (Some 3%positive))])
    (list_to_map [(1%positive, [0]%float); (2%positive, [(-0)]%float);
                  (3%positive, [nan])]).

(** The operands of the worked example: [[1,2,3],[4,5,6]] (object 1) and
    [[7,8],[9,10],[11,12]] (object 2) *)
Definition worked_example : state :=
  mkState
    (list_to_map [(1%positive, mkMatrix 2 3 (Some 1%positive));
                  (2%positive, mkMatrix 3 2 (Some 2%positive))])
    (list_to_map [(1%positive, [1; 2; 3; 4; 5; 6]%float);
                  (2%positive, [7; 8; 9; 10; 11; 12]%float)]).

(** A 2 by 3 matrix (object 1) and a square 3 by 3 matrix (object 2) *)
Definition square_example : state :=
  mkState
    (list_to_map [(1%positive, mkMatrix 2 3 (Some 1%positive));
                  (2%positive, mkMatrix 3 3 (Some 2%positive))])
    (list_to_map [(1%positive, [1; 2; 3; 4; 5; 6]%float);
                  (2%positive, [1; 2; 3; 4; 5; 6; 7; 8; 9]%float)]).

(** Two empty matrices, [2^32] by [0] (object 1) and [0] by [2^32]
    (object 2) *)
Definition wide_empty : state :=
  mkState
    (list_to_map [(1%positive, mkMatrix (2 ^ 32) 0 None);
                  (2%positive, mkMatrix 0 (2 ^ 32) None)])
    ∅.

(** Two empty matrices, [2^64 - 1] by [0] (object 1) and [0] by [0]
    (object 2) *)
Definition tall_empty : state :=
  mkState
    (list_to_map [(1%positive, mkMatrix (2 ^ 64 - 1) 0 None);
                  (2%positive, mkMatrix 0 0 None)])
    ∅.


(** * Properties *)

(** ** Basic facts *)

Lemma modulus_eq : modulus = 18446744073709551616.
Proof. reflexivity. Qed.

Lemma wrap_small z : 0 <= z < modulus → wrap z = z.
Proof. intros. unfold wrap. apply Z.mod_small. lia. Qed.

Lemma wrap_range z : 0 <= wrap z < modulus.
Proof. unfold wrap. apply Z.mod_pos_bound. rewrite modulus_eq. lia. Qed.

Lemma wmul_small a b : 0 <= a * b < modulus → wmul a b = a * b.
Proof. apply wrap_small. Qed.

Lemma wadd_small a b : 0 <= a + b < modulus → wadd a b = a + b.
Proof. apply wrap_small. Qed.

Lemma bind_unfold {A B} (m : M A) (k : A → M B) s :
  (m ≫= k) s = match m s with
               | Ok a s' => k a s'
               | Throw e s' => Throw e s'
               | Undefined => Undefined
               | OutOfFuel => OutOfFuel
               end.
Proof. reflexivity. Qed.

Lemma bind_ok {A B} (m : M A) (k : A → M B) s a s' :
  m s = Ok a s' → (m ≫= k) s = k a s'.
Proof. intros H. rewrite bind_unfold, H. reflexivity. Qed.

Lemma get_obj_ok s o m : objs s !! o = Some m → get_obj o s = Ok m s.
Proof. intros H. unfold get_obj. rewrite H. reflexivity. Qed.

Lemma returns_intro {A} (m : M A) s a s' (Q : A → state → Prop) :
  m s = Ok a s' → Q a s' → returns m s Q.
Proof. intros H HQ. unfold returns. rewrite H. exact HQ. Qed.

Lemma returns_elim {A} (m : M A) s (Q : A → state → Prop) :
  returns m s Q → ∃ a s', m s = Ok a s' ∧ Q a s'.
Proof.
  unfold returns. destruct (m s) as [a s'| | |]; try contradiction.
  intros HQ. exists a, s'. split; [reflexivity | exact HQ].
Qed.

Lemma returns_mono {A} (m : M A) s (Q Q' : A → state → Prop) :
  returns m s Q → (∀ a s', Q a s' → Q' a s') → returns m s Q'.
Proof.
  unfold returns. destruct (m s); try contradiction. intros HQ H. apply H, HQ.
Qed.

Lemma returns_bind {A B} (m : M A) (k : A → M B) s (Q : B → state → Prop) :
  returns m s (λ a s', returns (k a) s' Q) → returns (m ≫= k) s Q.
Proof.
  unfold returns. rewrite bind_unfold. destruct (m s); try contradiction.
  intros H. exact H.
Qed.

(** ** Loops *)

Lemma for_range_empty {L} lo hi (body : Z → L → M L) l s :
  hi <= lo → for_range lo hi body l s = Ok l s.
Proof.
  intros H. unfold for_range. replace (Z.to_nat (hi - lo)) with O by lia.
  reflexivity.
Qed.

Lemma for_range_unroll {L} lo hi (body : Z → L → M L) l :
  lo < hi →
  for_range lo hi body l = (l' ← body lo l; for_range (lo + 1) hi body l').
Proof.
  intros H. unfold for_range.
  replace (Z.to_nat (hi - lo)) with (S (Z.to_nat (hi - (lo + 1)))) by lia.
  reflexivity.
Qed.

(** The loop rule: an invariant indexed by the loop counter. *)
Lemma returns_for_range {L} lo hi (body : Z → L → M L) l s
    (Inv : Z → L → state → Prop) :
  lo <= hi →
  Inv lo l s →
  (∀ i l s, lo <= i < hi → Inv i l s → returns (body i l) s (Inv (i + 1))) →
  returns (for_range lo hi body l) s (Inv hi).
Proof.
  intros Hle H0 Hstep. unfold for_range.
  remember (Z.to_nat (hi - lo)) as n eqn:En.
  revert lo l s Hle H0 Hstep En.
  induction n as [|n IH]; intros lo l s Hle H0 Hstep En.
  - replace hi with lo by lia. exact H0.
  - cbn [for_count]. apply returns_bind.
    eapply returns_mono; [apply Hstep; [lia | exact H0] |].
    intros l' s' H'. apply IH; [lia | exact H' | | lia].
    intros i l0 s0 Hi. apply Hstep. lia.
Qed.

(** ** Element access on a known buffer *)

Lemma with_buf_twice s a b1 b2 :
  with_buf (with_buf s a b1) a b2 = with_buf s a b2.
Proof. unfold with_buf. cbn. by rewrite insert_insert_eq. Qed.

Lemma with_buf_same s a buf : bufs s !! a = Some buf → with_buf s a buf = s.
Proof.
  intros H. unfold with_buf. destruct s as [O B]. cbn in *.
  by rewrite insert_id.
Qed.

Lemma offset_in_range r c i j :
  0 <= i < r → 0 <= j < c → 0 <= c * i + j < r * c.
Proof. intros Hi Hj. nia. Qed.

Lemma index_no_wrap r c i j :
  r * c < modulus → 0 <= i < r → 0 <= j < c →
  wadd (wmul c i) j = c * i + j.
Proof.
  intros Hrc Hi Hj. pose proof (offset_in_range r c i j Hi Hj) as Ho.
  rewrite wmul_small by nia. apply wadd_small. lia.
Qed.

Lemma elem_get_eq s o m a buf i j x :
  objs s !! o = Some m → data m = Some a → bufs s !! a = Some buf →
  buf !! Z.to_nat (wadd (wmul (ncol m) i) j) = Some x →
  elem_get o i j s = Ok x s.
Proof.
  intros Ho Hd Hb Hx. unfold elem_get.
  rewrite (bind_ok _ _ _ _ _ (get_obj_ok _ _ _ Ho)).
  unfold read_elem. rewrite Hd, Hb, Hx. reflexivity.
Qed.

Lemma elem_set_eq s o m a buf i j v :
  objs s !! o = Some m → data m = Some a → bufs s !! a = Some buf →
  (Z.to_nat (wadd (wmul (ncol m) i) j) < length buf)%nat →
  elem_set o i j v s
  = Ok tt (with_buf s a (<[Z.to_nat (wadd (wmul (ncol m) i) j) := v]> buf)).
Proof.
  intros Ho Hd Hb Hlt. unfold elem_set.
  rewrite (bind_ok _ _ _ _ _ (get_obj_ok _ _ _ Ho)).
  unfold write_elem. rewrite Hd, Hb, decide_True by exact Hlt. reflexivity.
Qed.

(** In-range access to a matrix of the data model *)
Lemma elem_get_matrix s o r c els i j :
  is_matrix s o r c els → 0 <= i < r → 0 <= j < c →
  elem_get o i j s = Ok (els !!! offset c i j) s.
Proof.
  unfold is_matrix. destruct (objs s !! o) as [m|] eqn:Ho; [|contradiction].
  intros (Hr & Hc & Rr & Rc & Hlen & Hvec & Hd) Hi Hj.
  pose proof (offset_in_range r c i j Hi Hj) as Hoff.
  assert (r * c < modulus) as Hrc.
  { unfold is_vector, vec_size, sizeof_double in Hvec. lia. }
  destruct (data m) as [a|] eqn:Ed.
  - destruct Hd as [_ Hb].
    eapply elem_get_eq; eauto.
    rewrite Hc, (index_no_wrap r c i j) by assumption.
    apply list_lookup_lookup_total_lt. unfold offset. lia.
  - subst els. cbn in Hlen. lia.
Qed.

(** ** Buffers and [reset_buffer] *)

(** Symbolic execution of straight-line code on an explicit store *)
Ltac exec_step :=
  first
    [ progress cbn [objs bufs nrow ncol data]
    | rewrite lookup_insert_eq
    | rewrite insert_insert_eq
    | match goal with
      | H : ?O !! ?o = Some _ |- context [ ?O !! ?o ] => rewrite H
      end ].

Ltac exec :=
  cbv [set_data set_nrow set_ncol mbind M_bind bind mret M_ret ret throw
       undefined get_obj put_obj alloc_obj free_obj];
  repeat exec_step.

Lemma reset_buffer_eq s this m0 r c :
  objs s !! this = Some m0 →
  (∀ a, data m0 = Some a → is_Some (bufs s !! a)) →
  sizeof_double * wmul r c < modulus →
  reset_buffer this r c s = Ok tt (reset_result s this r c (data m0)).
Proof.
  intros Ho Hd Hsz. unfold reset_buffer, reset_result.
  rewrite (bind_ok _ _ _ _ _ (get_obj_ok _ _ _ Ho)).
  assert (∃ s1, (match data m0 with Some a => delete_array a | None => mret tt end) s
                = Ok tt s1 ∧ objs s1 = objs s ∧ bufs s1 = drop_buf (data m0) (bufs s))
    as (s1 & E1 & EO & EB).
  { destruct (data m0) as [a|].
    - destruct (Hd a eq_refl) as [b Hb]. unfold delete_array. rewrite Hb.
      eexists. split; [reflexivity|]. split; reflexivity.
    - exists s. split; [reflexivity|]. split; reflexivity. }
  rewrite (bind_ok _ _ _ _ _ E1). cbv zeta. rewrite <- EB.
  assert (objs s1 !! this = Some m0) as Ho1 by (rewrite EO; exact Ho).
  clear E1 Hd. destruct s1 as [O1 B1]. cbn in *. subst O1.
  pose proof (wrap_range (r * c)) as Hn. fold (wmul r c) in Hn.
  set (n := wmul r c) in *.
  destruct (decide (n ≠ 0)) as [Hnz|Hz].
  - exec. cbv [new_array memset_zero].
    rewrite decide_True by exact Hsz. exec.
    rewrite wmul_small by (unfold sizeof_double in *; lia).
    replace ((sizeof_double * n) `div` sizeof_double) with n
      by (unfold sizeof_double; apply Z.div_unique_exact; lia).
    rewrite decide_True by (rewrite length_replicate; lia).
    exec. rewrite drop_ge by (rewrite length_replicate; lia).
    rewrite app_nil_r. reflexivity.
  - exec. reflexivity.
Qed.

Lemma reset_buffer_throw s this m0 r c :
  objs s !! this = Some m0 →
  (∀ a, data m0 = Some a → is_Some (bufs s !! a)) →
  ¬ sizeof_double * wmul r c < modulus →
  reset_buffer this r c s
  = Throw bad_array_new_length (mkState (objs s) (drop_buf (data m0) (bufs s))).
Proof.
  intros Ho Hd Hsz. unfold reset_buffer.
  rewrite (bind_ok _ _ _ _ _ (get_obj_ok _ _ _ Ho)).
  assert (∃ s1, (match data m0 with Some a => delete_array a | None => mret tt end) s
                = Ok tt s1 ∧ s1 = mkState (objs s) (drop_buf (data m0) (bufs s)))
    as (s1 & E1 & ->).
  { destruct (data m0) as [a|].
    - destruct (Hd a eq_refl) as [b Hb]. unfold delete_array. rewrite Hb. eauto.
    - exists s. split; [reflexivity|]. by destruct s. }
  rewrite (bind_ok _ _ _ _ _ E1). cbv zeta.
  assert (wmul r c ≠ 0) as Hnz.
  { intros Hz. apply Hsz. rewrite Hz. reflexivity. }
  rewrite decide_True by exact Hnz.
  rewrite bind_unfold, bind_unfold. unfold new_array.
  rewrite decide_False by exact Hsz. reflexivity.
Qed.

(** ** Constructors *)

Lemma fresh_obj_None s : objs s !! fresh (dom (objs s)) = None.
Proof. apply not_elem_of_dom, is_fresh. Qed.

Lemma fresh_buf_None (B : gmap loc (list float)) : B !! fresh (dom B) = None.
Proof. apply not_elem_of_dom, is_fresh. Qed.

Lemma construct_ok init body s s2 :
  body (fresh (dom (objs s)))
       (mkState (<[fresh (dom (objs s)) := init]> (objs s)) (bufs s)) = Ok tt s2 →
  construct init body s = Ok (fresh (dom (objs s))) s2.
Proof. intros H. unfold construct, alloc_obj. rewrite H. reflexivity. Qed.

Lemma construct_throw init body s e s2 :
  body (fresh (dom (objs s)))
       (mkState (<[fresh (dom (objs s)) := init]> (objs s)) (bufs s)) = Throw e s2 →
  construct init body s
  = Throw e (mkState (delete (fresh (dom (objs s))) (objs s2)) (bufs s2)).
Proof. intros H. unfold construct, alloc_obj. rewrite H. reflexivity. Qed.

Lemma Matrix_new_eq s r c :
  sizeof_double * wmul r c < modulus →
  Matrix_new r c s
  = Ok (fresh (dom (objs s)))
       (reset_result (born s (mkMatrix r c None)) (fresh (dom (objs s))) r c None).
Proof.
  intros Hsz. unfold Matrix_new. apply construct_ok.
  fold (born s (mkMatrix r c None)).
  assert (objs (born s (mkMatrix r c None)) !! fresh (dom (objs s))
          = Some (mkMatrix r c None)) as Ho by apply lookup_insert_eq.
  rewrite (bind_ok _ _ _ _ _ (get_obj_ok _ _ _ Ho)). cbn [nrow ncol].
  rewrite (reset_buffer_eq _ _ _ r c Ho); [reflexivity | discriminate | exact Hsz].
Qed.

(** ** Filling a matrix from a vector *)

Lemma insert_take_drop {A} (v b : list A) (k : nat) x :
  v !! k = Some x → (k < length b)%nat →
  <[k := x]> (take k v ++ drop k b) = take (S k) v ++ drop (S k) b.
Proof.
  intros Hv Hb.
  assert (k < length v)%nat as Hk by (eapply lookup_lt_Some; exact Hv).
  destruct (lookup_lt_is_Some_2 b k Hb) as [y Hy].
  rewrite (take_S_r v k x Hv), (drop_S b y k Hy).
  rewrite insert_app_r_alt by (rewrite length_take; lia).
  rewrite length_take. replace (k - k `min` length v)%nat with O by lia.
  cbn. by rewrite <- app_assoc.
Qed.

Lemma assign_vector_fill s this r c d buf0 v :
  objs s !! this = Some (mkMatrix r c d) →
  in_range r → in_range c → r * c < modulus →
  vec_size v = r * c →
  Z.of_nat (length buf0) = r * c →
  match d with
  | Some a => bufs s !! a = Some buf0
  | None => r * c = 0
  end →
  assign_vector this v s = Ok tt (set_contents s d v).
Proof.
  intros Ho Rr Rc Hrc Hv Hb Hd. unfold assign_vector.
  rewrite (bind_ok _ _ _ _ _ (get_obj_ok _ _ _ Ho)). cbn [nrow ncol].
  rewrite wmul_small by (unfold in_range in *; nia).
  rewrite decide_False by (intros Hne; apply Hne; symmetry; exact Hv).
  unfold vec_size in Hv.
  set (fill := λ k : Z, take (Z.to_nat k) v ++ drop (Z.to_nat k) buf0).
  assert (returns
    (for_range 0 r (λ i k,
       for_range 0 c (λ j k,
         x ← vec_at v k; elem_set this i j x;; mret (wadd k 1)) k) 0) s
    (λ k s', k = c * r ∧ s' = set_contents s d (fill k))) as Hloop.
  { apply (returns_for_range 0 r _ 0 s
             (λ i k s', k = c * i ∧ s' = set_contents s d (fill k))).
    - unfold in_range in Rr. lia.
    - split; [lia|]. unfold fill. cbn. rewrite drop_0.
      destruct d as [a|]; [|reflexivity]. cbn.
      symmetry. apply with_buf_same. exact Hd.
    - intros i k s1 Hi [Hk Hs1].
      eapply returns_mono.
      + apply (returns_for_range 0 c _ k s1
                 (λ j k' s', k' = c * i + j ∧ s' = set_contents s d (fill k'))).
        * unfold in_range in Rc. lia.
        * split; [lia | exact Hs1].
        * intros j k' s2 Hj [Hk' Hs2].
          pose proof (offset_in_range r c i j Hi Hj) as Hoff.
          destruct d as [a|]; [|lia]. cbn in Hs2.
          assert (Z.to_nat k' < length v)%nat as Hkv by lia.
          destruct (lookup_lt_is_Some_2 v _ Hkv) as [x Hx].
          assert (length (fill k') = length buf0) as Hlen.
          { unfold fill. rewrite length_app, length_take, length_drop. lia. }
          assert (wadd (wmul c i) j = k') as Hidx.
          { rewrite (index_no_wrap r c i j) by assumption. lia. }
          apply (returns_intro _ _ (k' + 1) (with_buf s a (fill (k' + 1))));
            [| split; [lia | reflexivity]].
          unfold vec_at. rewrite Hx.
          rewrite bind_unfold. cbv [mret M_ret ret].
          subst s2.
          assert (bufs (with_buf s a (fill k')) !! a = Some (fill k')) as Hba
            by apply lookup_insert_eq.
          rewrite (bind_ok _ _ _ _ _
                     (elem_set_eq (with_buf s a (fill k')) this _ a (fill k') i j x
                        Ho eq_refl Hba ltac:(cbn [ncol]; lia))).
          cbn [ncol]. rewrite Hidx, with_buf_twice.
          unfold fill at 1. rewrite (insert_take_drop v buf0 _ x Hx) by lia.
          rewrite wadd_small by lia.
          replace (S (Z.to_nat k')) with (Z.to_nat (k' + 1)) by lia.
          reflexivity.
      + cbn. intros k' s' [Hk' Hs']. split; [lia | exact Hs'].
  }
  apply returns_elim in Hloop as (k & s' & E & Hk & Hs').
  rewrite (bind_ok _ _ _ _ _ E). subst s'. cbv [mret M_ret ret].
  f_equal. f_equal. unfold fill.
  rewrite take_ge, drop_ge by lia. apply app_nil_r.
Qed.

Lemma reset_result_None s this r c :
  (wmul r c = 0 ∧
   reset_result s this r c None
   = mkState (<[this := mkMatrix r c None]> (objs s)) (bufs s)) ∨
  (wmul r c ≠ 0 ∧
   reset_result s this r c None
   = mkState (<[this := mkMatrix r c (Some (fresh (dom (bufs s))))]> (objs s))
       (<[fresh (dom (bufs s)) := replicate (Z.to_nat (wmul r c)) 0%float]> (bufs s))).
Proof.
  unfold reset_result. cbn [drop_buf].
  destruct (decide (wmul r c ≠ 0)) as [H|H].
  - right. split; [exact H | reflexivity].
  - left. split; [lia | reflexivity].
Qed.

Lemma is_vector_bound els : is_vector els → Z.of_nat (length els) < modulus.
Proof. unfold is_vector, vec_size, sizeof_double. lia. Qed.

Lemma to_vector_matrix s o r c els :
  is_matrix s o r c els → to_vector o s = Ok els s.
Proof.
  unfold is_matrix. destruct (objs s !! o) as [m|] eqn:Ho; [|contradiction].
  intros (Hr & Hc & Rr & Rc & Hlen & Hvec & Hd).
  apply is_vector_bound in Hvec. unfold to_vector.
  rewrite (bind_ok _ _ _ _ _ (get_obj_ok _ _ _ Ho)). cbv zeta.
  rewrite Hr, Hc, wmul_small by lia.
  destruct (data m) as [a|].
  - destruct Hd as [_ Hb]. unfold copy_range. rewrite Hb.
    rewrite decide_True by lia. rewrite take_ge by lia. reflexivity.
  - subst els. cbn in Hlen. rewrite decide_True by lia. reflexivity.
Qed.

(** The constructor from a vector, when the length matches *)
Lemma Matrix_new_vec_ok s rows cols v :
  in_range rows → in_range cols →
  sizeof_double * (rows * cols) < modulus →
  vec_size v = rows * cols →
  ∃ s', Matrix_new_vec rows cols v s = Ok (fresh (dom (objs s))) s' ∧
        is_matrix s' (fresh (dom (objs s))) rows cols v ∧
        (∀ o, o ≠ fresh (dom (objs s)) → objs s' !! o = objs s !! o) ∧
        (∀ a b, bufs s !! a = Some b → bufs s' !! a = Some b).
Proof.
  intros Rr Rc Hsz Hv.
  assert (0 <= rows * cols < modulus) as Hrc
    by (unfold in_range, sizeof_double in *; nia).
  set (o := fresh (dom (objs s))).
  set (s0 := born s (mkMatrix rows cols None)).
  assert (objs s0 !! o = Some (mkMatrix rows cols None)) as Ho
    by apply lookup_insert_eq.
  assert (reset_buffer o rows cols s0 = Ok tt (reset_result s0 o rows cols None)) as E1.
  { rewrite (reset_buffer_eq _ _ _ rows cols Ho); [reflexivity | discriminate |].
    rewrite wmul_small by exact Hrc. exact Hsz. }
  assert (is_vector v) as Hvec by (unfold is_vector; rewrite Hv; exact Hsz).
  assert (∀ o', o' ≠ o → objs s0 !! o' = objs s !! o') as Hframe.
  { intros o' Hne. unfold s0, born. cbn. by rewrite lookup_insert_ne. }
  destruct (reset_result_None s0 o rows cols) as [[Hz E]|[Hnz E]];
    rewrite wmul_small in * by exact Hrc.
  - (* no elements: no buffer *)
    assert (assign_vector o v (reset_result s0 o rows cols None)
            = Ok tt (set_contents (reset_result s0 o rows cols None) None v)) as E2.
    { apply (assign_vector_fill _ o rows cols None [] v); try assumption; try lia.
      - rewrite E. cbn. apply lookup_insert_eq.
      - cbn. lia. }
    exists (reset_result s0 o rows cols None). split.
    { unfold Matrix_new_vec. apply construct_ok. fold o. fold s0.
      rewrite (bind_ok _ _ _ _ _ E1). exact E2. }
    assert (v = []) as -> by (apply length_zero_iff_nil; unfold vec_size in Hv; lia).
    rewrite E. split; [|split].
    + unfold is_matrix. cbn. rewrite lookup_insert_eq. cbn.
      repeat split; try assumption; unfold in_range in *; lia.
    + intros o' Hne. cbn. rewrite lookup_insert_ne by done. by apply Hframe.
    + intros a b Hab. exact Hab.
  - (* a zeroed buffer, then overwritten by the vector *)
    set (a := fresh (dom (bufs s0))) in *.
    assert (assign_vector o v (reset_result s0 o rows cols None)
            = Ok tt (set_contents (reset_result s0 o rows cols None) (Some a) v)) as E2.
    { apply (assign_vector_fill _ o rows cols (Some a)
               (replicate (Z.to_nat (rows * cols)) 0%float) v);
        try assumption; try lia.
      - rewrite E. cbn. apply lookup_insert_eq.
      - rewrite length_replicate. lia.
      - rewrite E. cbn. apply lookup_insert_eq. }
    exists (set_contents (reset_result s0 o rows cols None) (Some a) v). split.
    { unfold Matrix_new_vec. apply construct_ok. fold o. fold s0.
      rewrite (bind_ok _ _ _ _ _ E1). exact E2. }
    rewrite E. cbn. unfold with_buf. cbn. rewrite !insert_insert_eq.
    split; [|split].
    + unfold is_matrix. cbn. rewrite lookup_insert_eq. cbn.
      rewrite lookup_insert_eq.
      repeat split; try assumption; try (unfold in_range in *; lia).
      intros ->. unfold vec_size in Hv. cbn in Hv. lia.
    + intros o' Hne. rewrite lookup_insert_ne by done. reflexivity.
    + intros a' b Hab. rewrite lookup_insert_ne; [exact Hab|].
      intros <-. unfold a, s0, born in Hab. cbn in Hab.
      by rewrite fresh_buf_None in Hab.
Qed.

(** ** Construction from a vector *)

(** C7: for [rows], [cols] of type [size_t] and a vector [v] of
    [rows * cols] doubles, [Matrix(rows, cols, v).to_vector()] returns [v]. *)
Theorem vector_round_trip s rows cols v :
  in_range rows → in_range cols → is_vector v →
  vec_size v = rows * cols →
  returns (Matrix_new_vec rows cols v ≫= to_vector) s (λ out _, out = v).
Proof.
  intros Rr Rc Hvec Hv.
  assert (sizeof_double * (rows * cols) < modulus) as Hsz
    by (rewrite <- Hv; exact Hvec).
  destruct (Matrix_new_vec_ok s rows cols v Rr Rc Hsz Hv) as (s' & E & Hm & _).
  apply returns_bind. apply (returns_intro _ _ _ _ _ E).
  apply (returns_intro _ _ _ _ _ (to_vector_matrix _ _ _ _ _ Hm)). reflexivity.
Qed.

Ltac size_t_solve :=
  unfold in_range, is_vector, vec_size, sizeof_double in *;
  rewrite ?modulus_eq in *; cbn [length]; lia.

Lemma vector_round_trip_witness :
  returns (Matrix_new_vec 2 3 [1; 2; 3; 4; 5; 6]%float ≫= to_vector) empty_state
    (λ out _, out = [1; 2; 3; 4; 5; 6]%float).
Proof.
  apply (vector_round_trip empty_state 2 3 [1; 2; 3; 4; 5; 6]%float);
    [size_t_solve | size_t_solve | size_t_solve | reflexivity].
Defined.

Lemma assign_vector_mismatch s this m v :
  objs s !! this = Some m →
  wmul (nrow m) (ncol m) ≠ vec_size v →
  assign_vector this v s = Throw (out_of_range msg_elements) s.
Proof.
  intros Ho Hne. unfold assign_vector.
  rewrite (bind_ok _ _ _ _ _ (get_obj_ok _ _ _ Ho)).
  rewrite decide_True by exact Hne. reflexivity.
Qed.

Lemma Matrix_new_vec_mismatch s rows cols v :
  in_range rows → in_range cols →
  sizeof_double * (rows * cols) < modulus →
  vec_size v ≠ rows * cols →
  ∃ s', Matrix_new_vec rows cols v s = Throw (out_of_range msg_elements) s' ∧
        objs s' = objs s.
Proof.
  intros Rr Rc Hsz Hv.
  assert (0 <= rows * cols < modulus) as Hrc
    by (unfold in_range, sizeof_double in *; nia).
  set (o := fresh (dom (objs s))).
  set (s0 := born s (mkMatrix rows cols None)).
  assert (objs s0 !! o = Some (mkMatrix rows cols None)) as Ho
    by apply lookup_insert_eq.
  assert (reset_buffer o rows cols s0 = Ok tt (reset_result s0 o rows cols None)) as E1.
  { rewrite (reset_buffer_eq _ _ _ rows cols Ho); [reflexivity | discriminate |].
    rewrite wmul_small by exact Hrc. exact Hsz. }
  assert (∃ d, objs (reset_result s0 o rows cols None) !! o
               = Some (mkMatrix rows cols d) ∧
               objs (reset_result s0 o rows cols None)
               = <[o := mkMatrix rows cols d]> (objs s0)) as (d & Ho1 & EO).
  { destruct (reset_result_None s0 o rows cols) as [[_ E]|[_ E]]; rewrite E; cbn;
      eexists; (split; [apply lookup_insert_eq | reflexivity]). }
  eexists. split.
  - unfold Matrix_new_vec. apply construct_throw. fold o. fold s0.
    rewrite (bind_ok _ _ _ _ _ E1).
    apply (assign_vector_mismatch _ _ _ _ Ho1). cbn [nrow ncol].
    rewrite wmul_small by exact Hrc. congruence.
  - cbn. rewrite EO. unfold s0, born. cbn. fold o.
    rewrite !delete_insert_eq. apply delete_id, fresh_obj_None.
Qed.

(** C6, as the code has it: for [rows], [cols] of type [size_t] whose
    buffer size [8 * rows * cols] is representable, constructing from a
    vector whose length differs from [rows * cols] throws
    [std::out_of_range] and leaves no object behind, and constructing from
    a vector of that length gives the [rows] by [cols] matrix holding it. *)
Theorem construct_from_vector s rows cols v :
  in_range rows → in_range cols →
  sizeof_double * (rows * cols) < modulus →
  (vec_size v ≠ rows * cols →
   ∃ s', Matrix_new_vec rows cols v s = Throw (out_of_range msg_elements) s' ∧
         objs s' = objs s) ∧
  (vec_size v = rows * cols →
   ∃ o s', Matrix_new_vec rows cols v s = Ok o s' ∧ is_matrix s' o rows cols v).
Proof.
  intros Rr Rc Hsz. split; intros Hv.
  - by apply Matrix_new_vec_mismatch.
  - destruct (Matrix_new_vec_ok s rows cols v Rr Rc Hsz Hv) as (s' & E & Hm & _).
    eauto.
Qed.

Lemma construct_from_vector_witness :
  (vec_size [1; 2; 3]%float ≠ 2 * 2 →
   ∃ s', Matrix_new_vec 2 2 [1; 2; 3]%float empty_state
         = Throw (out_of_range msg_elements) s' ∧
         objs s' = objs empty_state) ∧
  (vec_size [1; 2; 3]%float = 2 * 2 →
   ∃ o s', Matrix_new_vec 2 2 [1; 2; 3]%float empty_state = Ok o s' ∧
           is_matrix s' o 2 2 [1; 2; 3]%float).
Proof.
  apply (construct_from_vector empty_state 2 2 [1; 2; 3]%float);
    [size_t_solve | size_t_solve | size_t_solve].
Defined.

(** C6 as stated fails when [rows * cols] wraps: for [rows = 2^63],
    [cols = 2] and the empty vector, the lengths differ ([0] against
    [2^64]) but the check compares [0] with [0], nothing is thrown, and
    the copy loop reads [vec[0]] and writes through the null pointer. *)
Lemma construct_from_vector_wraps :
  in_range (2 ^ 63) ∧ in_range 2 ∧ vec_size [] ≠ 2 ^ 63 * 2 ∧
  Matrix_new_vec (2 ^ 63) 2 [] empty_state = Undefined.
Proof.
  split; [size_t_solve|]. split; [size_t_solve|]. split; [size_t_solve|].
  unfold Matrix_new_vec, construct, alloc_obj.
  set (o := fresh (dom (objs empty_state))).
  set (s0 := mkState _ _).
  assert (objs s0 !! o = Some (mkMatrix (2 ^ 63) 2 None)) as Ho
    by apply lookup_insert_eq.
  assert (wmul (2 ^ 63) 2 = 0) as Hw by reflexivity.
  rewrite bind_unfold.
  rewrite (reset_buffer_eq _ _ _ (2 ^ 63) 2 Ho);
    [| discriminate | rewrite Hw; reflexivity].
  cbn [data].
  destruct (reset_result_None s0 o (2 ^ 63) 2) as [[_ E]|[Hnz _]];
    [|contradiction].
  rewrite E. clear E.
  set (s1 := mkState _ _).
  assert (objs s1 !! o = Some (mkMatrix (2 ^ 63) 2 None)) as Ho1
    by apply lookup_insert_eq.
  unfold assign_vector.
  rewrite (bind_ok _ _ _ _ _ (get_obj_ok _ _ _ Ho1)). cbn [nrow ncol].
  rewrite Hw, decide_False by (intros H; apply H; reflexivity).
  rewrite bind_unfold, for_range_unroll by reflexivity.
  rewrite bind_unfold, for_range_unroll by reflexivity.
  reflexivity.
Qed.

(** ** Moves *)

Lemma Matrix_eta m : mkMatrix (nrow m) (ncol m) (data m) = m.
Proof. by destruct m. Qed.

(** The three member swaps exchange the two objects' members and touch
    nothing else. *)
Lemma swap_members s a b ma mb :
  a ≠ b → objs s !! a = Some ma → objs s !! b = Some mb →
  (swap_nrow a b;; swap_ncol a b;; swap_data a b) s
  = Ok tt (mkState (<[b := ma]> (<[a := mb]> (objs s))) (bufs s)).
Proof.
  intros Hne Ha Hb. unfold swap_nrow, swap_ncol, swap_data.
  assert (b ≠ a) as Hne' by congruence.
  cbv [set_data set_nrow set_ncol mbind M_bind bind mret M_ret ret get_obj put_obj].
  repeat first [ exec_step | rewrite lookup_insert_ne by assumption ].
  f_equal. f_equal. apply map_eq. intros i.
  destruct (decide (i = a)) as [Hia|Hia]; destruct (decide (i = b)) as [Hib|Hib];
    subst;
    repeat first [ rewrite lookup_insert_eq | rewrite lookup_insert_ne by congruence ];
    try congruence; try reflexivity; by rewrite Matrix_eta.
Qed.

Lemma is_matrix_intro s o m r c els :
  objs s !! o = Some m → nrow m = r → ncol m = c →
  in_range r → in_range c → Z.of_nat (length els) = r * c → is_vector els →
  match data m with
  | None => els = []
  | Some a => els ≠ [] ∧ bufs s !! a = Some els
  end →
  is_matrix s o r c els.
Proof.
  intros Ho **. unfold is_matrix. rewrite Ho.
  repeat (split; [assumption|]). assumption.
Qed.

Lemma is_matrix_elim s o r c els :
  is_matrix s o r c els →
  ∃ m, objs s !! o = Some m ∧ nrow m = r ∧ ncol m = c ∧
       in_range r ∧ in_range c ∧ Z.of_nat (length els) = r * c ∧ is_vector els ∧
       match data m with
       | None => els = []
       | Some a => els ≠ [] ∧ bufs s !! a = Some els
       end.
Proof.
  unfold is_matrix. destruct (objs s !! o) as [m|]; [|contradiction].
  intros H. exists m. split; [reflexivity | exact H].
Qed.

(** A matrix stays what it is when its object and its buffer do. *)
Lemma is_matrix_transfer s s' o o' r c els :
  is_matrix s o r c els →
  objs s' !! o' = objs s !! o →
  (∀ a b, bufs s !! a = Some b → bufs s' !! a = Some b) →
  is_matrix s' o' r c els.
Proof.
  intros (m & Ho & Hr & Hc & Rr & Rc & Hlen & Hvec & Hd)%is_matrix_elim Hobj Hbuf.
  apply (is_matrix_intro _ _ m); try assumption; [congruence|].
  destruct (data m); [|exact Hd]. destruct Hd as [? Hb]. split; [done|].
  by apply Hbuf.
Qed.

Lemma is_matrix_empty s o :
  objs s !! o = Some (mkMatrix 0 0 None) → is_matrix s o 0 0 [].
Proof.
  intros Ho. apply (is_matrix_intro _ _ _ _ _ _ Ho); try reflexivity;
    size_t_solve.
Qed.

Lemma Matrix_move_eq s x mx :
  objs s !! x = Some mx →
  Matrix_move x s
  = Ok (fresh (dom (objs s)))
       (mkState (<[x := mkMatrix 0 0 None]> (<[fresh (dom (objs s)) := mx]> (objs s)))
                (bufs s)).
Proof.
  intros Hx. unfold Matrix_move.
  rewrite (bind_ok _ _ _ _ _ (get_obj_ok _ _ _ Hx)).
  apply construct_ok.
  set (o := fresh (dom (objs s))).
  set (s0 := mkState _ _).
  assert (objs s0 !! o = Some (mkMatrix (nrow mx) (ncol mx) None)) as Ho
    by apply lookup_insert_eq.
  assert (o ≠ x) as Hne.
  { intros E. pose proof (fresh_obj_None s) as Hn. fold o in Hn. congruence. }
  rewrite bind_unfold.
  rewrite (reset_buffer_eq _ _ _ 0 0 Ho); [| discriminate | reflexivity].
  cbn [data].
  destruct (reset_result_None s0 o 0 0) as [[_ E]|[Hnz _]];
    [| exfalso; apply Hnz; reflexivity].
  rewrite E.
  rewrite (swap_members _ o x (mkMatrix 0 0 None) mx Hne).
  - cbn. unfold s0. cbn. fold o. by rewrite !insert_insert_eq.
  - cbn. apply lookup_insert_eq.
  - cbn. unfold s0. cbn. by rewrite !lookup_insert_ne.
Qed.

Lemma move_assign_eq s x y mx my :
  y ≠ x → objs s !! x = Some mx → objs s !! y = Some my →
  move_assign y x s
  = Ok tt (mkState (<[x := my]> (<[y := mx]> (objs s))) (bufs s)).
Proof.
  intros Hne Hx Hy. unfold move_assign. rewrite decide_False by exact Hne.
  by apply swap_members.
Qed.

(** C3, as the code has it: move construction of [y] from [x] leaves [x]
    a valid empty 0 by 0 matrix and gives [y] the dimensions, the contents
    and the very buffer [x] had; move assignment [y = std::move(x)] between
    distinct objects exchanges the two, so [y] holds what [x] held and [x]
    holds what [y] held.  Either way the array store is untouched: no
    element is copied. *)
Theorem move_semantics s x r c els :
  is_matrix s x r c els →
  returns (Matrix_move x) s (λ y s',
    objs s !! y = None ∧
    is_matrix s' y r c els ∧ is_matrix s' x 0 0 [] ∧
    objs s' !! y = objs s !! x ∧ bufs s' = bufs s) ∧
  (∀ y r' c' els', y ≠ x → is_matrix s y r' c' els' →
   returns (move_assign y x) s (λ _ s',
     is_matrix s' y r c els ∧ is_matrix s' x r' c' els' ∧
     objs s' !! y = objs s !! x ∧ objs s' !! x = objs s !! y ∧
     bufs s' = bufs s)).
Proof.
  intros Hx. pose proof Hx as (mx & Ex & _)%is_matrix_elim. split.
  - apply (returns_intro _ _ _ _ _ (Matrix_move_eq _ _ _ Ex)).
    set (o := fresh (dom (objs s))).
    assert (o ≠ x) as Hne.
    { intros E. pose proof (fresh_obj_None s) as Hn. fold o in Hn. congruence. }
    assert (objs (mkState (<[x := mkMatrix 0 0 None]> (<[o := mx]> (objs s))) (bufs s))
              !! o = objs s !! x) as Eo.
    { cbn. rewrite lookup_insert_ne by congruence. by rewrite lookup_insert_eq. }
    split; [apply fresh_obj_None|]. split; [|split; [|split]].
    + by apply (is_matrix_transfer s _ x o).
    + apply is_matrix_empty. cbn. apply lookup_insert_eq.
    + exact Eo.
    + reflexivity.
  - intros y r' c' els' Hne Hy.
    pose proof Hy as (my & Ey & _)%is_matrix_elim.
    apply (returns_intro _ _ _ _ _ (move_assign_eq _ _ _ _ _ Hne Ex Ey)).
    assert (objs (mkState (<[x := my]> (<[y := mx]> (objs s))) (bufs s)) !! y
            = objs s !! x) as E1.
    { cbn. rewrite lookup_insert_ne by congruence. by rewrite lookup_insert_eq. }
    assert (objs (mkState (<[x := my]> (<[y := mx]> (objs s))) (bufs s)) !! x
            = objs s !! y) as E2.
    { cbn. by rewrite lookup_insert_eq. }
    split; [|split; [|split; [|split]]].
    + by apply (is_matrix_transfer s _ x y).
    + by apply (is_matrix_transfer s _ y x).
    + exact E1.
    + exact E2.
    + reflexivity.
Qed.

Ltac matrix_solve :=
  eapply is_matrix_intro;
    [ vm_compute; reflexivity | reflexivity | reflexivity
    | size_t_solve | size_t_solve | reflexivity | size_t_solve
    | cbn [data]; first [ reflexivity
                        | split; [discriminate | vm_compute; reflexivity] ] ].

Lemma two_matrices_1 : is_matrix two_matrices 1%positive 1 2 [1; 2]%float.
Proof. matrix_solve. Defined.

Lemma two_matrices_2 : is_matrix two_matrices 2%positive 1 1 [3]%float.
Proof. matrix_solve. Defined.

Lemma move_semantics_witness :
  returns (Matrix_move 1%positive) two_matrices (λ y s',
    objs two_matrices !! y = None ∧
    is_matrix s' y 1 2 [1; 2]%float ∧ is_matrix s' 1%positive 0 0 [] ∧
    objs s' !! y = objs two_matrices !! 1%positive ∧
    bufs s' = bufs two_matrices) ∧
  (∀ y r' c' els', y ≠ 1%positive → is_matrix two_matrices y r' c' els' →
   returns (move_assign y 1%positive) two_matrices (λ _ s',
     is_matrix s' y 1 2 [1; 2]%float ∧ is_matrix s' 1%positive r' c' els' ∧
     objs s' !! y = objs two_matrices !! 1%positive ∧
     objs s' !! 1%positive = objs two_matrices !! y ∧
     bufs s' = bufs two_matrices)).
Proof.
  apply (move_semantics two_matrices 1%positive 1 2 [1; 2]%float).
  exact two_matrices_1.
Defined.

(** C3 as stated fails for move assignment: moving the 1 by 2 matrix [x]
    into the 1 by 1 matrix [y] leaves [x] holding [y]'s former 1 by 1
    contents, not an empty 0 by 0 matrix. *)
Lemma move_assign_source_not_empty :
  is_matrix two_matrices 1%positive 1 2 [1; 2]%float ∧
  is_matrix two_matrices 2%positive 1 1 [3]%float ∧
  ∃ s', move_assign 2%positive 1%positive two_matrices = Ok tt s' ∧
        is_matrix s' 2%positive 1 2 [1; 2]%float ∧
        is_matrix s' 1%positive 1 1 [3]%float ∧
        ¬ is_matrix s' 1%positive 0 0 [].
Proof.
  split; [exact two_matrices_1|]. split; [exact two_matrices_2|].
  eexists. split; [vm_compute; reflexivity|].
  split; [matrix_solve|]. split; [matrix_solve|].
  intros (m & Ho & Hr & _)%is_matrix_elim.
  vm_compute in Ho. injection Ho as <-. discriminate Hr.
Qed.

(** ** Dimension mismatch *)

(** C5: when [mat1.ncol != mat2.nrow], [multiply_naive] and [multiply_tile]
    both throw [std::out_of_range] at entry, in the very state they were
    called in: no result object and no buffer has been made. *)
Theorem multiply_dimension_mismatch s mat1 mat2 m1 m2 fuel tile_size :
  objs s !! mat1 = Some m1 →
  objs s !! mat2 = Some m2 →
  ncol m1 ≠ nrow m2 →
  multiply_naive mat1 mat2 s = Throw (out_of_range msg_dimensions) s ∧
  multiply_tile fuel mat1 mat2 tile_size s = Throw (out_of_range msg_dimensions) s.
Proof.
  intros H1 H2 Hne. unfold multiply_naive, multiply_tile.
  rewrite !(bind_ok _ _ _ _ _ (get_obj_ok _ _ _ H1)).
  rewrite !(bind_ok _ _ _ _ _ (get_obj_ok _ _ _ H2)).
  rewrite !decide_True by exact Hne. split; reflexivity.
Qed.

Lemma multiply_dimension_mismatch_witness :
  multiply_naive 1%positive 2%positive two_matrices
  = Throw (out_of_range msg_dimensions) two_matrices ∧
  multiply_tile 5 1%positive 2%positive 4 two_matrices
  = Throw (out_of_range msg_dimensions) two_matrices.
Proof.
  apply (multiply_dimension_mismatch two_matrices 1%positive 2%positive
           (mkMatrix 1 2 (Some 1%positive)) (mkMatrix 1 1 (Some 2%positive)) 5 4);
    [reflexivity | reflexivity | discriminate].
Defined.

(** ** Equality *)

Lemma for_count_ret_pure {R} n i (body : Z → M (option R)) f s :
  (∀ i', i <= i' < i + Z.of_nat n → body i' s = Ok (f i') s) →
  for_count_ret n i body s = Ok (first_some n i f) s.
Proof.
  revert i. induction n as [|n IH]; intros i Hb; [reflexivity|].
  cbn [for_count_ret first_some]. rewrite (bind_ok _ _ _ _ _ (Hb i ltac:(lia))).
  destruct (f i); [reflexivity|]. apply IH. intros i' Hi'. apply Hb. lia.
Qed.

Lemma first_some_None {R} n i (f : Z → option R) :
  first_some n i f = None ↔ ∀ i', i <= i' < i + Z.of_nat n → f i' = None.
Proof.
  revert i. induction n as [|n IH]; intros i; cbn [first_some].
  - split; [intros _ i' Hi'; lia | reflexivity].
  - destruct (f i) eqn:E.
    + split; [discriminate|]. intros H. rewrite <- E. apply H. lia.
    + rewrite IH. split.
      * intros H i' Hi'. destruct (decide (i' = i)) as [->|]; [exact E|].
        apply H. lia.
      * intros H i' Hi'. apply H. lia.
Qed.

Lemma first_some_Some {R} n i (f : Z → option R) x :
  first_some n i f = Some x → ∃ i', i <= i' < i + Z.of_nat n ∧ f i' = Some x.
Proof.
  revert i. induction n as [|n IH]; intros i; cbn [first_some]; [discriminate|].
  destruct (f i) eqn:E.
  - intros [= <-]. exists i. split; [lia | exact E].
  - intros (i' & Hi' & H)%IH. exists i'. split; [lia | exact H].
Qed.

(** C4, as the code has it: on two matrices, [operator==] changes nothing
    and answers [true] exactly when the row counts agree, the column counts
    agree, and every pair of corresponding elements compares equal under
    the [==] of doubles. *)
Theorem equals_spec s a b r c ea r' c' eb :
  is_matrix s a r c ea → is_matrix s b r' c' eb →
  ∃ res, equals a b s = Ok res s ∧
    (res = true ↔
     r = r' ∧ c = c' ∧
     ∀ i j, 0 <= i < r → 0 <= j < c →
            double_eq (ea !!! offset c i j) (eb !!! offset c i j)).
Proof.
  intros Ha Hb.
  pose proof Ha as (ma & Ea & Hra & Hca & Rr & Rc & _)%is_matrix_elim.
  pose proof Hb as (mb & Eb & Hrb & Hcb & _)%is_matrix_elim.
  unfold equals.
  rewrite (bind_ok _ _ _ _ _ (get_obj_ok _ _ _ Ea)).
  rewrite (bind_ok _ _ _ _ _ (get_obj_ok _ _ _ Eb)).
  rewrite Hra, Hca, Hrb, Hcb.
  destruct (decide (r ≠ r' ∨ c ≠ c')) as [Hne|Heq].
  { exists false. split; [reflexivity|]. split; [discriminate|].
    intros (-> & -> & _). destruct Hne; congruence. }
  assert (r = r') as <- by (destruct (decide (r = r')); [done | tauto]).
  assert (c = c') as <- by (destruct (decide (c = c')); [done | tauto]).
  set (cell := λ i j : Z,
         if negb (PrimFloat.eqb (ea !!! offset c i j) (eb !!! offset c i j))
         then Some false else None).
  set (row := λ i : Z, first_some (Z.to_nat c) 0 (cell i)).
  assert (∀ i, 0 <= i < r →
    for_range_ret 0 c (λ j,
      x ← elem_get a i j; y ← elem_get b i j;
      if negb (PrimFloat.eqb x y) then mret (Some false) else mret None) s
    = Ok (row i) s) as Hrow.
  { intros i Hi. unfold for_range_ret. rewrite Z.sub_0_r.
    apply for_count_ret_pure. intros j Hj.
    assert (0 <= j < c) as Hj' by lia.
    rewrite (bind_ok _ _ _ _ _ (elem_get_matrix _ _ _ _ _ _ _ Ha Hi Hj')).
    rewrite (bind_ok _ _ _ _ _ (elem_get_matrix _ _ _ _ _ _ _ Hb Hi Hj')).
    unfold cell. by destruct (negb _). }
  assert (for_range_ret 0 r (λ i,
      for_range_ret 0 c (λ j,
        x ← elem_get a i j; y ← elem_get b i j;
        if negb (PrimFloat.eqb x y) then mret (Some false) else mret None)) s
    = Ok (first_some (Z.to_nat r) 0 row) s) as Hall.
  { unfold for_range_ret at 1. rewrite Z.sub_0_r.
    apply for_count_ret_pure. intros i Hi. apply Hrow. lia. }
  rewrite (bind_ok _ _ _ _ _ Hall).
  destruct (first_some (Z.to_nat r) 0 row) as [res|] eqn:E.
  - exists res. split; [reflexivity|].
    apply first_some_Some in E as (i & Hi & E). unfold row in E.
    apply first_some_Some in E as (j & Hj & E). unfold cell in E.
    destruct (PrimFloat.eqb _ _) eqn:Ex; cbn in E; [discriminate|].
    injection E as <-. split; [discriminate|].
    intros (_ & _ & H). specialize (H i j ltac:(lia) ltac:(lia)).
    unfold double_eq in H. congruence.
  - exists true. split; [reflexivity|]. split; [|reflexivity].
    intros _. split; [reflexivity|]. split; [reflexivity|].
    intros i j Hi Hj.
    rewrite first_some_None in E. specialize (E i ltac:(lia)). unfold row in E.
    rewrite first_some_None in E. specialize (E j ltac:(lia)). unfold cell in E.
    unfold double_eq. by destruct (PrimFloat.eqb _ _).
Qed.

Lemma equals_spec_witness :
  ∃ res, equals 1%positive 2%positive two_matrices = Ok res two_matrices ∧
    (res = true ↔
     1 = 1 ∧ 2 = 1 ∧
     ∀ i j, 0 <= i < 1 → 0 <= j < 2 →
            double_eq ([1; 2]%float !!! offset 2 i j) ([3]%float !!! offset 2 i j)).
Proof.
  apply (equals_spec two_matrices 1%positive 2%positive 1 2 [1; 2]%float 1 1 [3]%float).
  - matrix_solve.
  - matrix_solve.
Defined.

Lemma zero_neq_neg_zero : (0 ≠ -0)%float.
Proof.
  intros H. apply (f_equal (λ x, PrimFloat.ltb 0 (1 / x))) in H.
  vm_compute in H. discriminate.
Qed.

(** C4 as stated fails on special values: a matrix holding a NaN is not
    [==] to itself, though every element is bit-for-bit its own equal; and
    the matrices [+0.0] and [-0.0] are [==], though their elements differ
    (in the sign bit). *)
Lemma equals_not_bitwise :
  (is_matrix special_values 3%positive 1 1 [nan] ∧
   equals 3%positive 3%positive special_values = Ok false special_values) ∧
  (is_matrix special_values 1%positive 1 1 [0]%float ∧
   is_matrix special_values 2%positive 1 1 [(-0)]%float ∧
   [0]%float ≠ [(-0)]%float ∧
   equals 1%positive 2%positive special_values = Ok true special_values).
Proof.
  split; [split; [matrix_solve | vm_compute; reflexivity]|].
  split; [matrix_solve|]. split; [matrix_solve|].
  split; [|vm_compute; reflexivity].
  intros H. apply zero_neq_neg_zero.
  exact (f_equal (λ l : list float, l !!! O) H).
Qed.

(** ** Copies *)

Lemma reset_result_cases s this r c d :
  (wmul r c = 0 ∧
   reset_result s this r c d
   = mkState (<[this := mkMatrix r c None]> (objs s)) (drop_buf d (bufs s))) ∨
  (wmul r c ≠ 0 ∧
   reset_result s this r c d
   = mkState (<[this := mkMatrix r c (Some (fresh (dom (drop_buf d (bufs s)))))]>
                (objs s))
       (<[fresh (dom (drop_buf d (bufs s)))
          := replicate (Z.to_nat (wmul r c)) 0%float]> (drop_buf d (bufs s)))).
Proof.
  unfold reset_result.
  destruct (decide (wmul r c ≠ 0)) as [H|H].
  - right. split; [exact H | reflexivity].
  - left. split; [lia | reflexivity].
Qed.

Lemma is_matrix_set_contents s o r c els d buf :
  is_matrix s o r c els →
  (∀ m a, objs s !! o = Some m → d = Some a → data m ≠ Some a) →
  is_matrix (set_contents s d buf) o r c els.
Proof.
  intros Hm Hsep. destruct d as [a|]; [|exact Hm].
  pose proof Hm as (m & Ho & Hr & Hc & Rr & Rc & Hlen & Hvec & Hd)%is_matrix_elim.
  apply (is_matrix_intro _ _ m); try assumption.
  destruct (data m) as [a'|] eqn:Ed; [|exact Hd].
  destruct Hd as [Hne Hb]. split; [exact Hne|].
  cbn. rewrite lookup_insert_ne; [exact Hb|].
  intros ->. by apply (Hsep m a').
Qed.

Lemma copy_elements_fill s this other r c d buf0 els :
  objs s !! this = Some (mkMatrix r c d) →
  is_matrix s other r c els →
  Z.of_nat (length buf0) = r * c →
  match d with
  | Some a => bufs s !! a = Some buf0
  | None => r * c = 0
  end →
  (∀ m a, objs s !! other = Some m → d = Some a → data m ≠ Some a) →
  copy_elements this other s = Ok tt (set_contents s d els).
Proof.
  intros Ho Hm Hb Hd Hsep. unfold copy_elements.
  pose proof Hm as (mo & _ & _ & _ & Rr & Rc & Hv & Hvec & _)%is_matrix_elim.
  apply is_vector_bound in Hvec.
  rewrite (bind_ok _ _ _ _ _ (get_obj_ok _ _ _ Ho)). cbn [nrow ncol].
  set (fill := λ k : Z, take (Z.to_nat k) els ++ drop (Z.to_nat k) buf0).
  assert (returns
    (for_range 0 r (λ i _,
       for_range 0 c (λ j _,
         x ← elem_get other i j; elem_set this i j x) tt) tt) s
    (λ _ s', s' = set_contents s d (fill (c * r)))) as Hloop.
  { apply (returns_for_range 0 r _ tt s
             (λ i _ s', s' = set_contents s d (fill (c * i)))).
    - unfold in_range in Rr. lia.
    - unfold fill. rewrite Z.mul_0_r. cbn. rewrite drop_0.
      destruct d as [a|]; [|reflexivity]. cbn.
      symmetry. apply with_buf_same. exact Hd.
    - intros i [] s1 Hi Hs1.
      eapply returns_mono.
      + apply (returns_for_range 0 c _ tt s1
                 (λ j _ s', s' = set_contents s d (fill (c * i + j)))).
        * unfold in_range in Rc. lia.
        * rewrite Z.add_0_r. exact Hs1.
        * intros j [] s2 Hj Hs2.
          pose proof (offset_in_range r c i j Hi Hj) as Hoff.
          destruct d as [a|]; [|lia]. cbn in Hs2.
          set (k := c * i + j) in *.
          assert (Z.to_nat k < length els)%nat as Hkv by lia.
          assert (length (fill k) = length buf0) as Hlen.
          { unfold fill. rewrite length_app, length_take, length_drop. lia. }
          assert (wadd (wmul c i) j = k) as Hidx.
          { rewrite (index_no_wrap r c i j) by (assumption || lia). reflexivity. }
          assert (is_matrix s2 other r c els) as Hm2.
          { subst s2. by apply (is_matrix_set_contents s other r c els (Some a)). }
          apply (returns_intro _ _ tt (with_buf s a (fill (k + 1))));
            [| unfold k; f_equal; f_equal; lia].
          rewrite (bind_ok _ _ _ _ _ (elem_get_matrix _ _ _ _ _ _ _ Hm2 Hi Hj)).
          subst s2.
          assert (bufs (with_buf s a (fill k)) !! a = Some (fill k)) as Hba
            by apply lookup_insert_eq.
          rewrite (elem_set_eq (with_buf s a (fill k)) this _ a (fill k) i j _
                     Ho eq_refl Hba ltac:(cbn [ncol]; lia)).
          cbn [ncol]. rewrite Hidx, with_buf_twice.
          unfold fill at 1.
          rewrite (insert_take_drop els buf0 _ (els !!! offset c i j)) by
            (try apply list_lookup_lookup_total_lt; unfold offset; fold k; lia).
          replace (S (Z.to_nat k)) with (Z.to_nat (k + 1)) by lia.
          reflexivity.
      + cbn. intros _ s' ->. f_equal. f_equal. lia.
  }
  apply returns_elim in Hloop as ([] & s' & E & ->).
  rewrite E. f_equal. f_equal. unfold fill.
  rewrite take_ge, drop_ge by lia. apply app_nil_r.
Qed.

Lemma is_matrix_sizeof s o r c els :
  is_matrix s o r c els →
  in_range r ∧ in_range c ∧ 0 <= r * c ∧ sizeof_double * (r * c) < modulus.
Proof.
  intros (m & _ & _ & _ & Rr & Rc & Hlen & Hvec & _)%is_matrix_elim.
  unfold is_vector, vec_size in Hvec. rewrite Hlen in Hvec.
  repeat split; try assumption; try apply Rr; try apply Rc. lia.
Qed.

(** [reset_buffer(r, c)] on [this] followed by the element-wise copy from
    an [r] by [c] matrix [other] that does not share [this]'s array *)
Lemma reset_then_copy st this other m0 r c els :
  this ≠ other →
  objs st !! this = Some m0 →
  (∀ a, data m0 = Some a → is_Some (bufs st !! a)) →
  is_matrix st other r c els →
  (∀ mo a, objs st !! other = Some mo → data m0 = Some a → data mo ≠ Some a) →
  ∃ s', (reset_buffer this r c;; copy_elements this other) st = Ok tt s' ∧
        is_matrix s' this r c els ∧ is_matrix s' other r c els ∧
        separate s' this other ∧
        (∀ o, o ≠ this → objs s' !! o = objs st !! o).
Proof.
  intros Hne Ho Hd0 Hm Hsep.
  pose proof (is_matrix_sizeof _ _ _ _ _ Hm) as (Rr & Rc & Hpos & Hsz).
  assert (0 <= r * c < modulus) as Hrc by (unfold sizeof_double in Hsz; lia).
  pose proof Hm as (mo & Eo & Hr & Hc & _ & _ & Hlen & Hvec & Hdo)%is_matrix_elim.
  assert (reset_buffer this r c st = Ok tt (reset_result st this r c (data m0))) as E1.
  { apply (reset_buffer_eq _ _ _ r c Ho Hd0). by rewrite wmul_small. }
  set (B := drop_buf (data m0) (bufs st)).
  assert (∀ a, data mo = Some a → B !! a = Some els) as HB.
  { intros a Ea. rewrite Ea in Hdo. destruct Hdo as [_ Hb]. unfold B.
    destruct (data m0) as [a0|] eqn:E0; [|exact Hb]. cbn.
    rewrite lookup_delete_ne; [exact Hb|].
    intros <-. by apply (Hsep mo a0). }
  destruct (reset_result_cases st this r c (data m0)) as [[Hz E]|[Hnz E]];
    rewrite wmul_small in * by exact Hrc; fold B in E.
  - (* nothing to copy *)
    assert (is_matrix (reset_result st this r c (data m0)) other r c els) as Hm1.
    { rewrite E. apply (is_matrix_intro _ _ mo); try assumption.
      - cbn. by rewrite lookup_insert_ne.
      - destruct (data mo) as [a|] eqn:Ea; [|exact Hdo].
        split; [apply Hdo | by apply HB]. }
    assert (copy_elements this other (reset_result st this r c (data m0))
            = Ok tt (set_contents (reset_result st this r c (data m0)) None els)) as E2.
    { apply (copy_elements_fill _ this other r c None []); try assumption.
      - rewrite E. cbn. apply lookup_insert_eq.
      - cbn. lia.
      - intros ? ? _ [=]. }
    exists (reset_result st this r c (data m0)). split.
    { rewrite (bind_ok _ _ _ _ _ E1). exact E2. }
    assert (els = []) as -> by (apply length_zero_iff_nil; lia).
    split; [|split; [exact Hm1 | split]].
    + rewrite E. apply (is_matrix_intro _ _ (mkMatrix r c None));
        try assumption; try reflexivity.
      cbn. apply lookup_insert_eq.
    + rewrite E. intros m1 m2 a H1 H2 Hd. cbn in H1.
      rewrite lookup_insert_eq in H1. injection H1 as <-. discriminate Hd.
    + intros o Hno. rewrite E. cbn. by rewrite lookup_insert_ne.
  - (* a zeroed array, then overwritten *)
    set (a := fresh (dom B)) in *.
    assert (B !! a = None) as Hfresh by apply fresh_buf_None.
    assert (is_matrix (reset_result st this r c (data m0)) other r c els) as Hm1.
    { rewrite E. apply (is_matrix_intro _ _ mo); try assumption.
      - cbn. by rewrite lookup_insert_ne.
      - destruct (data mo) as [a'|] eqn:Ea; [|exact Hdo].
        split; [apply Hdo|]. cbn. rewrite lookup_insert_ne; [by apply HB|].
        intros <-. rewrite (HB a eq_refl) in Hfresh. discriminate. }
    assert (∀ m' a', objs (reset_result st this r c (data m0)) !! other = Some m' →
                     Some a = Some a' → data m' ≠ Some a') as Hsep1.
    { intros m' a' H1 [= <-] Hd'. rewrite E in H1. cbn in H1.
      rewrite lookup_insert_ne in H1 by done.
      assert (m' = mo) as -> by congruence.
      rewrite (HB a Hd') in Hfresh. discriminate. }
    assert (copy_elements this other (reset_result st this r c (data m0))
            = Ok tt (set_contents (reset_result st this r c (data m0)) (Some a) els))
      as E2.
    { apply (copy_elements_fill _ this other r c (Some a)
               (replicate (Z.to_nat (r * c)) 0%float)); try assumption.
      - rewrite E. cbn. apply lookup_insert_eq.
      - rewrite length_replicate. lia.
      - rewrite E. cbn. apply lookup_insert_eq. }
    exists (set_contents (reset_result st this r c (data m0)) (Some a) els). split.
    { rewrite (bind_ok _ _ _ _ _ E1). exact E2. }
    split; [|split; [|split]].
    + rewrite E. apply (is_matrix_intro _ _ (mkMatrix r c (Some a)));
        try assumption; try reflexivity.
      * cbn. apply lookup_insert_eq.
      * cbn. split; [|apply lookup_insert_eq].
        intros ->. cbn in Hlen. lia.
    + by apply is_matrix_set_contents.
    + intros m1 m2 a' H1 H2 Hd1 Hd2. rewrite E in H1, H2. cbn in H1, H2.
      rewrite lookup_insert_eq in H1. rewrite lookup_insert_ne in H2 by done.
      injection H1 as <-. cbn in Hd1. injection Hd1 as <-.
      assert (m2 = mo) as -> by congruence.
      rewrite (HB a Hd2) in Hfresh. discriminate.
    + intros o Hno. rewrite E. cbn. by rewrite lookup_insert_ne.
Qed.

Lemma separate_sym s o1 o2 : separate s o1 o2 → separate s o2 o1.
Proof.
  intros H m2 m1 a H2 H1 Hd2 Hd1. by apply (H m1 m2 a).
Qed.

Lemma elem_set_independent s x y r c ex r' c' ey i j v :
  is_matrix s x r c ex → is_matrix s y r' c' ey → separate s x y →
  0 <= i < r → 0 <= j < c →
  returns (elem_set x i j v) s (λ _ s',
    is_matrix s' x r c (<[offset c i j := v]> ex) ∧ is_matrix s' y r' c' ey).
Proof.
  intros Hx Hy Hsep Hi Hj.
  pose proof Hx as (mx & Ex & Hr & Hc & Rr & Rc & Hlen & Hvec & Hd)%is_matrix_elim.
  pose proof (offset_in_range r c i j Hi Hj) as Hoff.
  pose proof (is_vector_bound _ Hvec) as Hbound.
  destruct (data mx) as [a|] eqn:Ed; [|subst ex; cbn in Hlen; lia].
  destruct Hd as [Hnil Hb].
  assert (wadd (wmul (ncol mx) i) j = c * i + j) as Hidx.
  { rewrite Hc. apply (index_no_wrap r c i j); (assumption || lia). }
  apply (returns_intro _ _ tt (with_buf s a (<[offset c i j := v]> ex))).
  { rewrite (elem_set_eq s x mx a ex i j v Ex Ed Hb) by (rewrite Hidx; lia).
    by rewrite Hidx. }
  split.
  - apply (is_matrix_intro _ _ mx); try assumption.
    + by rewrite length_insert.
    + unfold is_vector, vec_size in *. by rewrite length_insert.
    + rewrite Ed. split; [|cbn; apply lookup_insert_eq].
      intros E. apply (f_equal length) in E. rewrite length_insert in E.
      cbn in E. lia.
  - apply (is_matrix_set_contents s y r' c' ey (Some a)); [exact Hy|].
    intros my a' Ey [= <-]. by apply (Hsep mx my a).
Qed.

Lemma independent_intro s o1 o2 r c els :
  is_matrix s o1 r c els → is_matrix s o2 r c els → separate s o1 o2 →
  independent s o1 o2 r c els.
Proof.
  intros H1 H2 Hsep. split; [exact H1|]. split; [exact H2|]. split; [exact Hsep|].
  intros i j v Hi Hj. split.
  - by apply (elem_set_independent s o1 o2 r c els r c els).
  - apply (elem_set_independent s o2 o1 r c els r c els); try assumption.
    by apply separate_sym.
Qed.

Lemma Matrix_copy_spec s m r c els :
  is_matrix s m r c els →
  returns (Matrix_copy m) s (λ cp s',
    objs s !! cp = None ∧ cp ≠ m ∧
    is_matrix s' cp r c els ∧ is_matrix s' m r c els ∧ separate s' cp m).
Proof.
  intros Hm.
  pose proof Hm as (mo & Eo & Hr & Hc & _)%is_matrix_elim.
  set (o := fresh (dom (objs s))).
  assert (objs s !! o = None) as Hfresh by apply fresh_obj_None.
  assert (o ≠ m) as Hne by (intros E; congruence).
  set (s0 := born s (mkMatrix (nrow mo) (ncol mo) None)).
  assert (objs s0 !! o = Some (mkMatrix (nrow mo) (ncol mo) None)) as Ho
    by apply lookup_insert_eq.
  assert (objs s0 !! m = objs s !! m) as Em.
  { unfold s0, born. cbn. by rewrite lookup_insert_ne. }
  assert (is_matrix s0 m r c els) as Hm0.
  { apply (is_matrix_transfer s s0 m m); [exact Hm | exact Em | done]. }
  destruct (reset_then_copy s0 o m _ r c els Hne Ho) as (s' & E & H1 & H2 & H3 & _);
    [discriminate | exact Hm0 | discriminate |].
  apply (returns_intro _ _ o s').
  - unfold Matrix_copy. rewrite (bind_ok _ _ _ _ _ (get_obj_ok _ _ _ Eo)).
    apply construct_ok. fold o. fold s0.
    rewrite <- Em in Eo. rewrite (bind_ok _ _ _ _ _ (get_obj_ok _ _ _ Eo)).
    rewrite Hr, Hc. exact E.
  - auto.
Qed.

Lemma copy_assign_spec s dst m r c els r' c' els' :
  dst ≠ m → is_matrix s m r c els → is_matrix s dst r' c' els' →
  separate s dst m →
  returns (copy_assign dst m) s (λ _ s',
    is_matrix s' dst r c els ∧ is_matrix s' m r c els ∧ separate s' dst m).
Proof.
  intros Hne Hm Hdst Hsep.
  pose proof Hm as (mo & Eo & Hr & Hc & Rr & Rc & Hlen & Hvec & Hdo)%is_matrix_elim.
  pose proof Hdst as (md & Ed & Hr' & Hc' & _ & _ & Hlen' & _ & Hdd)%is_matrix_elim.
  unfold copy_assign. rewrite decide_False by exact Hne.
  unfold returns.
  rewrite (bind_ok _ _ _ _ _ (get_obj_ok _ _ _ Ed)).
  rewrite (bind_ok _ _ _ _ _ (get_obj_ok _ _ _ Eo)).
  rewrite Hr, Hc, Hr', Hc'.
  destruct (decide (r' ≠ r ∨ c' ≠ c)) as [Hdiff|Hsame].
  - destruct (reset_then_copy s dst m md r c els Hne Ed) as (s' & E & H1 & H2 & H3 & _).
    + intros a Ea. rewrite Ea in Hdd. destruct Hdd as [_ ->]. eauto.
    + exact Hm.
    + intros mo' a Eo' Ea. by apply (Hsep md mo' a).
    + rewrite E. auto.
  - assert (r' = r) as -> by (destruct (decide (r' = r)); [done | tauto]).
    assert (c' = c) as -> by (destruct (decide (c' = c)); [done | tauto]).
    rewrite bind_unfold. cbv [mret M_ret ret].
    assert (objs s !! dst = Some (mkMatrix r c (data md))) as Ed'.
    { rewrite Ed. f_equal. rewrite <- Hr', <- Hc'. symmetry. apply Matrix_eta. }
    rewrite (copy_elements_fill s dst m r c (data md) els' els Ed' Hm Hlen').
    + split; [|split].
      * destruct (data md) as [a|] eqn:Ea.
        -- apply (is_matrix_intro _ _ md); try assumption.
           rewrite Ea. destruct Hdd as [Hnil _]. split; [|cbn; apply lookup_insert_eq].
           intros ->. apply Hnil. apply length_zero_iff_nil. cbn in Hlen. lia.
        -- cbn. subst els'. assert (els = []) as ->
             by (apply length_zero_iff_nil; cbn in Hlen'; lia).
           exact Hdst.
      * apply is_matrix_set_contents; [exact Hm|].
        intros mo' a Eo' Ea. by apply (Hsep md mo' a).
      * intros m1 m2 a H1 H2. apply (Hsep m1 m2 a).
        -- destruct (data md); exact H1.
        -- destruct (data md); exact H2.
    + destruct (data md) as [a|]; [apply Hdd|]. subst els'. cbn in Hlen'. lia.
    + intros mo' a Eo' Ea. by apply (Hsep md mo' a).
Qed.

(** C10: a copy of a matrix [m], made by the copy constructor or by copy
    assignment to another object, holds equal contents in an array of its
    own: storing into an in-range element of the copy leaves [m] as it
    was, and storing into [m] leaves the copy as it was. *)
Theorem copy_independence s m r c els :
  is_matrix s m r c els →
  returns (Matrix_copy m) s (λ cp s', cp ≠ m ∧ independent s' cp m r c els) ∧
  (∀ dst r' c' els', dst ≠ m → is_matrix s dst r' c' els' → separate s dst m →
   returns (copy_assign dst m) s (λ _ s', independent s' dst m r c els)).
Proof.
  intros Hm. split.
  - eapply returns_mono; [apply (Matrix_copy_spec s m r c els Hm)|].
    intros cp s' (_ & Hne & H1 & H2 & H3). split; [exact Hne|].
    by apply independent_intro.
  - intros dst r' c' els' Hne Hdst Hsep.
    eapply returns_mono;
      [apply (copy_assign_spec s dst m r c els r' c' els' Hne Hm Hdst Hsep)|].
    intros _ s' (H1 & H2 & H3). by apply independent_intro.
Qed.

Lemma copy_independence_witness :
  returns (Matrix_copy 1%positive) two_matrices
    (λ cp s', cp ≠ 1%positive ∧ independent s' cp 1%positive 1 2 [1; 2]%float) ∧
  (∀ dst r' c' els', dst ≠ 1%positive → is_matrix two_matrices dst r' c' els' →
   separate two_matrices dst 1%positive →
   returns (copy_assign dst 1%positive) two_matrices
     (λ _ s', independent s' dst 1%positive 1 2 [1; 2]%float)).
Proof.
  apply (copy_independence two_matrices 1%positive 1 2 [1; 2]%float).
  exact two_matrices_1.
Defined.

(** ** Multiplication: accumulating into the result *)

Lemma lin_inj p i k i' k' :
  0 <= k < p → 0 <= k' < p → p * i + k = p * i' + k' → i = i' ∧ k = k'.
Proof. intros Hk Hk' E. assert (i = i') by nia. subst. lia. Qed.

Section Accumulate.

(** The operands [a] ([m] by [n]) and [b] ([n] by [p]) and the result
    object [o] ([m] by [p]) with its buffer pointer [d], in a store [st];
    the result's array, when there is one, belongs to neither operand. *)
Variables (st : state) (a b o : loc) (m n p : Z) (ea eb : list float).
Variable d : option loc.
Hypothesis Ha : is_matrix st a m n ea.
Hypothesis Hb : is_matrix st b n p eb.
Hypothesis Ho : objs st !! o = Some (mkMatrix m p d).
Hypothesis Rm : in_range m.
Hypothesis Rp : in_range p.
Hypothesis Hmp : m * p < modulus.
Hypothesis Hd :
  match d with
  | Some ac =>
      (∀ mo, objs st !! a = Some mo → data mo ≠ Some ac) ∧
      (∀ mo, objs st !! b = Some mo → data mo ≠ Some ac)
  | None => m * p = 0
  end.

Lemma read_a i j buf :
  0 <= i < m → 0 <= j < n →
  elem_get a i j (cur st d buf) = Ok (ea !!! offset n i j) (cur st d buf).
Proof.
  intros Hi Hj. apply (elem_get_matrix _ _ m n); try assumption.
  apply is_matrix_set_contents; [exact Ha|].
  intros mo ac Eo Ed. pose proof Hd as Hd'. rewrite Ed in Hd'.
  destruct Hd' as [H1 _]. by apply H1.
Qed.

Lemma read_b j k buf :
  0 <= j < n → 0 <= k < p →
  elem_get b j k (cur st d buf) = Ok (eb !!! offset p j k) (cur st d buf).
Proof.
  intros Hj Hk. apply (elem_get_matrix _ _ n p); try assumption.
  apply is_matrix_set_contents; [exact Hb|].
  intros mo ac Eo Ed. pose proof Hd as Hd'. rewrite Ed in Hd'.
  destruct Hd' as [_ H2]. by apply H2.
Qed.

Lemma read_o i k buf :
  Z.of_nat (length buf) = m * p → 0 <= i < m → 0 <= k < p →
  elem_get o i k (cur st d buf) = Ok (buf !!! offset p i k) (cur st d buf).
Proof.
  intros Hlen Hi Hk. pose proof (offset_in_range m p i k Hi Hk) as Hoff.
  pose proof Hd as Hd'. pose proof Ho as Ho'.
  unfold cur. destruct d as [ac|]; [|lia]. cbn.
  apply (elem_get_eq (with_buf st ac buf) o (mkMatrix m p (Some ac)) ac buf);
    [exact Ho' | reflexivity | apply lookup_insert_eq |].
  cbn [ncol]. rewrite (index_no_wrap m p i k) by assumption.
  fold (offset p i k). apply list_lookup_lookup_total_lt. unfold offset. lia.
Qed.

Lemma write_o i k v buf :
  Z.of_nat (length buf) = m * p → 0 <= i < m → 0 <= k < p →
  elem_set o i k v (cur st d buf) = Ok tt (cur st d (<[offset p i k := v]> buf)).
Proof.
  intros Hlen Hi Hk. pose proof (offset_in_range m p i k Hi Hk) as Hoff.
  pose proof Hd as Hd'. pose proof Ho as Ho'.
  unfold cur. destruct d as [ac|]; [|lia]. cbn.
  assert (bufs (with_buf st ac buf) !! ac = Some buf) as Hb' by apply lookup_insert_eq.
  rewrite (elem_set_eq (with_buf st ac buf) o _ ac buf i k v Ho' eq_refl Hb');
    cbn [ncol]; rewrite (index_no_wrap m p i k) by assumption; [|lia].
  by rewrite with_buf_twice.
Qed.

Lemma progress_ext buf K K' :
  progress m n p ea eb buf K →
  (∀ i k, 0 <= i < m → 0 <= k < p → K' i k = K i k) →
  progress m n p ea eb buf K'.
Proof.
  intros [Hlen H] E. split; [exact Hlen|].
  intros i k Hi Hk. rewrite (E i k Hi Hk). by apply H.
Qed.

(** One multiply-accumulate: cell [(i, k)], holding [q] terms of its sum,
    receives term [q]. *)
Lemma progress_step buf K i k q :
  progress m n p ea eb buf K → 0 <= i < m → 0 <= k < p → K i k = q → 0 <= q →
  progress m n p ea eb
    (<[offset p i k :=
         (buf !!! offset p i k + ea !!! offset n i q * eb !!! offset p q k)%float]> buf)
    (λ i' k', if decide (i' = i ∧ k' = k) then q + 1 else K i' k').
Proof.
  intros [Hlen H] Hi Hk HK Hq.
  pose proof (offset_in_range m p i k Hi Hk) as Hoff.
  split; [by rewrite length_insert|].
  intros i' k' Hi' Hk'.
  pose proof (offset_in_range m p i' k' Hi' Hk') as Hoff'.
  destruct (decide (i' = i ∧ k' = k)) as [[-> ->]|Hne].
  - rewrite list_lookup_total_insert_eq by (unfold offset; lia).
    replace (Z.to_nat (q + 1)) with (S (Z.to_nat q)) by lia.
    cbn [dot_upto]. rewrite Z2Nat.id by exact Hq.
    by rewrite (H i k Hi Hk), HK.
  - rewrite list_lookup_total_insert_ne; [by apply H|].
    unfold offset. intros E. apply Hne.
    apply (lin_inj p); (assumption || lia).
Qed.

Lemma n_nonneg : 0 <= n.
Proof. by destruct (is_matrix_sizeof _ _ _ _ _ Ha) as (_ & [? _] & _). Qed.

Lemma lin_iff i k i' k' :
  0 <= k < p → 0 <= k' < p → (p * i' + k' = p * i + k ↔ i' = i ∧ k' = k).
Proof.
  intros Hk Hk'. split; [by apply lin_inj | by intros [-> ->]].
Qed.

(** *** The naive loop nest *)

Lemma naive_cell_spec i k buf :
  0 <= i < m → 0 <= k < p →
  progress m n p ea eb buf (naive_progress n p (p * i + k) 0) →
  returns (naive_cell a b o n i k) (cur st d buf) (λ _ s',
    ∃ buf', s' = cur st d buf' ∧ progress m n p ea eb buf' (naive_progress n p (p * i + k + 1) 0)).
Proof.
  intros Hi Hk H0. pose proof n_nonneg as Hn.
  eapply returns_mono.
  - apply (returns_for_range 0 n _ tt (cur st d buf)
             (λ j _ s', ∃ buf', s' = cur st d buf' ∧
                progress m n p ea eb buf' (naive_progress n p (p * i + k) j))); [exact Hn | eauto |].
    intros j [] s1 Hj (buf1 & -> & H1).
    pose proof H1 as [Hlen _]. unfold returns.
    rewrite (bind_unfold _ _ (cur st d buf1)), (read_a i j buf1) by assumption.
    rewrite (bind_unfold _ _ (cur st d buf1)), (read_b j k buf1) by assumption.
    rewrite (bind_unfold _ _ (cur st d buf1)), (read_o i k buf1) by assumption.
    rewrite (write_o i k _ buf1 Hlen Hi Hk).
    eexists. split; [reflexivity|].
    eapply progress_ext.
    + apply (progress_step buf1 _ i k j H1 Hi Hk); [|lia].
      unfold naive_progress. rewrite decide_False, decide_True by lia. reflexivity.
    + intros i' k' Hi' Hk'. cbn beta. unfold naive_progress.
      pose proof (lin_iff i k i' k' Hk Hk').
      repeat case_decide; lia.
  - cbn beta. intros _ s' (buf' & -> & H'). exists buf'. split; [reflexivity|].
    eapply progress_ext; [exact H'|].
    intros i' k' Hi' Hk'. unfold naive_progress. repeat case_decide; lia.
Qed.

Lemma naive_row_spec i buf :
  0 <= i < m →
  progress m n p ea eb buf (naive_progress n p (p * i) 0) →
  returns (for_range 0 p (λ k _, naive_cell a b o n i k) tt) (cur st d buf) (λ _ s',
    ∃ buf', s' = cur st d buf' ∧ progress m n p ea eb buf' (naive_progress n p (p * (i + 1)) 0)).
Proof.
  intros Hi H0.
  replace (p * (i + 1)) with (p * i + p) by lia.
  apply (returns_for_range 0 p _ tt (cur st d buf)
           (λ k _ s', ∃ buf', s' = cur st d buf' ∧
              progress m n p ea eb buf' (naive_progress n p (p * i + k) 0))).
  - apply Rp.
  - exists buf. split; [reflexivity|]. by rewrite Z.add_0_r.
  - intros k [] s1 Hk (buf1 & -> & H1).
    replace (p * i + (k + 1)) with (p * i + k + 1) by lia.
    by apply naive_cell_spec.
Qed.

Lemma naive_all_spec buf :
  progress m n p ea eb buf (naive_progress n p 0 0) →
  returns (for_range 0 m (λ i _, for_range 0 p (λ k _, naive_cell a b o n i k) tt) tt)
    (cur st d buf)
    (λ _ s', ∃ buf', s' = cur st d buf' ∧ progress m n p ea eb buf' (λ _ _, n)).
Proof.
  intros H0. eapply returns_mono.
  - apply (returns_for_range 0 m _ tt (cur st d buf)
             (λ i _ s', ∃ buf', s' = cur st d buf' ∧
                progress m n p ea eb buf' (naive_progress n p (p * i) 0))).
    + apply Rm.
    + exists buf. split; [reflexivity|]. by rewrite Z.mul_0_r.
    + intros i [] s1 Hi (buf1 & -> & H1). by apply naive_row_spec.
  - cbn beta. intros _ s' (buf' & -> & H'). exists buf'. split; [reflexivity|].
    eapply progress_ext; [exact H'|].
    intros i k Hi Hk. unfold naive_progress.
    pose proof (offset_in_range m p i k Hi Hk).
    rewrite decide_True by lia. reflexivity.
Qed.

(** A zeroed array holds no term of any sum. *)
Lemma progress_zeros :
  0 <= m * p → progress m n p ea eb (replicate (Z.to_nat (m * p)) 0%float) (λ _ _, 0).
Proof.
  intros Hpos. split; [rewrite length_replicate; lia|].
  intros i k Hi Hk. pose proof (offset_in_range m p i k Hi Hk).
  rewrite lookup_total_replicate_2 by (unfold offset; lia). reflexivity.
Qed.

Lemma progress_complete buf :
  progress m n p ea eb buf (λ _ _, n) →
  ∀ i k, 0 <= i < m → 0 <= k < p → buf !!! offset p i k = dot ea eb n p i k.
Proof. intros [_ H] i k Hi Hk. by apply H. Qed.

End Accumulate.

(** ** The result object of a multiplication *)

(** [Matrix ret(m, p)] next to the operands: the new object, its zeroed
    array (if any), and the operands as they were. *)
Lemma result_object s a b m n p ea eb :
  is_matrix s a m n ea → is_matrix s b n p eb →
  sizeof_double * (m * p) < modulus →
  ∃ st d,
    Matrix_new m p s
    = Ok (fresh (dom (objs s)))
         (set_contents st d (replicate (Z.to_nat (m * p)) 0%float)) ∧
    is_matrix st a m n ea ∧ is_matrix st b n p eb ∧
    objs st !! fresh (dom (objs s)) = Some (mkMatrix m p d) ∧
    match d with
    | Some ac =>
        (∀ mo, objs st !! a = Some mo → data mo ≠ Some ac) ∧
        (∀ mo, objs st !! b = Some mo → data mo ≠ Some ac)
    | None => m * p = 0
    end ∧
    (is_Some d → m * p ≠ 0).
Proof.
  intros Ha Hb Hsz.
  destruct (is_matrix_sizeof _ _ _ _ _ Ha) as (Rm & _ & _ & _).
  destruct (is_matrix_sizeof _ _ _ _ _ Hb) as (_ & Rp & _ & _).
  assert (0 <= m * p < modulus) as Hmp
    by (unfold in_range, sizeof_double in *; nia).
  set (o := fresh (dom (objs s))).
  assert (objs s !! o = None) as Hfresh by apply fresh_obj_None.
  set (s0 := born s (mkMatrix m p None)).
  assert (∀ x r c els, is_matrix s x r c els → is_matrix s0 x r c els) as Hkeep.
  { intros x r c els Hx. apply (is_matrix_transfer s s0 x x); [exact Hx | | done].
    unfold s0, born. cbn. fold o. rewrite lookup_insert_ne; [done|].
    intros <-. apply is_matrix_elim in Hx as (? & ? & _). congruence. }
  assert (Matrix_new m p s = Ok o (reset_result s0 o m p None)) as E.
  { apply Matrix_new_eq. by rewrite wmul_small. }
  destruct (reset_result_None s0 o m p) as [[Hz E1]|[Hnz E1]];
    rewrite wmul_small in * by exact Hmp; rewrite E1 in E; clear E1.
  - eexists _, None. split; [exact E|]. cbn [objs bufs].
    assert (∀ x r c els, is_matrix s x r c els →
              is_matrix (mkState (<[o := mkMatrix m p None]> (objs s0)) (bufs s0))
                x r c els) as Hkeep'.
    { intros x r c els Hx. apply (is_matrix_transfer s0 _ x x); [by apply Hkeep | | done].
      cbn. rewrite lookup_insert_ne; [done|].
      intros <-. apply is_matrix_elim in Hx as (? & ? & _). congruence. }
    split; [by apply Hkeep'|]. split; [by apply Hkeep'|].
    split; [apply lookup_insert_eq|]. split; [exact Hz|].
    intros [? [=]].
  - set (ac := fresh (dom (bufs s0))) in *.
    assert (bufs s0 !! ac = None) as Hfb by apply fresh_buf_None.
    set (st := mkState (<[o := mkMatrix m p (Some ac)]> (objs s0))
                       (<[ac := replicate (Z.to_nat (m * p)) 0%float]> (bufs s0))) in *.
    assert (∀ x r c els, is_matrix s x r c els → is_matrix st x r c els) as Hkeep'.
    { intros x r c els Hx. apply (is_matrix_transfer s0 _ x x); [by apply Hkeep | |].
      - cbn. rewrite lookup_insert_ne; [done|].
        intros <-. apply is_matrix_elim in Hx as (? & ? & _). congruence.
      - intros a' b' Hab. cbn. rewrite lookup_insert_ne; [done|]. congruence. }
    assert (∀ x r c els mo, is_matrix s x r c els → objs st !! x = Some mo →
              data mo ≠ Some ac) as Hsep.
    { intros x r c els mo Hx Ex Hd.
      pose proof Hx as (mo' & Ex' & _ & _ & _ & _ & _ & _ & Hd')%is_matrix_elim.
      assert (x ≠ o) as Hxo by (intros ->; congruence).
      assert (objs st !! x = objs s !! x) as Eq.
      { unfold st, s0, born. cbn. fold o. by rewrite !lookup_insert_ne. }
      assert (mo' = mo) as -> by congruence.
      rewrite Hd in Hd'. destruct Hd' as [_ Hb'].
      unfold s0, born in Hfb. cbn in Hfb. congruence. }
    exists st, (Some ac). split.
    { rewrite E. f_equal. cbn. symmetry. apply with_buf_same, lookup_insert_eq. }
    split; [by apply Hkeep'|]. split; [by apply Hkeep'|].
    split; [apply lookup_insert_eq|]. split; [|done].
    split; intros mo; [by apply (Hsep a m n ea) | by apply (Hsep b n p eb)].
Qed.

Lemma result_matrix st o m p d buf :
  objs st !! o = Some (mkMatrix m p d) →
  in_range m → in_range p → sizeof_double * (m * p) < modulus →
  Z.of_nat (length buf) = m * p →
  match d with Some _ => m * p ≠ 0 | None => m * p = 0 end →
  is_matrix (set_contents st d buf) o m p buf.
Proof.
  intros Ho Rm Rp Hsz Hlen Hd.
  apply (is_matrix_intro _ _ (mkMatrix m p d)); try assumption; try reflexivity.
  - by destruct d.
  - unfold is_vector, vec_size. by rewrite Hlen.
  - cbn [data]. destruct d as [ac|].
    + split; [|cbn; apply lookup_insert_eq].
      intros ->. cbn in Hlen. lia.
    + apply length_zero_iff_nil. lia.
Qed.

(** ** Naive multiplication *)

Lemma multiplied_result s a b o m n p ea eb s' :
  multiplied s a b o m n p ea eb s' →
  in_range m → in_range p → sizeof_double * (m * p) < modulus →
  objs s !! o = None ∧ is_matrix s' a m n ea ∧ is_matrix s' b n p eb ∧
  ∃ ec, is_matrix s' o m p ec ∧
        ∀ i k, 0 <= i < m → 0 <= k < p →
               ec !!! offset p i k = dot ea eb n p i k.
Proof.
  intros (st & d & buf & -> & Hfresh & Ha & Hb & Ho & Hd & Hdone) Rm Rp Hsz.
  split; [exact Hfresh|]. split; [|split].
  - apply is_matrix_set_contents; [exact Ha|].
    intros mo ac Eo ->. destruct Hd as (H1 & _ & _). by apply H1.
  - apply is_matrix_set_contents; [exact Hb|].
    intros mo ac Eo ->. destruct Hd as (_ & H2 & _). by apply H2.
  - exists buf. split.
    + apply result_matrix; try assumption; [apply Hdone|].
      destruct d; [apply Hd | exact Hd].
    + by apply (progress_complete m n p ea eb).
Qed.

Lemma multiply_naive_run s a b m n p ea eb :
  is_matrix s a m n ea → is_matrix s b n p eb →
  sizeof_double * (m * p) < modulus →
  ∃ s', multiply_naive a b s = Ok (fresh (dom (objs s))) s' ∧
        multiplied s a b (fresh (dom (objs s))) m n p ea eb s'.
Proof.
  intros Ha Hb Hsz.
  destruct (is_matrix_sizeof _ _ _ _ _ Ha) as (Rm & _ & _ & _).
  destruct (is_matrix_sizeof _ _ _ _ _ Hb) as (_ & Rp & _ & _).
  assert (0 <= m * p < modulus) as Hmp
    by (unfold in_range, sizeof_double in *; nia).
  pose proof Ha as (ma & Ea & Hra & Hca & _)%is_matrix_elim.
  pose proof Hb as (mb & Eb & Hrb & Hcb & _)%is_matrix_elim.
  destruct (result_object s a b m n p ea eb Ha Hb Hsz)
    as (st & d & Enew & Ha' & Hb' & Ho & Hd & Hnz).
  set (o := fresh (dom (objs s))) in *.
  assert (progress m n p ea eb (replicate (Z.to_nat (m * p)) 0%float)
            (naive_progress n p 0 0)) as H0.
  { eapply progress_ext; [apply progress_zeros; lia|].
    intros i k Hi Hk. pose proof (offset_in_range m p i k Hi Hk).
    unfold naive_progress. repeat case_decide; lia. }
  pose proof (naive_all_spec st a b o m n p ea eb d Ha' Hb' Ho Rm Rp
                ltac:(lia) Hd _ H0) as Hloops.
  apply returns_elim in Hloops as ([] & s' & Eloops & buf' & -> & Hdone).
  exists (set_contents st d buf'). split.
  - unfold multiply_naive.
    rewrite (bind_ok _ _ _ _ _ (get_obj_ok _ _ _ Ea)).
    rewrite (bind_ok _ _ _ _ _ (get_obj_ok _ _ _ Eb)).
    rewrite decide_False by (intros H; apply H; congruence).
    rewrite Hra, Hcb, Hca. rewrite (bind_ok _ _ _ _ _ Enew).
    unfold naive_cell, cur in Eloops. rewrite (bind_ok _ _ _ _ _ Eloops).
    reflexivity.
  - exists st, d, buf'. split; [reflexivity|]. split; [apply fresh_obj_None|].
    split; [exact Ha'|]. split; [exact Hb'|]. split; [exact Ho|].
    split; [|exact Hdone].
    destruct d as [ac|]; [|exact Hd]. destruct Hd as [H1 H2].
    split; [exact H1|]. split; [exact H2|]. apply Hnz. eauto.
Qed.

(** C2, as the code has it: for an [m] by [n] matrix [a] and an [n] by [p]
    matrix [b] whose product's buffer size [8 * m * p] is representable,
    [multiply_naive] returns a new [m] by [p] matrix whose element [(i, k)]
    is the sum of [a(i,j) * b(j,k)] for [j] from [0] to [n - 1],
    accumulated in that order from zero; the operands are unchanged. *)
Theorem multiply_naive_spec s a b m n p ea eb :
  is_matrix s a m n ea → is_matrix s b n p eb →
  sizeof_double * (m * p) < modulus →
  returns (multiply_naive a b) s (λ c s',
    objs s !! c = None ∧ is_matrix s' a m n ea ∧ is_matrix s' b n p eb ∧
    ∃ ec, is_matrix s' c m p ec ∧
          ∀ i k, 0 <= i < m → 0 <= k < p →
                 ec !!! offset p i k = dot ea eb n p i k).
Proof.
  intros Ha Hb Hsz.
  destruct (is_matrix_sizeof _ _ _ _ _ Ha) as (Rm & _ & _ & _).
  destruct (is_matrix_sizeof _ _ _ _ _ Hb) as (_ & Rp & _ & _).
  destruct (multiply_naive_run s a b m n p ea eb Ha Hb Hsz) as (s' & E & Hs').
  apply (returns_intro _ _ _ _ _ E).
  by apply (multiplied_result s a b _ m n p ea eb).
Qed.

Lemma worked_example_1 :
  is_matrix worked_example 1%positive 2 3 [1; 2; 3; 4; 5; 6]%float.
Proof. matrix_solve. Defined.

Lemma worked_example_2 :
  is_matrix worked_example 2%positive 3 2 [7; 8; 9; 10; 11; 12]%float.
Proof. matrix_solve. Defined.

Lemma four_cells (l : list float) :
  length l = 4%nat → l = [l !!! 0%nat; l !!! 1%nat; l !!! 2%nat; l !!! 3%nat].
Proof.
  intros H. do 4 (destruct l as [|? l]; [discriminate H|]).
  destruct l; [reflexivity | discriminate H].
Defined.

(** The worked example: [[1,2,3],[4,5,6]] times [[7,8],[9,10],[11,12]] is
    [[58,64],[139,154]]. *)
Lemma multiply_naive_spec_witness :
  ∃ c s', multiply_naive 1%positive 2%positive worked_example = Ok c s' ∧
          is_matrix s' c 2 2 [58; 64; 139; 154]%float.
Proof.
  destruct (returns_elim _ _ _
              (multiply_naive_spec worked_example 1%positive 2%positive 2 3 2
                 [1; 2; 3; 4; 5; 6]%float [7; 8; 9; 10; 11; 12]%float
                 worked_example_1 worked_example_2 ltac:(size_t_solve)))
    as (c & s' & E & _ & _ & _ & ec & Hc & Hcells).
  exists c, s'. split; [exact E|].
  assert (ec = [58; 64; 139; 154]%float) as <-; [|exact Hc].
  pose proof Hc as (_ & _ & _ & _ & _ & _ & Hlen & _)%is_matrix_elim.
  rewrite (four_cells ec) by lia.
  assert (ec !!! 0%nat = 58%float) as ->
    by exact (Hcells 0 0 ltac:(lia) ltac:(lia)).
  assert (ec !!! 1%nat = 64%float) as ->
    by exact (Hcells 0 1 ltac:(lia) ltac:(lia)).
  assert (ec !!! 2%nat = 139%float) as ->
    by exact (Hcells 1 0 ltac:(lia) ltac:(lia)).
  assert (ec !!! 3%nat = 154%float) as ->
    by exact (Hcells 1 1 ltac:(lia) ltac:(lia)).
  reflexivity.
Defined.

(** The same product, by running the code *)
Example multiply_naive_worked_example :
  (c ← multiply_naive 1%positive 2%positive; to_vector c) worked_example
  = match multiply_naive 1%positive 2%positive worked_example with
    | Ok _ s' => Ok [58; 64; 139; 154]%float s'
    | _ => Undefined
    end.
Proof. vm_compute. reflexivity. Qed.

Lemma for_range_idle {L} lo hi (body : Z → L → M L) l s :
  (∀ i, lo <= i < hi → body i l s = Ok l s) →
  for_range lo hi body l s = Ok l s.
Proof.
  intros H. unfold for_range.
  remember (Z.to_nat (hi - lo)) as k eqn:Ek. revert lo H Ek.
  induction k as [|k IH]; intros lo H Ek; [reflexivity|].
  cbn [for_count]. rewrite (bind_ok _ _ _ _ _ (H lo ltac:(lia))).
  apply IH; [|lia]. intros i Hi. apply H. lia.
Qed.

(** C2 as stated fails when the element count of the product wraps: the
    product of a [2^32] by [0] and a [0] by [2^32] matrix is returned with
    the shape [2^32] by [2^32] but without any element ([2^64] wraps to
    [0], so no array is made); its element [(0, 0)], an empty sum, cannot
    be read. *)
Lemma multiply_naive_wraps :
  is_matrix wide_empty 1%positive (2 ^ 32) 0 [] ∧
  is_matrix wide_empty 2%positive 0 (2 ^ 32) [] ∧
  ∃ c s', multiply_naive 1%positive 2%positive wide_empty = Ok c s' ∧
          objs s' !! c = Some (mkMatrix (2 ^ 32) (2 ^ 32) None) ∧
          elem_get c 0 0 s' = Undefined.
Proof.
  split; [matrix_solve|]. split; [matrix_solve|].
  assert (objs wide_empty !! 1%positive = Some (mkMatrix (2 ^ 32) 0 None)) as E1
    by reflexivity.
  assert (objs wide_empty !! 2%positive = Some (mkMatrix 0 (2 ^ 32) None)) as E2
    by reflexivity.
  assert (wmul (2 ^ 32) (2 ^ 32) = 0) as Hw by reflexivity.
  eexists _, _. split; [|split].
  - unfold multiply_naive.
    rewrite (bind_ok _ _ _ _ _ (get_obj_ok _ _ _ E1)).
    rewrite (bind_ok _ _ _ _ _ (get_obj_ok _ _ _ E2)).
    cbn [nrow ncol]. rewrite decide_False by (intros H; by apply H).
    rewrite bind_unfold, Matrix_new_eq by (rewrite Hw; reflexivity).
    destruct (reset_result_None (born wide_empty (mkMatrix (2 ^ 32) (2 ^ 32) None))
                (fresh (dom (objs wide_empty))) (2 ^ 32) (2 ^ 32))
      as [[_ ->]|[Hnz _]]; [|contradiction].
    rewrite bind_unfold, for_range_idle; [reflexivity|].
    intros i _. apply for_range_idle. intros k _. reflexivity.
  - cbn. apply lookup_insert_eq.
  - unfold elem_get. erewrite bind_ok by (apply get_obj_ok; cbn; apply lookup_insert_eq).
    reflexivity.
Qed.

(** ** Tiled multiplication *)

Lemma size_min_eq x y : size_min x y = Z.min x y.
Proof. unfold size_min. case_decide; lia. Qed.

Lemma tiles_fit_step extent tile y :
  tiles_fit extent tile → 0 < tile → 0 <= y < extent → y `mod` tile = 0 →
  y + tile < modulus.
Proof.
  intros [->|Hfit] Ht Hy Hmod; [lia|].
  assert (y = tile * (y `div` tile)) as Ey
    by (pose proof (Z.div_mod y tile ltac:(lia)); lia).
  assert (y `div` tile <= (extent - 1) `div` tile)
    by (apply Z.div_le_mono; lia).
  nia.
Qed.

(** The rule for a strided loop whose counter does not wrap: the invariant
    holds for the multiples of the stride the counter goes through, and at
    exit for some value of the counter that is not below the bound. *)
Lemma returns_for_step fuel x hi step (body : Z → M unit) s
    (Inv : Z → state → Prop) :
  0 < step → 0 <= x →
  Inv x s →
  (∀ y s, x <= y < hi → Inv y s →
          y + step < modulus ∧ returns (body y) s (λ _, Inv (y + step))) →
  (Z.to_nat (hi - x) < fuel)%nat →
  returns (for_step fuel x hi step body) s (λ _ s', ∃ y, hi <= y ∧ Inv y s').
Proof.
  intros Hstep. revert x s.
  induction fuel as [|fuel IH]; intros x s Hx H0 Hbody Hfuel; [lia|].
  cbn [for_step]. destruct (decide (x < hi)) as [Hlt|Hge].
  - destruct (Hbody x s ltac:(lia) H0) as [Hfit Hb].
    apply returns_bind. eapply returns_mono; [exact Hb|].
    cbn beta. intros _ s1 H1. rewrite wadd_small by lia.
    apply IH; [lia | exact H1 | | lia].
    intros y s2 Hy. apply Hbody. lia.
  - exists x. split; [lia | exact H0].
Qed.

Section Tiled.

(** The operands [a] ([m] by [n]) and [b] ([n] by [n], square) and the
    result object [o] ([m] by [n]) with its buffer pointer [d] *)
Variables (st : state) (a b o : loc) (m n : Z) (ea eb : list float).
Variable d : option loc.
Variables (tile_size : Z) (fuel : nat).
Hypothesis Ha : is_matrix st a m n ea.
Hypothesis Hb : is_matrix st b n n eb.
Hypothesis Ho : objs st !! o = Some (mkMatrix m n d).
Hypothesis Hmn : m * n < modulus.
Hypothesis Hd :
  match d with
  | Some ac =>
      (∀ mo, objs st !! a = Some mo → data mo ≠ Some ac) ∧
      (∀ mo, objs st !! b = Some mo → data mo ≠ Some ac)
  | None => m * n = 0
  end.
Hypothesis Htile : 1 <= tile_size.
Hypothesis Hfit_m : tiles_fit m tile_size.
Hypothesis Hfit_n : tiles_fit n tile_size.
Hypothesis Hfuel : (Z.to_nat (Z.max m n) < fuel)%nat.

Lemma Rn' : in_range n.
Proof. by destruct (is_matrix_sizeof _ _ _ _ _ Ha) as (_ & ? & _). Qed.

Lemma holds_ext K K' s' :
  holds st m n ea eb d K s' →
  (∀ i j, 0 <= i < m → 0 <= j < n → K' i j = K i j) →
  holds st m n ea eb d K' s'.
Proof.
  intros (buf & -> & H) E. exists buf. split; [reflexivity|].
  by apply (progress_ext m n n ea eb buf K).
Qed.

Ltac region_cases :=
  intros; cbn beta; unfold region_set; repeat case_decide; lia.

Lemma tile_sweep_spec K i k j1 j2 s1 :
  0 <= i < m → 0 <= k < n → 0 <= j1 <= j2 → j2 <= n →
  holds st m n ea eb d K s1 →
  (∀ j, j1 <= j < j2 → K i j = k) →
  returns (tile_sweep b o i k (ea !!! offset n i k) j1 j2) s1
    (λ _, holds st m n ea eb d (region_set K i (i + 1) j1 j2 (k + 1))).
Proof.
  intros Hi Hk Hj1 Hj2 H0 HK.
  apply (returns_for_range j1 j2 _ tt s1
           (λ j _, holds st m n ea eb d (region_set K i (i + 1) j1 j (k + 1)))); [lia | |].
  - apply (holds_ext K); [exact H0|]. region_cases.
  - intros j [] s2 Hj (buf & -> & H2).
    pose proof H2 as [Hlen _]. unfold returns.
    rewrite (bind_unfold _ _ (cur st d buf)),
      (read_b st a b m n n eb d Hb Hd k j buf) by lia.
    rewrite (bind_unfold _ _ (cur st d buf)),
      (read_o st a b o m n d Ho Hmn Hd i j buf) by (assumption || lia).
    rewrite (write_o st a b o m n d Ho Hmn Hd i j _ buf) by (assumption || lia).
    eexists. split; [reflexivity|].
    eapply progress_ext.
    + apply (progress_step m n n ea eb buf _ i j k H2); try lia.
      unfold region_set. rewrite decide_False by lia. apply HK. lia.
    + region_cases.
Qed.

Lemma tile_row_spec K i k1 k2 j1 j2 s1 :
  0 <= i < m → 0 <= k1 <= k2 → k2 <= n → 0 <= j1 <= j2 → j2 <= n →
  holds st m n ea eb d K s1 →
  (∀ j, j1 <= j < j2 → K i j = k1) →
  returns (tile_row a b o i k1 k2 j1 j2) s1
    (λ _, holds st m n ea eb d (region_set K i (i + 1) j1 j2 k2)).
Proof.
  intros Hi Hk1 Hk2 Hj1 Hj2 H0 HK.
  apply (returns_for_range k1 k2 _ tt s1
           (λ k _, holds st m n ea eb d (region_set K i (i + 1) j1 j2 k))); [lia | |].
  - apply (holds_ext K); [exact H0|].
    intros i' j' Hi' Hj'. unfold region_set. case_decide; [|reflexivity].
    destruct (decide (i' = i)) as [->|]; [|lia]. symmetry. apply HK. lia.
  - intros k [] s2 Hk (buf & -> & H2).
    apply returns_bind.
    apply (returns_intro _ _ _ _ _
             (read_a st a b m n n ea d Ha Hd i k buf Hi ltac:(lia))).
    eapply returns_mono.
    + apply (tile_sweep_spec (region_set K i (i + 1) j1 j2 k) i k j1 j2);
        try lia; [by exists buf|].
      intros j Hj. unfold region_set. rewrite decide_True by lia. reflexivity.
    + cbn beta. intros _ s3 H3. apply (holds_ext _ _ _ H3). region_cases.
Qed.

Lemma tile_block_spec K i1 i2 k1 k2 j1 j2 s1 :
  0 <= i1 <= i2 → i2 <= m → 0 <= k1 <= k2 → k2 <= n → 0 <= j1 <= j2 → j2 <= n →
  holds st m n ea eb d K s1 →
  (∀ i j, i1 <= i < i2 → j1 <= j < j2 → K i j = k1) →
  returns (tile_block a b o i1 i2 k1 k2 j1 j2) s1
    (λ _, holds st m n ea eb d (region_set K i1 i2 j1 j2 k2)).
Proof.
  intros Hi1 Hi2 Hk1 Hk2 Hj1 Hj2 H0 HK.
  apply (returns_for_range i1 i2 _ tt s1
           (λ i _, holds st m n ea eb d (region_set K i1 i j1 j2 k2))); [lia | |].
  - apply (holds_ext K); [exact H0|]. region_cases.
  - intros i [] s2 Hi H2.
    eapply returns_mono.
    + apply (tile_row_spec (region_set K i1 i j1 j2 k2) i k1 k2 j1 j2);
        try lia; [exact H2|].
      intros j Hj. unfold region_set. rewrite decide_False by lia.
      apply HK; lia.
    + cbn beta. intros _ s3 H3. apply (holds_ext _ _ _ H3). region_cases.
Qed.

Lemma tile_end_eq x extent :
  tiles_fit extent tile_size → 0 <= x < extent → x `mod` tile_size = 0 →
  size_min (wadd x tile_size) extent = Z.min (x + tile_size) extent ∧
  x + tile_size < modulus.
Proof.
  intros Hfit Hx Hmod.
  pose proof (tiles_fit_step extent tile_size x Hfit ltac:(lia) Hx Hmod).
  rewrite wadd_small by lia. split; [apply size_min_eq | assumption].
Qed.

Lemma next_tile_mod x : x `mod` tile_size = 0 → (x + tile_size) `mod` tile_size = 0.
Proof.
  intros H. rewrite <- (Z.mul_1_l tile_size) at 1.
  rewrite Z_mod_plus_full. exact H.
Qed.

Lemma tile_j_loop_spec K i1 i2 k1 k2 s1 :
  0 <= i1 <= i2 → i2 <= m → 0 <= k1 <= k2 → k2 <= n →
  holds st m n ea eb d K s1 →
  (∀ i j, i1 <= i < i2 → 0 <= j < n → K i j = k1) →
  returns (tile_j_loop a b o n tile_size fuel i1 i2 k1 k2) s1 (λ _, holds st m n ea eb d (region_set K i1 i2 0 n k2)).
Proof.
  intros Hi1 Hi2 Hk1 Hk2 H0 HK. eapply returns_mono.
  - apply (returns_for_step fuel 0 n tile_size _ s1
             (λ y s', y `mod` tile_size = 0 ∧
                      holds st m n ea eb d (region_set K i1 i2 0 (Z.min y n) k2) s'));
      [lia | lia | | | lia].
    + split; [apply Z.mod_0_l; lia|]. apply (holds_ext K); [exact H0|]. region_cases.
    + intros y s2 Hy [Hmod H2].
      destruct (tile_end_eq y n Hfit_n Hy Hmod) as [-> Hlt]. split; [exact Hlt|].
      eapply returns_mono.
      * apply (tile_block_spec (region_set K i1 i2 0 (Z.min y n) k2)
                 i1 i2 k1 k2 y (Z.min (y + tile_size) n)); try lia; [exact H2|].
        intros i j Hi Hj. unfold region_set. rewrite decide_False by lia.
        apply HK; lia.
      * cbn beta. intros _ s3 H3. split; [by apply next_tile_mod|].
        apply (holds_ext _ _ _ H3). region_cases.
  - cbn beta. intros _ s' (y & Hy & _ & H'). apply (holds_ext _ _ _ H'). region_cases.
Qed.

Lemma tile_k_loop_spec K i1 i2 s1 :
  0 <= i1 <= i2 → i2 <= m →
  holds st m n ea eb d K s1 →
  (∀ i j, i1 <= i < i2 → 0 <= j < n → K i j = 0) →
  returns (tile_k_loop a b o n tile_size fuel i1 i2) s1 (λ _, holds st m n ea eb d (region_set K i1 i2 0 n n)).
Proof.
  intros Hi1 Hi2 H0 HK. eapply returns_mono.
  - apply (returns_for_step fuel 0 n tile_size _ s1
             (λ y s', y `mod` tile_size = 0 ∧
                      holds st m n ea eb d (region_set K i1 i2 0 n (Z.min y n)) s'));
      [lia | lia | | | lia].
    + split; [apply Z.mod_0_l; lia|]. apply (holds_ext K); [exact H0|].
      intros i j Hi Hj. unfold region_set. case_decide; [|reflexivity].
      rewrite HK by lia. pose proof Rn' as [? _]. lia.
    + intros y s2 Hy [Hmod H2].
      destruct (tile_end_eq y n Hfit_n Hy Hmod) as [-> Hlt]. split; [exact Hlt|].
      eapply returns_mono.
      * apply (tile_j_loop_spec (region_set K i1 i2 0 n (Z.min y n))
                 i1 i2 y (Z.min (y + tile_size) n)); try lia; [exact H2|].
        intros i j Hi Hj. unfold region_set. rewrite decide_True by lia. lia.
      * cbn beta. intros _ s3 H3. split; [by apply next_tile_mod|].
        apply (holds_ext _ _ _ H3). region_cases.
  - cbn beta. intros _ s' (y & Hy & _ & H'). apply (holds_ext _ _ _ H'). region_cases.
Qed.

Lemma tile_loops_spec s1 :
  holds st m n ea eb d (λ _ _, 0) s1 →
  returns (tile_loops a b o m n tile_size fuel) s1
    (λ _, holds st m n ea eb d (λ _ _, n)).
Proof.
  intros H0. eapply returns_mono.
  - apply (returns_for_step fuel 0 m tile_size _ s1
             (λ y s', y `mod` tile_size = 0 ∧
                      holds st m n ea eb d (region_set (λ _ _, 0) 0 (Z.min y m) 0 n n) s'));
      [lia | lia | | | lia].
    + split; [apply Z.mod_0_l; lia|]. apply (holds_ext _ _ _ H0). region_cases.
    + intros y s2 Hy [Hmod H2].
      destruct (tile_end_eq y m Hfit_m Hy Hmod) as [-> Hlt]. split; [exact Hlt|].
      eapply returns_mono.
      * apply (tile_k_loop_spec (region_set (λ _ _, 0) 0 (Z.min y m) 0 n n)
                 y (Z.min (y + tile_size) m)); try lia; [exact H2|].
        intros i j Hi Hj. unfold region_set. rewrite decide_False by lia.
        reflexivity.
      * cbn beta. intros _ s3 H3. split; [by apply next_tile_mod|].
        apply (holds_ext _ _ _ H3). region_cases.
  - cbn beta. intros _ s' (y & Hy & _ & H'). apply (holds_ext _ _ _ H'). region_cases.
Qed.

End Tiled.

Lemma multiply_tile_run s a b m n ea eb tile_size fuel :
  is_matrix s a m n ea → is_matrix s b n n eb →
  1 <= tile_size → tiles_fit m tile_size → tiles_fit n tile_size →
  (Z.to_nat (Z.max m n) < fuel)%nat →
  ∃ s', multiply_tile fuel a b tile_size s = Ok (fresh (dom (objs s))) s' ∧
        multiplied s a b (fresh (dom (objs s))) m n n ea eb s'.
Proof.
  intros Ha Hb Htile Hfm Hfn Hfuel.
  destruct (is_matrix_sizeof _ _ _ _ _ Ha) as (Rm & Rn & Hpos & Hsz).
  assert (0 <= m * n < modulus) as Hmn by (unfold sizeof_double in *; lia).
  pose proof Ha as (ma & Ea & Hra & Hca & _)%is_matrix_elim.
  pose proof Hb as (mb & Eb & Hrb & Hcb & _)%is_matrix_elim.
  destruct (result_object s a b m n n ea eb Ha Hb Hsz)
    as (st & d & Enew & Ha' & Hb' & Ho & Hd & Hnz).
  set (o := fresh (dom (objs s))) in *.
  assert (holds st m n ea eb d (λ _ _, 0)
            (set_contents st d (replicate (Z.to_nat (m * n)) 0%float))) as H0.
  { eexists. split; [reflexivity|]. apply progress_zeros. lia. }
  pose proof (tile_loops_spec st a b o m n ea eb d tile_size fuel
                Ha' Hb' Ho ltac:(lia) Hd Htile Hfm Hfn Hfuel _ H0) as Hloops.
  apply returns_elim in Hloops as ([] & s' & Eloops & buf' & -> & Hdone).
  exists (set_contents st d buf'). split.
  - unfold multiply_tile.
    rewrite (bind_ok _ _ _ _ _ (get_obj_ok _ _ _ Ea)).
    rewrite (bind_ok _ _ _ _ _ (get_obj_ok _ _ _ Eb)).
    rewrite decide_False by (intros H; apply H; congruence).
    cbv zeta. rewrite Hra, Hcb, Hca. rewrite (bind_ok _ _ _ _ _ Enew).
    unfold tile_loops, tile_k_loop, tile_j_loop, tile_block, tile_row, tile_sweep,
      cur in Eloops.
    rewrite (bind_ok _ _ _ _ _ Eloops). reflexivity.
  - exists st, d, buf'. split; [reflexivity|]. split; [apply fresh_obj_None|].
    split; [exact Ha'|]. split; [exact Hb'|]. split; [exact Ho|].
    split; [|exact Hdone].
    destruct d as [ac|]; [|exact Hd]. destruct Hd as [H1 H2].
    split; [exact H1|]. split; [exact H2|]. apply Hnz. eauto.
Qed.

(** ** Termination of the tiled loops *)

Lemma finishes_bind {A B} (m : M A) (k : A → M B) s :
  finishes m s → (∀ a s', m s = Ok a s' → finishes (k a) s') →
  finishes (m ≫= k) s.
Proof.
  unfold finishes. rewrite bind_unfold. intros Hm Hk.
  destruct (m s) as [a s'| | |] eqn:E; try done. by apply Hk.
Qed.

Lemma finishes_for_range {L} lo hi (body : Z → L → M L) l s :
  (∀ i l s, finishes (body i l) s) → finishes (for_range lo hi body l) s.
Proof.
  intros Hbody. unfold for_range.
  generalize (Z.to_nat (hi - lo)) as k. intros k. revert lo l s.
  induction k as [|k IH]; intros lo l s; [done|].
  cbn [for_count]. apply finishes_bind; [apply Hbody|]. intros l' s' _. apply IH.
Qed.

(** A strided loop whose counter does not wrap ends within [hi - x]
    iterations. *)
Lemma finishes_for_step fuel x hi step (body : Z → M unit) s :
  0 < step → 0 <= x → x `mod` step = 0 → tiles_fit hi step →
  (∀ y s, finishes (body y) s) →
  (Z.to_nat (hi - x) < fuel)%nat →
  finishes (for_step fuel x hi step body) s.
Proof.
  intros Hstep. revert x s.
  induction fuel as [|fuel IH]; intros x s Hx Hmod Hfit Hbody Hfuel; [lia|].
  cbn [for_step]. case_decide; [|done].
  pose proof (tiles_fit_step hi step x Hfit Hstep ltac:(lia) Hmod) as Hlt.
  apply finishes_bind; [apply Hbody|]. intros _ s' _.
  rewrite wadd_small by lia. apply IH; try assumption; try lia.
  rewrite <- (Z.mul_1_l step) at 1. by rewrite Z_mod_plus_full.
Qed.

Lemma finishes_elem_get o i j s : finishes (elem_get o i j) s.
Proof.
  unfold finishes, elem_get. rewrite bind_unfold. unfold get_obj, read_elem.
  repeat case_match; congruence.
Qed.

Lemma finishes_elem_set o i j v s : finishes (elem_set o i j v) s.
Proof.
  unfold finishes, elem_set. rewrite bind_unfold. unfold get_obj, write_elem.
  repeat case_match; congruence.
Qed.

Lemma finishes_Matrix_new r c s : finishes (Matrix_new r c) s.
Proof.
  unfold finishes.
  destruct (decide (sizeof_double * wmul r c < modulus)) as [Hsz|Hsz].
  - by rewrite Matrix_new_eq.
  - unfold Matrix_new, construct, alloc_obj.
    set (o := fresh (dom (objs s))). set (s0 := mkState _ _).
    assert (objs s0 !! o = Some (mkMatrix r c None)) as Ho by apply lookup_insert_eq.
    rewrite (bind_ok _ _ _ _ _ (get_obj_ok _ _ _ Ho)). cbn [nrow ncol].
    by rewrite (reset_buffer_throw s0 o _ r c Ho).
Qed.

(** C8, as the code has it: for an [m] by [n] matrix [a], an [n] by [p]
    matrix [b] and a tile size of at least 1 whose tiles fit (no tile
    counter wraps), [multiply_tile] comes to an end on any fuel above
    [max m n p]: each loop over tiles makes at most that many steps.  With
    a square [b] it returns a new [m] by [n] matrix whose element [(i, j)]
    is the sum the naive loop computes, term for term in the same order,
    and the operands are unchanged.  Tile size 1 and tile sizes from the
    largest dimension up to [2^64 - 1] always fit. *)
Theorem multiply_tile_terminates s a b m n p ea eb tile_size fuel :
  is_matrix s a m n ea → is_matrix s b n p eb →
  1 <= tile_size →
  tiles_fit m tile_size → tiles_fit n tile_size → tiles_fit p tile_size →
  (Z.to_nat (Z.max m (Z.max n p)) < fuel)%nat →
  finishes (multiply_tile fuel a b tile_size) s ∧
  (n = p →
   returns (multiply_tile fuel a b tile_size) s (λ c s',
     objs s !! c = None ∧ is_matrix s' a m n ea ∧ is_matrix s' b n p eb ∧
     ∃ ec, is_matrix s' c m p ec ∧
           ∀ i j, 0 <= i < m → 0 <= j < p →
                  ec !!! offset p i j = dot ea eb n p i j)).
Proof.
  intros Ha Hb Htile Hfm Hfn Hfp Hfuel. split.
  - pose proof Ha as (ma & Ea & Hra & Hca & _)%is_matrix_elim.
    pose proof Hb as (mb & Eb & Hrb & Hcb & _)%is_matrix_elim.
    unfold finishes, multiply_tile.
    rewrite (bind_ok _ _ _ _ _ (get_obj_ok _ _ _ Ea)).
    rewrite (bind_ok _ _ _ _ _ (get_obj_ok _ _ _ Eb)).
    rewrite decide_False by (intros H; apply H; congruence).
    cbv zeta. rewrite Hra, Hcb, Hca.
    apply finishes_bind; [apply finishes_Matrix_new|]. intros r s1 _.
    apply finishes_bind; [|done].
    apply finishes_for_step; try done; try lia. intros ti s2.
    apply finishes_for_step; try done; try lia. intros tk s3.
    apply finishes_for_step; try done; try lia. intros tj s4.
    apply finishes_for_range. intros i [] s5.
    apply finishes_for_range. intros k [] s6.
    apply finishes_bind; [apply finishes_elem_get|]. intros tmp s7 _.
    apply finishes_for_range. intros j [] s8.
    apply finishes_bind; [apply finishes_elem_get|]. intros y s9 _.
    apply finishes_bind; [apply finishes_elem_get|]. intros z s10 _.
    apply finishes_elem_set.
  - intros <-.
    destruct (is_matrix_sizeof _ _ _ _ _ Ha) as (Rm & Rn & _ & Hsz).
    destruct (multiply_tile_run s a b m n ea eb tile_size fuel
                Ha Hb Htile Hfm Hfn ltac:(lia)) as (s' & E & Hs').
    apply (returns_intro _ _ _ _ _ E).
    by apply (multiplied_result s a b _ m n n ea eb).
Qed.

Lemma multiply_tile_terminates_witness :
  finishes (multiply_tile 4 1%positive 2%positive 2) square_example ∧
  (3 = 3 →
   returns (multiply_tile 4 1%positive 2%positive 2) square_example (λ c s',
     objs square_example !! c = None ∧
     is_matrix s' 1%positive 2 3 [1; 2; 3; 4; 5; 6]%float ∧
     is_matrix s' 2%positive 3 3 [1; 2; 3; 4; 5; 6; 7; 8; 9]%float ∧
     ∃ ec, is_matrix s' c 2 3 ec ∧
           ∀ i j, 0 <= i < 2 → 0 <= j < 3 →
                  ec !!! offset 3 i j
                  = dot [1; 2; 3; 4; 5; 6]%float
                        [1; 2; 3; 4; 5; 6; 7; 8; 9]%float 3 3 i j)).
Proof.
  apply (multiply_tile_terminates square_example 1%positive 2%positive 2 3 3
           [1; 2; 3; 4; 5; 6]%float [1; 2; 3; 4; 5; 6; 7; 8; 9]%float 2 4).
  - matrix_solve.
  - matrix_solve.
  - lia.
  - right. vm_compute. reflexivity.
  - right. vm_compute. reflexivity.
  - right. vm_compute. reflexivity.
  - vm_compute. lia.
Defined.

(** The degenerate tilings always fit. *)
Lemma tiles_fit_one extent : in_range extent → tiles_fit extent 1.
Proof.
  intros [H0 H1]. destruct (decide (extent = 0)) as [->|Hne]; [by left|].
  right. rewrite Z.div_1_r. lia.
Qed.

Lemma tiles_fit_whole extent tile :
  0 <= extent <= tile → tile < modulus → tiles_fit extent tile.
Proof.
  intros He Ht. destruct (decide (extent = 0)) as [->|Hne]; [by left|].
  right. rewrite Z.div_small by lia. lia.
Qed.

Lemma for_step_wraps_forever fuel x (body : Z → M unit) s :
  (∀ y, body y s = Ok tt s) →
  x `mod` 2 = 0 → 0 <= x < modulus →
  for_step fuel x (2 ^ 64 - 1) 2 body s = OutOfFuel.
Proof.
  intros Hbody. revert x. induction fuel as [|fuel IH]; intros x Hx Rx;
    [reflexivity|].
  cbn [for_step]. rewrite modulus_eq in Rx.
  pose proof (Z.div_mod x 2 ltac:(lia)) as Hdiv.
  rewrite decide_True by (change (2 ^ 64 - 1) with 18446744073709551615; lia).
  rewrite (bind_ok _ _ _ _ _ (Hbody x)). apply IH.
  - unfold wadd, wrap.
    rewrite Z.mod_mod_divide by (by exists 9223372036854775808).
    rewrite <- Z.add_mod_idemp_l, Hx by lia. reflexivity.
  - apply wrap_range.
Qed.

(** C8 as stated fails when a tile counter wraps: with [2^64 - 1] rows and
    tile size 2 the counter goes from [2^64 - 2] back to [0], and the loop
    over the tiles of rows never ends, whatever fuel is given. *)
Lemma multiply_tile_never_returns :
  is_matrix tall_empty 1%positive (2 ^ 64 - 1) 0 [] ∧
  is_matrix tall_empty 2%positive 0 0 [] ∧
  1 <= 2 < modulus ∧
  ∀ fuel, multiply_tile fuel 1%positive 2%positive 2 tall_empty = OutOfFuel.
Proof.
  split; [matrix_solve|]. split; [matrix_solve|]. split; [size_t_solve|].
  intros fuel.
  assert (objs tall_empty !! 1%positive = Some (mkMatrix (2 ^ 64 - 1) 0 None)) as E1
    by reflexivity.
  assert (objs tall_empty !! 2%positive = Some (mkMatrix 0 0 None)) as E2
    by reflexivity.
  assert (wmul (2 ^ 64 - 1) 0 = 0) as Hw by reflexivity.
  unfold multiply_tile.
  rewrite (bind_ok _ _ _ _ _ (get_obj_ok _ _ _ E1)).
  rewrite (bind_ok _ _ _ _ _ (get_obj_ok _ _ _ E2)).
  cbn [nrow ncol]. rewrite decide_False by (intros H; by apply H).
  cbv zeta.
  rewrite bind_unfold, Matrix_new_eq by (rewrite Hw; reflexivity).
  rewrite bind_unfold.
  destruct fuel as [|fuel]; [reflexivity|].
  rewrite for_step_wraps_forever; [reflexivity | | reflexivity | size_t_solve].
  intros y. reflexivity.
Qed.

(** C1, at its failing input: on the 2 by 3 and 3 by 2 operands of the
    worked example the tiled loops take the column index [j] up to
    [mat1.ncol = 3] (and the summation index [k] up to [mat2.ncol = 2]);
    [ret(1, 2)] is then element 4 of the result's 4-element array, a store
    outside it, whatever the tile size.  [multiply_naive] returns
    [[58,64],[139,154]] on the same operands. *)
Theorem multiply_tile_out_of_bounds :
  is_matrix worked_example 1%positive 2 3 [1; 2; 3; 4; 5; 6]%float ∧
  is_matrix worked_example 2%positive 3 2 [7; 8; 9; 10; 11; 12]%float ∧
  multiply_tile 8 1%positive 2%positive 1 worked_example = Undefined ∧
  multiply_tile 8 1%positive 2%positive 2 worked_example = Undefined ∧
  multiply_tile 8 1%positive 2%positive 3 worked_example = Undefined ∧
  multiply_tile 8 1%positive 2%positive 16 worked_example = Undefined.
Proof.
  split; [exact worked_example_1|]. split; [exact worked_example_2|].
  repeat split; vm_compute; reflexivity.
Qed.

(** Two element sequences of an [r] by [c] matrix that agree cell by cell
    are the same sequence. *)
Lemma cells_ext r c (e1 e2 : list float) :
  Z.of_nat (length e1) = r * c → Z.of_nat (length e2) = r * c →
  0 <= r → 0 <= c →
  (∀ i j, 0 <= i < r → 0 <= j < c →
          e1 !!! offset c i j = e2 !!! offset c i j) →
  e1 = e2.
Proof.
  intros H1 H2 Hr Hc Hcells. apply list_eq. intros idx.
  destruct (decide (idx < length e1)%nat) as [Hlt|Hge].
  - assert (0 < c) as Hcpos by nia.
    pose proof (Z.div_mod (Z.of_nat idx) c ltac:(lia)) as Hdm.
    pose proof (Z.mod_pos_bound (Z.of_nat idx) c Hcpos) as Hmod.
    assert (0 <= Z.of_nat idx `div` c < r) as Hdiv.
    { split; [apply Z.div_pos; lia|]. apply Z.div_lt_upper_bound; lia. }
    specialize (Hcells _ _ Hdiv Hmod).
    replace (offset c (Z.of_nat idx `div` c) (Z.of_nat idx `mod` c)) with idx
      in Hcells by (unfold offset; lia).
    rewrite (list_lookup_lookup_total_lt e1 idx) by lia.
    rewrite (list_lookup_lookup_total_lt e2 idx) by lia.
    by rewrite Hcells.
  - rewrite !lookup_ge_None_2 by lia. reflexivity.
Qed.

(** With a square second operand (and tiles that fit), [multiply_tile]
    and [multiply_naive] return the same elements, bit for bit: each cell
    receives its terms in the same order in both. *)
Corollary multiply_tile_agrees_with_naive s a b m n ea eb tile_size fuel :
  is_matrix s a m n ea → is_matrix s b n n eb →
  1 <= tile_size → tiles_fit m tile_size → tiles_fit n tile_size →
  (Z.to_nat (Z.max m n) < fuel)%nat →
  ∃ ec c1 s1 c2 s2,
    multiply_naive a b s = Ok c1 s1 ∧ is_matrix s1 c1 m n ec ∧
    multiply_tile fuel a b tile_size s = Ok c2 s2 ∧ is_matrix s2 c2 m n ec.
Proof.
  intros Ha Hb Htile Hfm Hfn Hfuel.
  destruct (is_matrix_sizeof _ _ _ _ _ Ha) as (Rm & Rn & _ & Hsz).
  destruct (multiply_naive_run s a b m n n ea eb Ha Hb Hsz) as (s1 & E1 & H1).
  destruct (multiply_tile_run s a b m n ea eb tile_size fuel
              Ha Hb Htile Hfm Hfn Hfuel) as (s2 & E2 & H2).
  apply multiplied_result in H1 as (_ & _ & _ & e1 & Hc1 & Hcells1);
    try assumption.
  apply multiplied_result in H2 as (_ & _ & _ & e2 & Hc2 & Hcells2);
    try assumption.
  exists e1, (fresh (dom (objs s))), s1, (fresh (dom (objs s))), s2.
  split; [exact E1|]. split; [exact Hc1|].
  split; [exact E2|].
  assert (e2 = e1) as <-; [|exact Hc2].
  pose proof Hc1 as (_ & _ & _ & _ & _ & _ & Hl1 & _)%is_matrix_elim.
  pose proof Hc2 as (_ & _ & _ & _ & _ & _ & Hl2 & _)%is_matrix_elim.
  apply (cells_ext m n); try assumption; try apply Rm; try apply Rn.
  intros i j Hi Hj. by rewrite Hcells1, Hcells2.
Qed.

(** ** The representation invariant *)

Lemma heap_inv_others s this : heap_inv s → others_ok s this.
Proof. intros [H1 H2]. split; [|exact H2]. intros o M _. apply H1. Qed.

Lemma others_ok_heap_inv s this :
  others_ok s this → (∀ M, objs s !! this = Some M → obj_ok s M) → heap_inv s.
Proof.
  intros [H1 H2] Hthis. split; [|exact H2]. intros o M Ho.
  destruct (decide (o = this)) as [->|Hne]; [by apply Hthis | by apply (H1 o)].
Qed.

Lemma obj_ok_bufs s s' M :
  obj_ok s M →
  (∀ a buf, data M = Some a → bufs s !! a = Some buf →
            ∃ buf', bufs s' !! a = Some buf' ∧ length buf' = length buf) →
  obj_ok s' M.
Proof.
  unfold obj_ok. destruct (data M) as [a|]; [|done].
  intros (Hnz & Hsz & buf & Hb & Hlen) H. split; [exact Hnz|]. split; [exact Hsz|].
  destruct (H a buf eq_refl Hb) as (buf' & Hb' & Hlen').
  exists buf'. split; [exact Hb' | lia].
Qed.

(** Storing into an element keeps every array's length. *)
Lemma heap_inv_with_buf s a buf buf' :
  heap_inv s → bufs s !! a = Some buf → length buf' = length buf →
  heap_inv (with_buf s a buf').
Proof.
  intros [H1 H2] Hb Hlen. split; [|exact H2].
  intros o M Ho. apply (obj_ok_bufs s); [by apply (H1 o)|].
  intros a' b' _ Hb'. cbn. destruct (decide (a' = a)) as [->|Hne].
  - rewrite lookup_insert_eq. exists buf'. split; [reflexivity | congruence].
  - rewrite lookup_insert_ne by done. eauto.
Qed.

(** An object goes away. *)
Lemma others_ok_delete s this :
  others_ok s this → heap_inv (mkState (delete this (objs s)) (bufs s)).
Proof.
  intros [H1 H2]. split.
  - intros o M Ho. cbn in Ho. apply lookup_delete_Some in Ho as [Hne Ho].
    apply (obj_ok_bufs s); [by apply (H1 o) | eauto].
  - intros o1 o2 M1 M2 a Ho1 Ho2. cbn in Ho1, Ho2.
    apply lookup_delete_Some in Ho1 as [_ Ho1].
    apply lookup_delete_Some in Ho2 as [_ Ho2]. by apply H2.
Qed.

(** The array of the object being worked on goes away. *)
Lemma others_ok_drop_buf s this m0 :
  others_ok s this → objs s !! this = Some m0 →
  others_ok (mkState (objs s) (drop_buf (data m0) (bufs s))) this.
Proof.
  intros [H1 H2] Hthis. split; [|exact H2].
  intros o M Hne Ho. cbn in Ho. apply (obj_ok_bufs s); [by apply (H1 o)|].
  intros a buf Ha Hb. exists buf. split; [|reflexivity]. cbn.
  destruct (data m0) as [a0|] eqn:E0; [|exact Hb]. cbn.
  rewrite lookup_delete_ne; [exact Hb|].
  intros <-. apply Hne. by apply (H2 o this M m0 a0).
Qed.

(** The object being worked on gets new members. *)
Lemma others_ok_insert s this M :
  others_ok s this →
  (∀ a, data M = Some a →
        ∀ o M', o ≠ this → objs s !! o = Some M' → data M' ≠ Some a) →
  others_ok (mkState (<[this := M]> (objs s)) (bufs s)) this.
Proof.
  intros [H1 H2] Hfresh. split.
  - intros o M' Hne Ho. cbn in Ho. rewrite lookup_insert_ne in Ho by done.
    apply (obj_ok_bufs s); [by apply (H1 o) | eauto].
  - intros o1 o2 M1 M2 a Ho1 Ho2 Hd1 Hd2. cbn in Ho1, Ho2.
    destruct (decide (o1 = this)) as [->|Hn1];
      destruct (decide (o2 = this)) as [->|Hn2]; [done | | |].
    + rewrite lookup_insert_eq in Ho1. rewrite lookup_insert_ne in Ho2 by done.
      injection Ho1 as <-. by destruct (Hfresh a Hd1 o2 M2).
    + rewrite lookup_insert_eq in Ho2. rewrite lookup_insert_ne in Ho1 by done.
      injection Ho2 as <-. by destruct (Hfresh a Hd2 o1 M1).
    + rewrite lookup_insert_ne in Ho1, Ho2 by done. by apply (H2 o1 o2 M1 M2 a).
Qed.

(** [reset_buffer] leaves the invariant, whatever the object held. *)
Lemma heap_inv_reset s this m0 r c :
  others_ok s this → objs s !! this = Some m0 →
  (wmul r c ≠ 0 → sizeof_double * wmul r c < modulus) →
  heap_inv (reset_result s this r c (data m0)).
Proof.
  intros Hothers Hthis Hsz.
  pose proof (others_ok_drop_buf s this m0 Hothers Hthis) as [H1 H2].
  cbn [objs bufs] in H1, H2.
  set (B := drop_buf (data m0) (bufs s)) in *.
  destruct (reset_result_cases s this r c (data m0)) as [[Hz ->]|[Hnz ->]];
    fold B.
  - apply (others_ok_heap_inv _ this).
    + apply (others_ok_insert (mkState (objs s) B) this); [by split | discriminate].
    + intros M HM. cbn in HM. rewrite lookup_insert_eq in HM. injection HM as <-.
      exact Hz.
  - set (a := fresh (dom B)).
    assert (B !! a = None) as Hfresh by apply fresh_buf_None.
    assert (∀ o M, o ≠ this → objs s !! o = Some M → data M ≠ Some a) as Hnew.
    { intros o M Hne Ho Hd. specialize (H1 o M Hne Ho). unfold obj_ok in H1.
      rewrite Hd in H1. destruct H1 as (_ & _ & buf & Hb & _). cbn in Hb.
      congruence. }
    split.
    + intros o M Ho. cbn in Ho.
      destruct (decide (o = this)) as [->|Hne].
      * rewrite lookup_insert_eq in Ho. injection Ho as <-.
        split; [exact Hnz|]. split; [by apply Hsz|].
        exists (replicate (Z.to_nat (wmul r c)) 0%float). cbn.
        split; [apply lookup_insert_eq|].
        rewrite length_replicate. pose proof (wrap_range (r * c)).
        unfold wmul. lia.
      * rewrite lookup_insert_ne in Ho by done.
        apply (obj_ok_bufs (mkState (objs s) B)); [by apply (H1 o)|].
        intros a' buf Ha' Hb. exists buf. split; [|reflexivity]. cbn in *.
        rewrite lookup_insert_ne; [exact Hb|]. congruence.
    + apply (others_ok_insert (mkState (objs s) B) this (mkMatrix r c (Some a)));
        [by split|].
      intros a' [= <-] o M' Hne Ho. by apply (Hnew o).
Qed.

(** *** Rules for partial correctness *)

Lemma safe_mono {A} (m : M A) s (Q Q' : A → state → Prop) (E E' : state → Prop) :
  safe m s Q E → (∀ a s', Q a s' → Q' a s') → (∀ s', E s' → E' s') →
  safe m s Q' E'.
Proof. unfold safe. destruct (m s); auto. Qed.

Lemma safe_ret {A} (a : A) s (Q : A → state → Prop) E : Q a s → safe (mret a) s Q E.
Proof. intros H. exact H. Qed.

Lemma safe_throw {A} e s (Q : A → state → Prop) (E : state → Prop) :
  E s → safe (throw e) s Q E.
Proof. intros H. exact H. Qed.

Lemma safe_bind {A B} (m : M A) (k : A → M B) s Q E :
  safe m s (λ a s', safe (k a) s' Q E) E → safe (m ≫= k) s Q E.
Proof. unfold safe. rewrite bind_unfold. destruct (m s); auto. Qed.

Lemma safe_get_obj o s (Q : Matrix → state → Prop) E :
  (∀ m, objs s !! o = Some m → Q m s) → safe (get_obj o) s Q E.
Proof. intros H. unfold safe, get_obj. destruct (objs s !! o); auto. Qed.

Lemma safe_for_range {L} lo hi (body : Z → L → M L) l s (Inv E : state → Prop) :
  Inv s →
  (∀ i l s, Inv s → safe (body i l) s (λ _, Inv) E) →
  safe (for_range lo hi body l) s (λ _, Inv) E.
Proof.
  intros H0 Hbody. unfold for_range.
  generalize (Z.to_nat (hi - lo)) as k. intros k. revert lo l s H0.
  induction k as [|k IH]; intros lo l s H0; [exact H0|].
  cbn [for_count]. apply safe_bind.
  eapply safe_mono; [by apply Hbody | | done].
  cbn beta. intros l' s' H'. by apply IH.
Qed.

Lemma safe_for_range_ret {R} lo hi (body : Z → M (option R)) s (Inv E : state → Prop) :
  Inv s →
  (∀ i s, Inv s → safe (body i) s (λ _, Inv) E) →
  safe (for_range_ret lo hi body) s (λ _, Inv) E.
Proof.
  intros H0 Hbody. unfold for_range_ret.
  generalize (Z.to_nat (hi - lo)) as k. intros k. revert lo s H0.
  induction k as [|k IH]; intros lo s H0; [exact H0|].
  cbn [for_count_ret]. apply safe_bind.
  eapply safe_mono; [by apply Hbody | | done].
  cbn beta. intros [r|] s' H'; [exact H' | by apply IH].
Qed.

Lemma safe_for_step fuel x hi step (body : Z → M unit) s (Inv E : state → Prop) :
  Inv s →
  (∀ y s, Inv s → safe (body y) s (λ _, Inv) E) →
  safe (for_step fuel x hi step body) s (λ _, Inv) E.
Proof.
  intros H0 Hbody. revert x s H0.
  induction fuel as [|fuel IH]; intros x s H0; [exact I|].
  cbn [for_step]. case_decide; [|exact H0].
  apply safe_bind. eapply safe_mono; [by apply Hbody | | done].
  cbn beta. intros _ s' H'. by apply IH.
Qed.

Lemma safe_construct init body s (Q : loc → state → Prop) (E : state → Prop) :
  safe (body (fresh (dom (objs s)))) (born s init)
    (λ _ s2, Q (fresh (dom (objs s))) s2)
    (λ s2, E (mkState (delete (fresh (dom (objs s))) (objs s2)) (bufs s2))) →
  safe (construct init body) s Q E.
Proof.
  unfold safe, construct, alloc_obj, born.
  destruct (body _ _); auto.
Qed.

(** *** The members keep the invariant *)

Lemma safe_elem_get o i j s (Q : float → state → Prop) E :
  (∀ x, Q x s) → safe (elem_get o i j) s Q E.
Proof.
  intros H. unfold elem_get. apply safe_bind, safe_get_obj. intros m _.
  unfold safe, read_elem. destruct (data m) as [a|]; [|exact I].
  destruct (bufs s !! a) as [buf|]; [|exact I].
  destruct (buf !! _); [apply H | exact I].
Qed.

Lemma safe_elem_set o i j v s E :
  heap_inv s → safe (elem_set o i j v) s (λ _, heap_inv) E.
Proof.
  intros H. unfold elem_set. apply safe_bind, safe_get_obj. intros m _.
  unfold safe, write_elem. destruct (data m) as [a|]; [|exact I].
  destruct (bufs s !! a) as [buf|] eqn:Hb; [|exact I].
  case_decide; [|exact I].
  apply (heap_inv_with_buf s a buf); [exact H | exact Hb | apply length_insert].
Qed.

Lemma safe_vec_at v k s (Q : float → state → Prop) E :
  (∀ x, Q x s) → safe (vec_at v k) s Q E.
Proof. intros H. unfold vec_at. destruct (v !! _); [apply H | exact I]. Qed.

Lemma safe_reset_buffer s this r c :
  others_ok s this →
  (∀ M a, objs s !! this = Some M → data M = Some a → is_Some (bufs s !! a)) →
  safe (reset_buffer this r c) s (λ _, heap_inv)
    (λ s', others_ok s' this ∧ ¬ sizeof_double * wmul r c < modulus).
Proof.
  intros Hothers Hvalid. unfold safe.
  destruct (objs s !! this) as [m0|] eqn:Ho.
  - assert (∀ a, data m0 = Some a → is_Some (bufs s !! a)) as Hv
      by (intros a; by apply Hvalid).
    destruct (decide (sizeof_double * wmul r c < modulus)) as [Hsz|Hsz].
    + rewrite (reset_buffer_eq s this m0 r c Ho Hv Hsz).
      by apply heap_inv_reset.
    + rewrite (reset_buffer_throw s this m0 r c Ho Hv Hsz).
      split; [by apply others_ok_drop_buf | exact Hsz].
  - unfold reset_buffer. rewrite bind_unfold. unfold get_obj. by rewrite Ho.
Qed.

Lemma heap_inv_valid s o M a :
  heap_inv s → objs s !! o = Some M → data M = Some a → is_Some (bufs s !! a).
Proof.
  intros [H1 _] Ho Hd. specialize (H1 o M Ho). unfold obj_ok in H1.
  rewrite Hd in H1. destruct H1 as (_ & _ & buf & Hb & _). eauto.
Qed.

Lemma others_ok_born s init :
  heap_inv s → data init = None →
  others_ok (born s init) (fresh (dom (objs s))) ∧
  ∀ M a, objs (born s init) !! fresh (dom (objs s)) = Some M →
         data M = Some a → is_Some (bufs (born s init) !! a).
Proof.
  intros H Hd. split.
  - apply (others_ok_insert s); [by apply heap_inv_others|].
    intros a Ha. congruence.
  - intros M a HM. unfold born in HM. cbn in HM.
    rewrite lookup_insert_eq in HM. injection HM as <-. congruence.
Qed.

(** A constructor whose body keeps the invariant, or else leaves the other
    objects in order when it throws *)
Lemma safe_constructor init body s :
  safe (body (fresh (dom (objs s)))) (born s init)
    (λ _, heap_inv) (λ s2, others_ok s2 (fresh (dom (objs s)))) →
  safe (construct init body) s (λ _, heap_inv) heap_inv.
Proof.
  intros H. apply safe_construct. eapply safe_mono; [exact H | done |].
  cbn beta. intros s2 H2. by apply others_ok_delete.
Qed.

Lemma assign_vector_inv s this v :
  heap_inv s → safe (assign_vector this v) s (λ _, heap_inv) heap_inv.
Proof.
  intros H. unfold assign_vector. apply safe_bind, safe_get_obj. intros m _.
  case_decide; [by apply safe_throw|].
  apply safe_bind.
  eapply (safe_mono _ _ (λ _, heap_inv) _ heap_inv);
    [| intros ? ? Hs; exact Hs | done].
  apply safe_for_range; [exact H|]. intros i k s1 H1.
  apply safe_for_range; [exact H1|]. intros j k' s2 H2.
  apply safe_bind, safe_vec_at. intros x.
  apply safe_bind. eapply safe_mono; [by apply safe_elem_set | | done].
  intros [] s3 H3. exact H3.
Qed.

Lemma copy_elements_inv s this other (E : state → Prop) :
  heap_inv s → safe (copy_elements this other) s (λ _, heap_inv) E.
Proof.
  intros H. unfold copy_elements. apply safe_bind, safe_get_obj. intros m _.
  apply safe_for_range; [exact H|]. intros i [] s1 H1.
  apply safe_for_range; [exact H1|]. intros j [] s2 H2.
  apply safe_bind, safe_elem_get. intros x. by apply safe_elem_set.
Qed.

Lemma Matrix_new_inv s r c :
  heap_inv s → safe (Matrix_new r c) s (λ _, heap_inv) heap_inv.
Proof.
  intros H. unfold Matrix_new. apply safe_constructor.
  destruct (others_ok_born s (mkMatrix r c None) H eq_refl) as [Hothers Hvalid].
  apply safe_bind, safe_get_obj. intros m _.
  eapply safe_mono; [by apply safe_reset_buffer | done |].
  cbn beta. by intros s' [? _].
Qed.

Lemma Matrix_new_vec_inv s r c v :
  heap_inv s → safe (Matrix_new_vec r c v) s (λ _, heap_inv) heap_inv.
Proof.
  intros H. unfold Matrix_new_vec. apply safe_constructor.
  destruct (others_ok_born s (mkMatrix r c None) H eq_refl) as [Hothers Hvalid].
  apply safe_bind.
  eapply safe_mono; [by apply safe_reset_buffer | | by intros s' [? _]].
  cbn beta. intros _ s1 H1.
  eapply safe_mono; [by apply assign_vector_inv | done |].
  intros s2 H2. by apply heap_inv_others.
Qed.

Lemma Matrix_copy_inv s other :
  heap_inv s → safe (Matrix_copy other) s (λ _, heap_inv) heap_inv.
Proof.
  intros H. unfold Matrix_copy. apply safe_bind, safe_get_obj. intros mo _.
  apply safe_constructor.
  destruct (others_ok_born s (mkMatrix (nrow mo) (ncol mo) None) H eq_refl)
    as [Hothers Hvalid].
  apply safe_bind, safe_get_obj. intros mo' _.
  apply safe_bind.
  eapply safe_mono; [by apply safe_reset_buffer | | by intros s' [? _]].
  cbn beta. intros _ s1 H1. by apply copy_elements_inv.
Qed.

Lemma copy_assign_inv s this other :
  heap_inv s → safe (copy_assign this other) s (λ _, heap_inv) heap_inv.
Proof.
  intros H. unfold copy_assign. case_decide; [exact H|].
  apply safe_bind, safe_get_obj. intros m Hm.
  apply safe_bind, safe_get_obj. intros mo Hmo.
  apply safe_bind. case_decide.
  - eapply safe_mono.
    + apply safe_reset_buffer; [by apply heap_inv_others|].
      intros M a HM. by apply (heap_inv_valid s this).
    + cbn beta. intros _ s1 Hs1. by apply copy_elements_inv.
    + (* the source's array was accepted by [new], so is one of its size *)
      cbn beta. intros s' [_ Hsz]. exfalso. apply Hsz.
      destruct H as [Hok _]. specialize (Hok other mo Hmo). unfold obj_ok in Hok.
      destruct (data mo); [apply Hok | by rewrite Hok].
  - apply safe_ret. by apply copy_elements_inv.
Qed.

Lemma heap_inv_swap s x y mx my :
  heap_inv s → objs s !! x = Some mx → objs s !! y = Some my →
  heap_inv (mkState (<[x := my]> (<[y := mx]> (objs s))) (bufs s)).
Proof.
  intros [H1 H2] Hx Hy.
  assert (∀ o M, (<[x := my]> (<[y := mx]> (objs s))) !! o = Some M →
                 ∃ o', objs s !! o' = Some M ∧
                       (o = x → o' = y) ∧ (o ≠ x → o = y → o' = x) ∧
                       (o ≠ x → o ≠ y → o' = o)) as Hperm.
  { intros o M Ho. destruct (decide (o = x)) as [->|Hnx].
    - rewrite lookup_insert_eq in Ho. injection Ho as <-. exists y. by repeat split.
    - rewrite lookup_insert_ne in Ho by done.
      destruct (decide (o = y)) as [->|Hny].
      + rewrite lookup_insert_eq in Ho. injection Ho as <-. exists x. by repeat split.
      + rewrite lookup_insert_ne in Ho by done. exists o. by repeat split. }
  split.
  - intros o M Ho. destruct (Hperm o M Ho) as (o' & Ho' & _).
    apply (obj_ok_bufs s); [by apply (H1 o') | eauto].
  - intros o1 o2 M1 M2 a Ho1 Ho2 Hd1 Hd2. cbn in Ho1, Ho2.
    destruct (Hperm o1 M1 Ho1) as (o1' & Ho1' & A1 & B1 & C1).
    destruct (Hperm o2 M2 Ho2) as (o2' & Ho2' & A2 & B2 & C2).
    pose proof (H2 o1' o2' M1 M2 a Ho1' Ho2' Hd1 Hd2) as Heq.
    destruct (decide (o1 = x)), (decide (o1 = y)), (decide (o2 = x)),
      (decide (o2 = y)); subst; try done;
      repeat match goal with
             | H : ?o = ?o → _ |- _ => specialize (H eq_refl)
             | H : ?a ≠ ?b → _, H' : ?a ≠ ?b |- _ => specialize (H H')
             end; congruence.
Qed.

Lemma move_assign_inv s this other :
  heap_inv s → safe (move_assign this other) s (λ _, heap_inv) heap_inv.
Proof.
  intros H. unfold safe.
  destruct (decide (this = other)) as [->|Hne].
  { unfold move_assign. rewrite decide_True by done. exact H. }
  destruct (objs s !! this) as [my|] eqn:Ey;
    [destruct (objs s !! other) as [mx|] eqn:Ex|].
  - rewrite (move_assign_eq s other this mx my Hne Ex Ey).
    by apply heap_inv_swap.
  - unfold move_assign, swap_nrow. rewrite decide_False by done.
    rewrite bind_unfold, bind_unfold, (get_obj_ok _ _ _ Ey), bind_unfold.
    unfold get_obj. by rewrite Ex.
  - unfold move_assign, swap_nrow. rewrite decide_False by done.
    rewrite !bind_unfold. unfold get_obj. by rewrite Ey.
Qed.

Lemma Matrix_move_inv s other :
  heap_inv s → safe (Matrix_move other) s (λ _, heap_inv) heap_inv.
Proof.
  intros H. unfold safe.
  destruct (objs s !! other) as [mx|] eqn:Ex.
  - rewrite (Matrix_move_eq s other mx Ex).
    set (o := fresh (dom (objs s))).
    assert (objs s !! o = None) as Hfresh by apply fresh_obj_None.
    assert (o ≠ other) as Hne by congruence.
    (* the new object takes the source's members, the source is emptied *)
    destruct H as [H1 H2]. split.
    + intros o' M Ho'. cbn in Ho'.
      destruct (decide (o' = other)) as [->|Hn1].
      * rewrite lookup_insert_eq in Ho'. by injection Ho' as <-.
      * rewrite lookup_insert_ne in Ho' by done.
        destruct (decide (o' = o)) as [->|Hn2].
        -- rewrite lookup_insert_eq in Ho'. injection Ho' as <-.
           apply (obj_ok_bufs s); [by apply (H1 other) | eauto].
        -- rewrite lookup_insert_ne in Ho' by done.
           apply (obj_ok_bufs s); [by apply (H1 o') | eauto].
    + assert (∀ o' M a, (<[other := mkMatrix 0 0 None]> (<[o := mx]> (objs s)))
                          !! o' = Some M → data M = Some a →
                        o' ≠ other ∧
                        objs s !! (if decide (o' = o) then other else o') = Some M)
        as Hperm.
      { intros o' M a Ho' Hd. destruct (decide (o' = other)) as [->|Hn1].
        - rewrite lookup_insert_eq in Ho'. injection Ho' as <-. discriminate Hd.
        - rewrite lookup_insert_ne in Ho' by done. split; [done|].
          destruct (decide (o' = o)) as [->|Hn2].
          + rewrite lookup_insert_eq in Ho'. by injection Ho' as <-.
          + by rewrite lookup_insert_ne in Ho'. }
      intros o1 o2 M1 M2 a Ho1 Ho2 Hd1 Hd2. cbn in Ho1, Ho2.
      destruct (Hperm o1 M1 a Ho1 Hd1) as [N1 P1].
      destruct (Hperm o2 M2 a Ho2 Hd2) as [N2 P2].
      pose proof (H2 _ _ M1 M2 a P1 P2 Hd1 Hd2) as Heq.
      repeat case_decide; congruence.
  - unfold Matrix_move. rewrite bind_unfold. unfold get_obj. by rewrite Ex.
Qed.

Lemma Matrix_destroy_inv s this :
  heap_inv s → safe (Matrix_destroy this) s (λ _, heap_inv) heap_inv.
Proof.
  intros H. unfold Matrix_destroy. apply safe_bind. eapply safe_mono.
  - apply safe_reset_buffer; [by apply heap_inv_others|].
    intros M a HM. by apply (heap_inv_valid s this).
  - cbn beta. intros _ s1 H1. unfold safe, free_obj.
    by apply others_ok_delete, heap_inv_others.
  - cbn beta. intros s' [_ Hsz]. exfalso. apply Hsz. reflexivity.
Qed.

Lemma equals_inv s this other :
  heap_inv s → safe (equals this other) s (λ _, heap_inv) heap_inv.
Proof.
  intros H. unfold equals.
  apply safe_bind, safe_get_obj. intros m1 _.
  apply safe_bind, safe_get_obj. intros m2 _.
  case_decide; [exact H|].
  apply safe_bind. eapply safe_mono; [| | done].
  - apply safe_for_range_ret; [exact H|]. intros i s1 H1.
    apply safe_for_range_ret; [exact H1|]. intros j s2 H2.
    apply safe_bind, safe_elem_get. intros x.
    apply safe_bind, safe_elem_get. intros y.
    by destruct (negb _).
  - cbn beta. intros [b|] s1 H1; exact H1.
Qed.

Lemma to_vector_inv s this :
  heap_inv s → safe (to_vector this) s (λ _, heap_inv) heap_inv.
Proof.
  intros H. unfold to_vector. apply safe_bind, safe_get_obj. intros m _.
  cbv zeta. destruct (data m) as [a|].
  - unfold safe, copy_range. destruct (bufs s !! a); [|exact I].
    by case_decide.
  - by case_decide.
Qed.

Lemma multiply_naive_inv s a b :
  heap_inv s → safe (multiply_naive a b) s (λ _, heap_inv) heap_inv.
Proof.
  intros H. unfold multiply_naive.
  apply safe_bind, safe_get_obj. intros m1 _.
  apply safe_bind, safe_get_obj. intros m2 _.
  case_decide; [by apply safe_throw|].
  apply safe_bind. eapply safe_mono; [by apply Matrix_new_inv | | done].
  cbn beta. intros r s1 H1.
  apply safe_bind.
  eapply (safe_mono _ _ (λ _, heap_inv) _ heap_inv);
    [| intros ? ? Hs; exact Hs | done].
  apply safe_for_range; [exact H1|]. intros i [] s2 H2.
  apply safe_for_range; [exact H2|]. intros k [] s3 H3.
  apply safe_for_range; [exact H3|]. intros j [] s4 H4.
  apply safe_bind, safe_elem_get. intros x.
  apply safe_bind, safe_elem_get. intros y.
  apply safe_bind, safe_elem_get. intros z.
  by apply safe_elem_set.
Qed.

Lemma multiply_tile_inv s fuel a b tile_size :
  heap_inv s → safe (multiply_tile fuel a b tile_size) s (λ _, heap_inv) heap_inv.
Proof.
  intros H. unfold multiply_tile.
  apply safe_bind, safe_get_obj. intros m1 _.
  apply safe_bind, safe_get_obj. intros m2 _.
  case_decide; [by apply safe_throw|].
  cbv zeta.
  apply safe_bind. eapply safe_mono; [by apply Matrix_new_inv | | done].
  cbn beta. intros r s1 H1.
  apply safe_bind.
  eapply (safe_mono _ _ (λ _, heap_inv) _ heap_inv);
    [| intros ? ? Hs; exact Hs | done].
  apply safe_for_step; [exact H1|]. intros ti s2 H2.
  apply safe_for_step; [exact H2|]. intros tk s3 H3.
  apply safe_for_step; [exact H3|]. intros tj s4 H4.
  apply safe_for_range; [exact H4|]. intros i [] s5 H5.
  apply safe_for_range; [exact H5|]. intros k [] s6 H6.
  apply safe_bind, safe_elem_get. intros tmp.
  apply safe_for_range; [exact H6|]. intros j [] s7 H7.
  apply safe_bind, safe_elem_get. intros y.
  apply safe_bind, safe_elem_get. intros z.
  by apply safe_elem_set.
Qed.

Lemma safe_discard {A} (m : M A) s (Q E : state → Prop) :
  safe m s (λ _, Q) E → safe (m;; mret tt) s (λ _, Q) E.
Proof.
  intros H. apply safe_bind. eapply safe_mono; [exact H | | done].
  intros a s' H'. exact H'.
Qed.

(** C9, as the code has it: every public operation, run in a store where
    every object's array holds exactly as many elements as the product of
    its dimensions taken in [size_t] arithmetic (modulo [2^64]), with no
    array when that product is 0, and where no array is shared, leaves
    such a store, whether it returns or throws. *)
Theorem invariant_preserved op s :
  heap_inv s → safe (run op) s (λ _, heap_inv) heap_inv.
Proof.
  intros H. destruct op; cbn [run].
  - by apply safe_discard, Matrix_new_inv.
  - by apply safe_discard, Matrix_new_vec_inv.
  - by apply safe_discard, Matrix_copy_inv.
  - by apply safe_discard, Matrix_move_inv.
  - by apply copy_assign_inv.
  - by apply move_assign_inv.
  - by apply assign_vector_inv.
  - apply safe_discard. by apply safe_elem_get.
  - by apply safe_elem_set.
  - by apply safe_discard, equals_inv.
  - by apply safe_discard, to_vector_inv.
  - by apply Matrix_destroy_inv.
  - by apply safe_discard, multiply_naive_inv.
  - by apply safe_discard, multiply_tile_inv.
Qed.

Lemma heap_inv_empty : heap_inv empty_state.
Proof.
  split.
  - intros o M Ho. cbn in Ho. by rewrite lookup_empty in Ho.
  - intros o1 o2 M1 M2 a Ho. cbn in Ho. by rewrite lookup_empty in Ho.
Defined.

Lemma invariant_preserved_witness :
  safe (run (OpNewVec 2 3 [1; 2; 3; 4; 5; 6]%float)) empty_state
    (λ _, heap_inv) heap_inv.
Proof.
  apply (invariant_preserved (OpNewVec 2 3 [1; 2; 3; 4; 5; 6]%float) empty_state).
  exact heap_inv_empty.
Defined.

(** C9 as stated fails when the product of the dimensions wraps: the
    object [Matrix(2^32, 2^32)] is made without an array, though
    [rows * cols = 2^64] is not 0; it is no matrix of the data model,
    whatever its elements are taken to be. *)
Lemma constructor_wraps :
  in_range (2 ^ 32) ∧ 2 ^ 32 * 2 ^ 32 ≠ 0 ∧
  ∃ o s', Matrix_new (2 ^ 32) (2 ^ 32) empty_state = Ok o s' ∧
          objs s' !! o = Some (mkMatrix (2 ^ 32) (2 ^ 32) None) ∧
          ∀ els, ¬ is_matrix s' o (2 ^ 32) (2 ^ 32) els.
Proof.
  split; [size_t_solve|]. split; [lia|].
  eexists _, _. split; [vm_compute; reflexivity|].
  split; [vm_compute; reflexivity|].
  intros els (m & Ho & _ & _ & _ & _ & Hlen & _ & Hd)%is_matrix_elim.
  vm_compute in Ho. injection Ho as <-. cbn in Hd. subst els.
  cbn in Hlen. lia.
Qed.

(** * Further properties of the code

    Edge cases, round trips and compositions of the members and of the
    multiplications, and what the code never does with its arrays. *)

(** ** The constructor from dimensions *)

Lemma state_eta s : mkState (objs s) (bufs s) = s.
Proof. by destruct s. Qed.

Lemma zeros_matrix st o r c d :
  objs st !! o = Some (mkMatrix r c d) →
  in_range r → in_range c → sizeof_double * (r * c) < modulus →
  match d with
  | Some a => r * c ≠ 0 ∧ bufs st !! a = Some (replicate (Z.to_nat (r * c)) 0%float)
  | None => r * c = 0
  end →
  is_matrix st o r c (replicate (Z.to_nat (r * c)) 0%float).
Proof.
  intros Ho Rr Rc Hsz Hd.
  assert (0 <= r * c) as Hnn by (unfold in_range in *; nia).
  eapply is_matrix_intro; [exact Ho | reflexivity | reflexivity | exact Rr | exact Rc | | |].
  - rewrite length_replicate. lia.
  - unfold is_vector, vec_size. rewrite length_replicate, Z2Nat.id by exact Hnn. exact Hsz.
  - cbn [data]. destruct d as [a|].
    + destruct Hd as [Hnz Hb]. split; [|exact Hb].
      intros E. apply (f_equal length) in E. rewrite length_replicate in E.
      cbn in E. lia.
    + rewrite Hd. reflexivity.
Qed.

(** X1: [Matrix(r, c)], for dimensions whose array size is representable,
    returns a new matrix of that shape holding [+0.0] everywhere; the
    objects and arrays that existed are as they were. *)
Theorem Matrix_new_zeros s r c :
  in_range r → in_range c → sizeof_double * (r * c) < modulus →
  returns (Matrix_new r c) s (λ o s',
    objs s !! o = None ∧
    is_matrix s' o r c (replicate (Z.to_nat (r * c)) 0%float) ∧
    (∀ o', o' ≠ o → objs s' !! o' = objs s !! o') ∧
    (∀ a buf, bufs s !! a = Some buf → bufs s' !! a = Some buf)).
Proof.
  intros Rr Rc Hsz.
  assert (0 <= r * c < modulus) as Hrc by (unfold in_range, sizeof_double in *; nia).
  assert (sizeof_double * wmul r c < modulus) as Hsz'
    by (rewrite wmul_small by exact Hrc; exact Hsz).
  apply (returns_intro _ _ _ _ _ (Matrix_new_eq s r c Hsz')).
  set (o := fresh (dom (objs s))).
  split; [apply fresh_obj_None|].
  destruct (reset_result_None (born s (mkMatrix r c None)) o r c) as [[Hz E]|[Hnz E]];
    rewrite E; clear E; rewrite wmul_small in * by exact Hrc.
  - split.
    + apply zeros_matrix with (d := None); try assumption.
      cbn. apply lookup_insert_eq.
    + split.
      * intros o' Hne. cbn. rewrite lookup_insert_ne by done.
        fold o. by rewrite lookup_insert_ne.
      * intros a buf Hb. exact Hb.
  - split.
    + apply zeros_matrix with (d := Some (fresh (dom (bufs s)))); try assumption.
      * cbn. apply lookup_insert_eq.
      * split; [exact Hnz|]. cbn. apply lookup_insert_eq.
    + split.
      * intros o' Hne. cbn. rewrite lookup_insert_ne by done.
        fold o. by rewrite lookup_insert_ne.
      * intros a buf Hb. cbn. rewrite lookup_insert_ne; [exact Hb|].
        intros <-. rewrite fresh_buf_None in Hb. discriminate.
Qed.

Lemma Matrix_new_zeros_witness :
  returns (Matrix_new 2 3) empty_state (λ o s',
    objs empty_state !! o = None ∧
    is_matrix s' o 2 3 (replicate (Z.to_nat (2 * 3)) 0%float) ∧
    (∀ o', o' ≠ o → objs s' !! o' = objs empty_state !! o') ∧
    (∀ a buf, bufs empty_state !! a = Some buf → bufs s' !! a = Some buf)).
Proof.
  apply (Matrix_new_zeros empty_state 2 3); size_t_solve.
Defined.

(** X2: when the array of [r * c] doubles (the product taken in [size_t])
    has no representable size in bytes, [Matrix(r, c)] throws
    [std::bad_array_new_length] and leaves the store as it found it. *)
Theorem Matrix_new_bad_length s r c :
  modulus <= sizeof_double * wmul r c →
  Matrix_new r c s = Throw bad_array_new_length s.
Proof.
  intros Hsz. unfold Matrix_new.
  set (o := fresh (dom (objs s))).
  set (s0 := born s (mkMatrix r c None)).
  assert (objs s0 !! o = Some (mkMatrix r c None)) as Ho by apply lookup_insert_eq.
  rewrite (construct_throw _ _ s bad_array_new_length s0).
  - cbn. fold o. rewrite delete_insert_eq, delete_id by apply fresh_obj_None.
    apply f_equal, state_eta.
  - fold o. fold s0.
    rewrite (bind_ok _ _ _ _ _ (get_obj_ok _ _ _ Ho)). cbn [nrow ncol].
    rewrite (reset_buffer_throw _ _ _ r c Ho); [|discriminate|lia].
    cbn [data drop_buf]. by rewrite state_eta.
Qed.

Lemma Matrix_new_bad_length_witness :
  Matrix_new (2 ^ 61) 1 empty_state = Throw bad_array_new_length empty_state.
Proof.
  apply (Matrix_new_bad_length empty_state (2 ^ 61) 1). vm_compute. discriminate.
Defined.

(** ** Element access without checks *)

Lemma is_matrix_nonempty s o r c els :
  is_matrix s o r c els → 0 < r * c →
  ∃ m a, objs s !! o = Some m ∧ ncol m = c ∧ data m = Some a ∧
         bufs s !! a = Some els ∧ Z.of_nat (length els) = r * c ∧
         r * c < modulus.
Proof.
  intros (m & Ho & Hr & Hc & Rr & Rc & Hlen & Hvec & Hd)%is_matrix_elim Hpos.
  apply is_vector_bound in Hvec.
  destruct (data m) as [a|] eqn:Ed.
  - destruct Hd as [_ Hb]. exists m, a. repeat (split; [assumption|]). lia.
  - subst els. cbn in Hlen. lia.
Qed.

(** X3: storing [v] at an in-range position of a matrix changes that
    element and no other: the position then reads [v], every other
    position reads what it held, and the shape is the same. *)
Theorem elem_set_then_get s o r c els i j v :
  is_matrix s o r c els → 0 <= i < r → 0 <= j < c →
  returns (elem_set o i j v) s (λ _ s',
    is_matrix s' o r c (<[offset c i j := v]> els) ∧
    elem_get o i j s' = Ok v s' ∧
    ∀ i' j', 0 <= i' < r → 0 <= j' < c → (i', j') ≠ (i, j) →
             elem_get o i' j' s' = Ok (els !!! offset c i' j') s').
Proof.
  intros Hm Hi Hj.
  pose proof (offset_in_range r c i j Hi Hj) as Hoff.
  destruct (is_matrix_nonempty _ _ _ _ _ Hm ltac:(lia))
    as (m & a & Ho & Hc & Ed & Hb & Hlen & Hrc).
  pose proof Hm as (_ & _ & _ & _ & Rr & Rc & _ & Hvec & _)%is_matrix_elim.
  assert (elem_set o i j v s = Ok tt (with_buf s a (<[offset c i j := v]> els))) as E.
  { rewrite (elem_set_eq s o m a els i j v Ho Ed Hb);
      rewrite Hc, (index_no_wrap r c i j) by assumption; [reflexivity|lia]. }
  apply (returns_intro _ _ _ _ _ E).
  assert (is_matrix (with_buf s a (<[offset c i j := v]> els)) o r c
            (<[offset c i j := v]> els)) as Hm'.
  { eapply is_matrix_intro; [exact Ho | | exact Hc | exact Rr | exact Rc | | |].
    - by pose proof Hm as (m' & Ho' & Hr' & _)%is_matrix_elim; simplify_eq.
    - rewrite length_insert. exact Hlen.
    - unfold is_vector, vec_size in *. rewrite length_insert. exact Hvec.
    - rewrite Ed. split.
      + intros E'. apply (f_equal length) in E'. rewrite length_insert in E'.
        cbn in E'. lia.
      + cbn. apply lookup_insert_eq. }
  split; [exact Hm'|]. split.
  - rewrite (elem_get_matrix _ _ _ _ _ i j Hm' Hi Hj).
    rewrite list_lookup_total_insert_eq by (unfold offset; lia). reflexivity.
  - intros i' j' Hi' Hj' Hne.
    rewrite (elem_get_matrix _ _ _ _ _ i' j' Hm' Hi' Hj').
    rewrite list_lookup_total_insert_ne; [reflexivity|].
    unfold offset. intros E'. apply Hne.
    pose proof (offset_in_range r c i' j' Hi' Hj').
    destruct (lin_inj c i j i' j' Hj Hj' ltac:(lia)) as [-> ->]. reflexivity.
Qed.

Lemma elem_set_then_get_witness :
  returns (elem_set 1%positive 0 1 7%float) two_matrices (λ _ s',
    is_matrix s' 1%positive 1 2 (<[offset 2 0 1 := 7%float]> [1; 2]%float) ∧
    elem_get 1%positive 0 1 s' = Ok 7%float s' ∧
    ∀ i' j', 0 <= i' < 1 → 0 <= j' < 2 → (i', j') ≠ (0, 1) →
             elem_get 1%positive i' j' s' = Ok ([1; 2]%float !!! offset 2 i' j') s').
Proof.
  apply (elem_set_then_get two_matrices 1%positive 1 2 [1; 2]%float 0 1 7%float);
    [exact two_matrices_1 | lia | lia].
Defined.

(** X4: [operator()] does not check its indices.  An index pair is served
    from the flat position [ncol * row + col] (computed in [size_t])
    whenever that lies inside the array, so that column [ncol] of one row
    is column 0 of the next; when the position lies outside the array, or
    the matrix is empty, the access is undefined behaviour. *)
Theorem element_access_unchecked s o r c els :
  is_matrix s o r c els →
  (∀ i j, wadd (wmul c i) j < r * c →
     elem_get o i j s = Ok (els !!! Z.to_nat (wadd (wmul c i) j)) s) ∧
  (∀ i j, r * c <= wadd (wmul c i) j →
     elem_get o i j s = Undefined ∧ ∀ v, elem_set o i j v s = Undefined) ∧
  (∀ i, 0 <= i → i + 1 < r → 0 < c →
     elem_get o i c s = Ok (els !!! offset c (i + 1) 0) s).
Proof.
  intros Hm.
  pose proof Hm as (m & Ho & Hr & Hc & Rr & Rc & Hlen & Hvec & Hd)%is_matrix_elim.
  apply is_vector_bound in Hvec.
  assert (∀ i j, wadd (wmul c i) j < r * c →
     elem_get o i j s = Ok (els !!! Z.to_nat (wadd (wmul c i) j)) s) as Hin.
  { intros i j Hlt. pose proof (wrap_range (wmul c i + j)) as Hk.
    fold (wadd (wmul c i) j) in Hk.
    destruct (is_matrix_nonempty _ _ _ _ _ Hm ltac:(lia))
      as (m' & a & Ho' & _ & Ed & Hb & _). simplify_eq.
    eapply elem_get_eq; eauto.
    apply list_lookup_lookup_total_lt. lia. }
  split; [exact Hin|]. split.
  - intros i j Hge. pose proof (wrap_range (wmul c i + j)) as Hk.
    fold (wadd (wmul c i) j) in Hk.
    split; [|intros v]; unfold elem_get, elem_set;
      rewrite (bind_ok _ _ _ _ _ (get_obj_ok _ _ _ Ho));
      unfold read_elem, write_elem; rewrite Hc;
      (destruct (data m) as [a|]; [|reflexivity]);
      destruct Hd as [_ Hb]; rewrite Hb.
    + rewrite lookup_ge_None_2 by lia. reflexivity.
    + rewrite decide_False by lia. reflexivity.
  - intros i Hi Hi' Hc'.
    assert (0 <= c * i + c < r * c) as Hoff by nia.
    assert (wadd (wmul c i) c = c * i + c) as Ek.
    { rewrite wmul_small by nia. apply wadd_small. lia. }
    rewrite Hin by lia. rewrite Ek. unfold offset. do 3 f_equal. lia.
Qed.

Lemma element_access_unchecked_witness :
  (∀ i j, wadd (wmul 2 i) j < 3 * 2 →
     elem_get 2%positive i j worked_example
     = Ok ([7; 8; 9; 10; 11; 12]%float !!! Z.to_nat (wadd (wmul 2 i) j)) worked_example) ∧
  (∀ i j, 3 * 2 <= wadd (wmul 2 i) j →
     elem_get 2%positive i j worked_example = Undefined ∧
     ∀ v, elem_set 2%positive i j v worked_example = Undefined) ∧
  (∀ i, 0 <= i → i + 1 < 3 → 0 < 2 →
     elem_get 2%positive i 2 worked_example
     = Ok ([7; 8; 9; 10; 11; 12]%float !!! offset 2 (i + 1) 0) worked_example).
Proof.
  apply (element_access_unchecked worked_example 2%positive 3 2
           [7; 8; 9; 10; 11; 12]%float).
  exact worked_example_2.
Defined.

(** ** Assignment from a vector *)

(** X5: assigning a vector to an existing matrix.  A vector of another
    length than [nrow * ncol] makes it throw [std::out_of_range] before
    anything is written: the store is the one it started from.  A vector
    of that length replaces the contents in place: same objects, same
    array, no allocation. *)
Theorem assign_vector_spec s o r c els v :
  is_matrix s o r c els →
  (vec_size v ≠ r * c →
   assign_vector o v s = Throw (out_of_range msg_elements) s) ∧
  (vec_size v = r * c →
   returns (assign_vector o v) s (λ _ s',
     is_matrix s' o r c v ∧ objs s' = objs s ∧ dom (bufs s') = dom (bufs s))).
Proof.
  intros Hm.
  pose proof Hm as (m & Ho & Hr & Hc & Rr & Rc & Hlen & Hvec & Hd)%is_matrix_elim.
  pose proof (is_vector_bound _ Hvec) as Hb.
  split; intros Hv.
  - apply (assign_vector_mismatch _ _ _ _ Ho).
    rewrite Hr, Hc, wmul_small by lia. congruence.
  - assert (objs s !! o = Some (mkMatrix r c (data m))) as Ho'
      by (rewrite Ho, <- Hr, <- Hc, Matrix_eta; reflexivity).
    assert (assign_vector o v s = Ok tt (set_contents s (data m) v)) as E.
    { apply (assign_vector_fill s o r c (data m) els v Ho' Rr Rc); try lia.
      destruct (data m); [tauto|]. subst els. cbn in Hlen. lia. }
    apply (returns_intro _ _ _ _ _ E).
    assert (is_vector v) as Hvv.
    { unfold is_vector, vec_size in *. lia. }
    destruct (data m) as [a|] eqn:Ed; cbn [set_contents].
    + destruct Hd as [Hne Hbuf]. split; [|split].
      * eapply is_matrix_intro; [exact Ho | | | | | | exact Hvv |]; try assumption.
        rewrite Ed. split; [|cbn; apply lookup_insert_eq].
        intros ->. destruct els; [done|]. unfold vec_size in Hv. cbn in *. lia.
      * reflexivity.
      * cbn. rewrite dom_insert_L. apply elem_of_dom_2 in Hbuf.
        apply subseteq_union_1_L. by apply singleton_subseteq_l.
    + subst els. assert (v = []) as ->.
      { apply length_zero_iff_nil. unfold vec_size in Hv. cbn in Hlen. lia. }
      split; [exact Hm|]. split; reflexivity.
Qed.

Lemma assign_vector_spec_witness :
  (vec_size [5; 6; 7]%float ≠ 1 * 2 →
   assign_vector 1%positive [5; 6; 7]%float two_matrices
   = Throw (out_of_range msg_elements) two_matrices) ∧
  (vec_size [5; 6; 7]%float = 1 * 2 →
   returns (assign_vector 1%positive [5; 6; 7]%float) two_matrices (λ _ s',
     is_matrix s' 1%positive 1 2 [5; 6; 7]%float ∧
     objs s' = objs two_matrices ∧ dom (bufs s') = dom (bufs two_matrices))).
Proof.
  apply (assign_vector_spec two_matrices 1%positive 1 2 [1; 2]%float [5; 6; 7]%float).
  exact two_matrices_1.
Defined.

(** ** Construction from a vector: the store it leaves *)

Lemma Matrix_new_vec_eq s rows cols v :
  in_range rows → in_range cols →
  sizeof_double * (rows * cols) < modulus →
  vec_size v = rows * cols →
  Matrix_new_vec rows cols v s
  = Ok (fresh (dom (objs s))) (fresh_matrix s rows cols v).
Proof.
  intros Rr Rc Hsz Hv.
  assert (0 <= rows * cols < modulus) as Hrc
    by (unfold in_range, sizeof_double in *; nia).
  set (o := fresh (dom (objs s))).
  set (s0 := born s (mkMatrix rows cols None)).
  assert (objs s0 !! o = Some (mkMatrix rows cols None)) as Ho
    by apply lookup_insert_eq.
  assert (reset_buffer o rows cols s0 = Ok tt (reset_result s0 o rows cols None)) as E1.
  { rewrite (reset_buffer_eq _ _ _ rows cols Ho); [reflexivity | discriminate |].
    rewrite wmul_small by exact Hrc. exact Hsz. }
  unfold Matrix_new_vec, fresh_matrix. apply construct_ok. fold o. fold s0.
  rewrite (bind_ok _ _ _ _ _ E1).
  destruct (reset_result_None s0 o rows cols) as [[Hz E]|[Hnz E]];
    rewrite wmul_small in * by exact Hrc.
  - rewrite decide_False by lia.
    rewrite (assign_vector_fill _ o rows cols None [] v); try assumption; try lia.
    + rewrite E. cbn. rewrite insert_insert_eq. reflexivity.
    + rewrite E. cbn. apply lookup_insert_eq.
    + cbn. lia.
  - rewrite decide_True by exact Hnz.
    rewrite (assign_vector_fill _ o rows cols (Some (fresh (dom (bufs s0))))
               (replicate (Z.to_nat (rows * cols)) 0%float) v);
      try assumption; try lia.
    + rewrite E. cbn. unfold with_buf. cbn. rewrite !insert_insert_eq. reflexivity.
    + rewrite E. cbn. apply lookup_insert_eq.
    + rewrite length_replicate. lia.
    + rewrite E. cbn. apply lookup_insert_eq.
Qed.



(** ** Destruction *)

Lemma Matrix_destroy_eq s o m :
  objs s !! o = Some m →
  (∀ a, data m = Some a → is_Some (bufs s !! a)) →
  Matrix_destroy o s
  = Ok tt (mkState (delete o (objs s)) (drop_buf (data m) (bufs s))).
Proof.
  intros Ho Hd. unfold Matrix_destroy.
  rewrite (bind_ok _ _ _ _ _ (reset_buffer_eq s o m 0 0 Ho Hd ltac:(reflexivity))).
  destruct (reset_result_cases s o 0 0 (data m)) as [[_ E]|[Hnz _]];
    [|by vm_compute in Hnz].
  rewrite E. unfold free_obj. cbn. by rewrite delete_insert_eq.
Qed.

Lemma Matrix_copy_eq s m r c els :
  is_matrix s m r c els →
  Matrix_copy m s = Ok (fresh (dom (objs s))) (fresh_matrix s r c els).
Proof.
  intros Hm.
  pose proof Hm as (mo & Hmo & Hr & Hc & Rr & Rc & Hlen & Hvec & Hd)%is_matrix_elim.
  pose proof (is_matrix_sizeof _ _ _ _ _ Hm) as (_ & _ & Hnn & Hsz).
  assert (0 <= r * c < modulus) as Hrc by (unfold sizeof_double in *; lia).
  set (o := fresh (dom (objs s))).
  set (s0 := born s (mkMatrix r c None)).
  assert (o ≠ m) as Hne.
  { intros E. pose proof (fresh_obj_None s) as HN. fold o in HN. congruence. }
  assert (objs s0 !! o = Some (mkMatrix r c None)) as Ho
    by apply lookup_insert_eq.
  assert (objs s0 !! m = Some mo) as Hmo0.
  { unfold s0, born. cbn. fold o. by rewrite lookup_insert_ne. }
  assert (reset_buffer o r c s0 = Ok tt (reset_result s0 o r c None)) as E1.
  { rewrite (reset_buffer_eq _ _ _ r c Ho); [reflexivity | discriminate |].
    rewrite wmul_small by exact Hrc. exact Hsz. }
  unfold Matrix_copy, fresh_matrix.
  rewrite (bind_ok _ _ _ _ _ (get_obj_ok _ _ _ Hmo)). rewrite Hr, Hc.
  apply construct_ok. fold o. fold s0.
  rewrite (bind_ok _ _ _ _ _ (get_obj_ok _ _ _ Hmo0)). rewrite Hr, Hc.
  rewrite (bind_ok _ _ _ _ _ E1).
  assert (is_matrix (reset_result s0 o r c None) m r c els) as Hm1.
  { apply (is_matrix_transfer s _ m m _ _ _ Hm).
    - destruct (reset_result_None s0 o r c) as [[_ E]|[_ E]]; rewrite E; cbn;
        fold o; by rewrite !lookup_insert_ne.
    - intros a b Hab.
      destruct (reset_result_None s0 o r c) as [[_ E]|[_ E]]; rewrite E; cbn;
        [exact Hab|].
      rewrite lookup_insert_ne; [exact Hab|].
      intros <-. by rewrite fresh_buf_None in Hab. }
  destruct (reset_result_None s0 o r c) as [[Hz E]|[Hnz E]];
    rewrite wmul_small in * by exact Hrc.
  - rewrite decide_False by lia.
    rewrite (copy_elements_fill _ o m r c None [] els); try assumption.
    + rewrite E. cbn. rewrite insert_insert_eq. reflexivity.
    + rewrite E. cbn. apply lookup_insert_eq.
    + cbn. lia.
    + discriminate.
  - rewrite decide_True by exact Hnz.
    rewrite (copy_elements_fill _ o m r c (Some (fresh (dom (bufs s0))))
               (replicate (Z.to_nat (r * c)) 0%float) els); try assumption.
    + rewrite E. cbn. unfold with_buf. cbn. rewrite !insert_insert_eq. reflexivity.
    + rewrite E. cbn. apply lookup_insert_eq.
    + rewrite length_replicate. lia.
    + rewrite E. cbn. apply lookup_insert_eq.
    + intros m' a Hm' [= <-] Ed.
      rewrite E in Hm'. cbn in Hm'. fold o in Hm'.
      rewrite !lookup_insert_ne in Hm' by done. simplify_eq.
      rewrite Ed in Hd. destruct Hd as [_ Hb].
      unfold s0, born in Hb. cbn in Hb. by rewrite fresh_buf_None in Hb.
Qed.

Lemma fresh_matrix_destroy s r c els :
  Matrix_destroy (fresh (dom (objs s))) (fresh_matrix s r c els) = Ok tt s.
Proof.
  unfold fresh_matrix. destruct (decide (r * c ≠ 0)).
  - rewrite (Matrix_destroy_eq _ _ (mkMatrix r c (Some (fresh (dom (bufs s)))))).
    + cbn. rewrite !delete_insert_eq.
      rewrite !delete_id by (apply fresh_obj_None || apply fresh_buf_None).
      by rewrite state_eta.
    + cbn. apply lookup_insert_eq.
    + cbn. intros a [= <-]. rewrite lookup_insert_eq. eauto.
  - rewrite (Matrix_destroy_eq _ _ (mkMatrix r c None)).
    + cbn. rewrite delete_insert_eq, delete_id by apply fresh_obj_None.
      by rewrite state_eta.
    + cbn. apply lookup_insert_eq.
    + discriminate.
Qed.

(** X7: the destructor releases the matrix's array and nothing else, and
    a temporary is released in full: copying a matrix, or constructing
    one from a vector, and then destroying the new object gives back the
    very store one started from. *)
Theorem temporary_released s m r c els :
  is_matrix s m r c els →
  returns (Matrix_destroy m) s (λ _ s',
    objs s' = delete m (objs s) ∧
    ∀ mo, objs s !! m = Some mo → bufs s' = drop_buf (data mo) (bufs s)) ∧
  returns (o ← Matrix_copy m; Matrix_destroy o) s (λ _ s', s' = s) ∧
  (∀ rows cols v,
     in_range rows → in_range cols →
     sizeof_double * (rows * cols) < modulus →
     vec_size v = rows * cols →
     returns (o ← Matrix_new_vec rows cols v; Matrix_destroy o) s (λ _ s', s' = s)).
Proof.
  intros Hm. split; [|split].
  - pose proof Hm as (mo & Hmo & _ & _ & _ & _ & _ & _ & Hd)%is_matrix_elim.
    assert (∀ a, data mo = Some a → is_Some (bufs s !! a)) as Hlive.
    { intros a E. rewrite E in Hd. destruct Hd as [_ Hd]. eauto. }
    apply (returns_intro _ _ _ _ _ (Matrix_destroy_eq s m mo Hmo Hlive)).
    split; [reflexivity|]. intros mo' E. by simplify_eq.
  - apply returns_bind.
    apply (returns_intro _ _ _ _ _ (Matrix_copy_eq s m r c els Hm)).
    apply (returns_intro _ _ _ _ _ (fresh_matrix_destroy s r c els)).
    reflexivity.
  - intros rows cols v Rr Rc Hsz Hv. apply returns_bind.
    apply (returns_intro _ _ _ _ _ (Matrix_new_vec_eq s rows cols v Rr Rc Hsz Hv)).
    apply (returns_intro _ _ _ _ _ (fresh_matrix_destroy s rows cols v)).
    reflexivity.
Qed.

Lemma temporary_released_witness :
  returns (Matrix_destroy 1%positive) two_matrices (λ _ s',
    objs s' = delete 1%positive (objs two_matrices) ∧
    ∀ mo, objs two_matrices !! 1%positive = Some mo →
          bufs s' = drop_buf (data mo) (bufs two_matrices)) ∧
  returns (o ← Matrix_copy 1%positive; Matrix_destroy o) two_matrices
    (λ _ s', s' = two_matrices) ∧
  (∀ rows cols v,
     in_range rows → in_range cols →
     sizeof_double * (rows * cols) < modulus →
     vec_size v = rows * cols →
     returns (o ← Matrix_new_vec rows cols v; Matrix_destroy o) two_matrices
       (λ _ s', s' = two_matrices)).
Proof.
  apply (temporary_released two_matrices 1%positive 1 2 [1; 2]%float).
  exact two_matrices_1.
Defined.

(** ** Move assignment as an exchange *)



(** ** Moves followed by the destruction of the source *)

(** X9: destroying the source of a move does not touch what was moved.
    After [y = std::move(x)] and the destruction of [x], [y] holds what
    [x] held and the array [y] had before is the one released; after a
    move construction from [x] and the destruction of [x], the new object
    holds what [x] held and no array is released at all. *)
Theorem source_destroyed_after_move s x y r c els r' c' els' :
  x ≠ y → is_matrix s x r c els → is_matrix s y r' c' els' → separate s y x →
  returns (move_assign y x;; Matrix_destroy x) s (λ _ s',
    is_matrix s' y r c els ∧ objs s' !! x = None ∧
    ∀ my, objs s !! y = Some my → bufs s' = drop_buf (data my) (bufs s)) ∧
  returns (z ← Matrix_move x; Matrix_destroy x;; mret z) s (λ z s',
    is_matrix s' z r c els ∧ objs s' !! x = None ∧ bufs s' = bufs s).
Proof.
  intros Hne Hx Hy Hsep.
  pose proof Hx as (mx & Ex & Hrx & Hcx & Rr & Rc & Hlen & Hvec & Hdx)%is_matrix_elim.
  pose proof Hy as (my & Ey & _ & _ & _ & _ & _ & _ & Hdy)%is_matrix_elim.
  split.
  - apply returns_bind.
    apply (returns_intro _ _ _ _ _ (move_assign_eq s x y mx my ltac:(done) Ex Ey)).
    set (s1 := mkState (<[x := my]> (<[y := mx]> (objs s))) (bufs s)).
    assert (objs s1 !! x = Some my) as Ex1 by apply lookup_insert_eq.
    assert (∀ a, data my = Some a → is_Some (bufs s1 !! a)) as Hlive.
    { intros a Ea. rewrite Ea in Hdy. destruct Hdy as [_ Hb]. cbn. by rewrite Hb. }
    apply (returns_intro _ _ _ _ _ (Matrix_destroy_eq s1 x my Ex1 Hlive)).
    split; [|split].
    + eapply is_matrix_intro; [| exact Hrx | exact Hcx | | | | |]; try assumption.
      * cbn. rewrite lookup_delete_ne, lookup_insert_ne, lookup_insert_eq by done.
        reflexivity.
      * destruct (data mx) as [ax|] eqn:Edx; [|exact Hdx].
        destruct Hdx as [Hnil Hb]. split; [exact Hnil|]. cbn.
        destruct (data my) as [ay|] eqn:Edy; cbn; [|exact Hb].
        rewrite lookup_delete_ne; [exact Hb|].
        intros <-. by apply (Hsep my mx ay Ey Ex Edy).
    + cbn. apply lookup_delete_eq.
    + intros my' Ey'. by simplify_eq.
  - apply returns_bind.
    apply (returns_intro _ _ _ _ _ (Matrix_move_eq s x mx Ex)).
    set (o := fresh (dom (objs s))).
    assert (o ≠ x) as Hox.
    { intros E. pose proof (fresh_obj_None s) as HN. fold o in HN. congruence. }
    set (s1 := mkState (<[x := mkMatrix 0 0 None]> (<[o := mx]> (objs s))) (bufs s)).
    assert (objs s1 !! x = Some (mkMatrix 0 0 None)) as Ex1 by apply lookup_insert_eq.
    apply returns_bind.
    apply (returns_intro _ _ _ _ _
             (Matrix_destroy_eq s1 x (mkMatrix 0 0 None) Ex1 ltac:(discriminate))).
    cbn [data drop_buf]. split; [|split].
    + eapply is_matrix_intro; [| exact Hrx | exact Hcx | | | | |]; try assumption.
      cbn. rewrite lookup_delete_ne, lookup_insert_ne, lookup_insert_eq by done.
      reflexivity.
    + cbn. apply lookup_delete_eq.
    + reflexivity.
Qed.

Lemma source_destroyed_after_move_witness :
  returns (move_assign 2%positive 1%positive;; Matrix_destroy 1%positive)
    two_matrices (λ _ s',
      is_matrix s' 2%positive 1 2 [1; 2]%float ∧ objs s' !! 1%positive = None ∧
      ∀ my, objs two_matrices !! 2%positive = Some my →
            bufs s' = drop_buf (data my) (bufs two_matrices)) ∧
  returns (z ← Matrix_move 1%positive; Matrix_destroy 1%positive;; mret z)
    two_matrices (λ z s',
      is_matrix s' z 1 2 [1; 2]%float ∧ objs s' !! 1%positive = None ∧
      bufs s' = bufs two_matrices).
Proof.
  apply (source_destroyed_after_move two_matrices 1%positive 2%positive
           1 2 [1; 2]%float 1 1 [3]%float).
  - discriminate.
  - exact two_matrices_1.
  - exact two_matrices_2.
  - intros m1 m2 a H1 H2 E1 E2.
    vm_compute in H1, H2. injection H1 as <-. injection H2 as <-.
    cbn in E1, E2. rewrite <- E1 in E2. discriminate E2.
Defined.

(** ** Equality: symmetry and reflexivity *)

Lemma SFeqb_sym f1 f2 : SFeqb f1 f2 = SFeqb f2 f1.
Proof.
  unfold SFeqb.
  destruct f1 as [s1|s1| |s1 m1 e1], f2 as [s2|s2| |s2 m2 e2]; cbn;
    try reflexivity; try (by destruct s1); try (by destruct s2);
    try (by destruct s1, s2).
  change (PosDef.Pos.compare_cont Eq m1 m2) with (Pos.compare m1 m2).
  change (PosDef.Pos.compare_cont Eq m2 m1) with (Pos.compare m2 m1).
  rewrite (Z.compare_antisym e1 e2), (Pos.compare_antisym m1 m2).
  by destruct s1, s2, (e1 ?= e2), (m1 ?= m2)%positive.
Qed.

Lemma double_eq_sym x y : double_eq x y ↔ double_eq y x.
Proof. unfold double_eq. by rewrite !FloatAxioms.eqb_spec, (SFeqb_sym (Prim2SF x)). Qed.

(** What [operator==] computes on two matrices *)
Lemma equals_run s a b r c ea r' c' eb :
  is_matrix s a r c ea → is_matrix s b r' c' eb →
  ∃ res, equals a b s = Ok res s ∧
    (res = true ↔
     r = r' ∧ c = c' ∧
     ∀ i j, 0 <= i < r → 0 <= j < c →
            double_eq (ea !!! offset c i j) (eb !!! offset c i j)).
Proof.
  intros Ha Hb.
  pose proof Ha as (ma & Ea & Hra & Hca & Rr & Rc & _)%is_matrix_elim.
  pose proof Hb as (mb & Eb & Hrb & Hcb & _)%is_matrix_elim.
  unfold equals.
  rewrite (bind_ok _ _ _ _ _ (get_obj_ok _ _ _ Ea)).
  rewrite (bind_ok _ _ _ _ _ (get_obj_ok _ _ _ Eb)).
  rewrite Hra, Hca, Hrb, Hcb.
  destruct (decide (r ≠ r' ∨ c ≠ c')) as [Hne|Heq].
  { exists false. split; [reflexivity|]. split; [discriminate|].
    intros (-> & -> & _). destruct Hne; congruence. }
  assert (r = r') as <- by (destruct (decide (r = r')); [done | tauto]).
  assert (c = c') as <- by (destruct (decide (c = c')); [done | tauto]).
  set (body := λ i j : Z,
         x ← elem_get a i j; y ← elem_get b i j;
         if negb (PrimFloat.eqb x y) then mret (Some false) else mret None).
  set (cell := λ i j : Z,
         if negb (PrimFloat.eqb (ea !!! offset c i j) (eb !!! offset c i j))
         then Some false else None).
  assert (∀ i j, 0 <= i < r → 0 <= j < c → body i j s = Ok (cell i j) s) as Hcell.
  { intros i j Hi Hj. unfold body.
    rewrite (bind_ok _ _ _ _ _ (elem_get_matrix _ _ _ _ _ _ _ Ha Hi Hj)).
    rewrite (bind_ok _ _ _ _ _ (elem_get_matrix _ _ _ _ _ _ _ Hb Hi Hj)).
    unfold cell. by destruct (negb _). }
  set (row := λ i : Z, first_some (Z.to_nat c) 0 (cell i)).
  assert (for_range_ret 0 r (λ i, for_range_ret 0 c (body i)) s
          = Ok (first_some (Z.to_nat r) 0 row) s) as Hall.
  { unfold for_range_ret at 1. rewrite Z.sub_0_r.
    apply for_count_ret_pure. intros i Hi.
    unfold for_range_ret. rewrite Z.sub_0_r.
    apply for_count_ret_pure. intros j Hj. apply Hcell; lia. }
  fold body. rewrite (bind_ok _ _ _ _ _ Hall).
  destruct (first_some (Z.to_nat r) 0 row) as [res|] eqn:E.
  - exists res. split; [reflexivity|].
    apply first_some_Some in E as (i & Hi & E). unfold row in E.
    apply first_some_Some in E as (j & Hj & E). unfold cell in E.
    destruct (PrimFloat.eqb _ _) eqn:Ex; cbn in E; [discriminate|].
    injection E as <-. split; [discriminate|].
    intros (_ & _ & H). specialize (H i j ltac:(lia) ltac:(lia)).
    unfold double_eq in H. congruence.
  - exists true. split; [reflexivity|]. split; [|reflexivity].
    intros _. split; [reflexivity|]. split; [reflexivity|].
    intros i j Hi Hj.
    rewrite first_some_None in E. specialize (E i ltac:(lia)). unfold row in E.
    rewrite first_some_None in E. specialize (E j ltac:(lia)). unfold cell in E.
    unfold double_eq. by destruct (PrimFloat.eqb _ _).
Qed.

(** X10: [operator==] is symmetric: [a == b] and [b == a] give the same
    answer, for matrices of any shapes and contents. *)
Theorem equals_symmetric s a b r c ea r' c' eb :
  is_matrix s a r c ea → is_matrix s b r' c' eb →
  equals a b s = equals b a s.
Proof.
  intros Ha Hb.
  destruct (equals_run s a b r c ea r' c' eb Ha Hb) as (res1 & E1 & H1).
  destruct (equals_run s b a r' c' eb r c ea Hb Ha) as (res2 & E2 & H2).
  rewrite E1, E2. f_equal.
  assert (res1 = true ↔ res2 = true) as Hiff.
  { rewrite H1, H2. split.
    - intros (-> & -> & H). repeat (split; [reflexivity|]).
      intros i j Hi Hj. apply double_eq_sym, H; assumption.
    - intros (-> & -> & H). repeat (split; [reflexivity|]).
      intros i j Hi Hj. apply double_eq_sym, H; assumption. }
  destruct res1, res2; try reflexivity; destruct Hiff as [H12 H21].
  - symmetry. by apply H12.
  - by apply H21.
Qed.

Lemma equals_symmetric_witness :
  equals 1%positive 2%positive two_matrices
  = equals 2%positive 1%positive two_matrices.
Proof.
  apply (equals_symmetric two_matrices 1%positive 2%positive 1 2 [1; 2]%float
           1 1 [3]%float); [exact two_matrices_1 | exact two_matrices_2].
Defined.

Lemma cell_of_position r c (k : nat) :
  0 <= r → 0 <= c → Z.of_nat k < r * c →
  ∃ i j, 0 <= i < r ∧ 0 <= j < c ∧ offset c i j = k.
Proof.
  intros Hr Hc Hk.
  assert (0 < c) as Hc' by nia.
  exists (Z.of_nat k `div` c), (Z.of_nat k `mod` c).
  pose proof (Z.div_mod (Z.of_nat k) c ltac:(lia)) as E.
  pose proof (Z.mod_pos_bound (Z.of_nat k) c Hc') as Hm.
  pose proof (Z.div_pos (Z.of_nat k) c ltac:(lia) Hc') as Hd.
  split; [|split].
  - split; [exact Hd|]. apply Z.div_lt_upper_bound; lia.
  - exact Hm.
  - unfold offset. rewrite <- E. apply Nat2Z.id.
Qed.

(** X11: two matrices with the same contents (a matrix and itself, a
    matrix and its copy) compare equal exactly when no element is a NaN. *)
Theorem equals_same_contents s a b r c els :
  is_matrix s a r c els → is_matrix s b r c els →
  ∃ res, equals a b s = Ok res s ∧
         (res = true ↔ ∀ x, x ∈ els → is_nan x = false).
Proof.
  intros Ha Hb.
  destruct (equals_run s a b r c els r c els Ha Hb) as (res & E & H).
  exists res. split; [exact E|]. rewrite H. clear H E.
  pose proof Ha as (_ & _ & _ & _ & Rr & Rc & Hlen & _)%is_matrix_elim.
  assert (∀ x, double_eq x x ↔ is_nan x = false) as Hnan.
  { intros x. unfold double_eq, is_nan. by destruct (PrimFloat.eqb x x). }
  split.
  - intros (_ & _ & Hc) x (k & Hk)%list_elem_of_lookup_1.
    pose proof (lookup_lt_Some _ _ _ Hk) as Hlt.
    destruct (cell_of_position r c k) as (i & j & Hi & Hj & Ek);
      [unfold in_range in *; lia.. |].
    specialize (Hc i j Hi Hj). rewrite Ek in Hc.
    rewrite (list_lookup_total_correct _ _ _ Hk) in Hc. by apply Hnan.
  - intros Hall. repeat (split; [reflexivity|]).
    intros i j Hi Hj. apply Hnan, Hall.
    apply list_elem_of_lookup_total_2.
    pose proof (offset_in_range r c i j Hi Hj). unfold offset. lia.
Qed.

Lemma equals_same_contents_witness :
  ∃ res, equals 1%positive 1%positive two_matrices = Ok res two_matrices ∧
         (res = true ↔ ∀ x, x ∈ [1; 2]%float → is_nan x = false).
Proof.
  apply (equals_same_contents two_matrices 1%positive 1%positive 1 2 [1; 2]%float);
    exact two_matrices_1.
Defined.

(** ** Copy assignment in place *)

(** X12: copy assignment between two matrices of the same shape copies in
    place: the objects are as they were, no array is released or
    allocated, and the destination's array now holds the source's
    elements. *)
Theorem copy_assign_in_place s dst src r c els els' :
  dst ≠ src → is_matrix s src r c els → is_matrix s dst r c els' →
  separate s dst src →
  returns (copy_assign dst src) s (λ _ s',
    objs s' = objs s ∧ dom (bufs s') = dom (bufs s) ∧
    is_matrix s' dst r c els ∧ is_matrix s' src r c els).
Proof.
  intros Hne Hm Hdst Hsep.
  pose proof Hm as (mo & Eo & Hr & Hc & Rr & Rc & Hlen & Hvec & Hdo)%is_matrix_elim.
  pose proof Hdst as (md & Ed & Hr' & Hc' & _ & _ & Hlen' & _ & Hdd)%is_matrix_elim.
  assert (objs s !! dst = Some (mkMatrix r c (data md))) as Ed'.
  { rewrite Ed. f_equal. rewrite <- Hr', <- Hc'. symmetry. apply Matrix_eta. }
  assert (copy_assign dst src s = Ok tt (set_contents s (data md) els)) as E.
  { unfold copy_assign. rewrite decide_False by exact Hne.
    rewrite (bind_ok _ _ _ _ _ (get_obj_ok _ _ _ Ed)).
    rewrite (bind_ok _ _ _ _ _ (get_obj_ok _ _ _ Eo)).
    rewrite Hr, Hc, Hr', Hc'.
    rewrite decide_False by (intros [?|?]; congruence).
    rewrite bind_unfold. cbv [mret M_ret ret].
    apply (copy_elements_fill s dst src r c (data md) els' els Ed' Hm Hlen').
    - destruct (data md) as [a|]; [apply Hdd|]. subst els'. cbn in Hlen'. lia.
    - intros mo' a Eo' Ea. by apply (Hsep md mo' a). }
  apply (returns_intro _ _ _ _ _ E).
  destruct (data md) as [a|] eqn:Ea; cbn [set_contents].
  - destruct Hdd as [Hnil Hb]. split; [reflexivity|]. split; [|split].
    + cbn. rewrite dom_insert_L. apply elem_of_dom_2 in Hb.
      apply subseteq_union_1_L. by apply singleton_subseteq_l.
    + apply (is_matrix_intro _ _ md); try assumption.
      rewrite Ea. split; [|cbn; apply lookup_insert_eq].
      intros ->. apply Hnil. apply length_zero_iff_nil. cbn in Hlen. lia.
    + apply (is_matrix_set_contents s src r c els (Some a) els Hm).
      intros mo' a' Eo' [= <-]. by apply (Hsep md mo' a).
  - subst els'. assert (els = []) as ->
      by (apply length_zero_iff_nil; cbn in Hlen'; lia).
    split; [reflexivity|]. split; [reflexivity|]. split; assumption.
Qed.

Lemma copy_assign_in_place_witness :
  returns (copy_assign 1%positive 2%positive) special_values (λ _ s',
    objs s' = objs special_values ∧ dom (bufs s') = dom (bufs special_values) ∧
    is_matrix s' 1%positive 1 1 [(-0)]%float ∧
    is_matrix s' 2%positive 1 1 [(-0)]%float).
Proof.
  apply (copy_assign_in_place special_values 1%positive 2%positive 1 1
           [(-0)]%float [0]%float).
  - discriminate.
  - matrix_solve.
  - matrix_solve.
  - intros m1 m2 a H1 H2 E1 E2.
    vm_compute in H1, H2. injection H1 as <-. injection H2 as <-.
    cbn in E1, E2. rewrite <- E1 in E2. discriminate E2.
Defined.

(** ** Naive multiplication: the store it leaves *)

(** The buffer pointer of the matrix [fresh_matrix] adds *)
Lemma fresh_matrix_object s r c els :
  objs (fresh_matrix s r c els) !! fresh (dom (objs s))
  = Some (mkMatrix r c (fresh_data s r c)).
Proof.
  unfold fresh_matrix, fresh_data. case_decide; cbn; apply lookup_insert_eq.
Qed.

Lemma fresh_matrix_contents s r c els buf :
  set_contents (fresh_matrix s r c els) (fresh_data s r c) buf
  = fresh_matrix s r c buf.
Proof.
  unfold fresh_matrix, fresh_data. case_decide; cbn; [|reflexivity].
  unfold with_buf. cbn. by rewrite insert_insert_eq.
Qed.

Lemma fresh_matrix_keeps s x r c els r' c' buf :
  is_matrix s x r c els →
  is_matrix (fresh_matrix s r' c' buf) x r c els ∧
  ∀ mo ac, objs (fresh_matrix s r' c' buf) !! x = Some mo →
           fresh_data s r' c' = Some ac → data mo ≠ Some ac.
Proof.
  intros Hx.
  pose proof Hx as (mx & Ex & _ & _ & _ & _ & _ & _ & Hd)%is_matrix_elim.
  assert (x ≠ fresh (dom (objs s))) as Hne.
  { intros ->. by rewrite fresh_obj_None in Ex. }
  assert (objs (fresh_matrix s r' c' buf) !! x = objs s !! x) as Eo.
  { unfold fresh_matrix. case_decide; cbn; by rewrite lookup_insert_ne. }
  split.
  - apply (is_matrix_transfer s _ x x _ _ _ Hx Eo).
    intros a' b' Hab. unfold fresh_matrix. case_decide; cbn; [|exact Hab].
    rewrite lookup_insert_ne; [exact Hab|].
    intros <-. by rewrite fresh_buf_None in Hab.
  - intros mo ac Emo Eac Edata. rewrite Eo, Ex in Emo. injection Emo as <-.
    unfold fresh_data in Eac. case_decide; [|discriminate]. injection Eac as <-.
    rewrite Edata in Hd. destruct Hd as [_ Hb]. by rewrite fresh_buf_None in Hb.
Qed.

Lemma Matrix_new_state s r c :
  in_range r → in_range c → sizeof_double * (r * c) < modulus →
  Matrix_new r c s
  = Ok (fresh (dom (objs s)))
       (fresh_matrix s r c (replicate (Z.to_nat (r * c)) 0%float)).
Proof.
  intros Rr Rc Hsz.
  assert (0 <= r * c < modulus) as Hrc by (unfold in_range, sizeof_double in *; nia).
  rewrite Matrix_new_eq by (rewrite wmul_small by exact Hrc; exact Hsz).
  f_equal. unfold fresh_matrix.
  destruct (reset_result_None (born s (mkMatrix r c None)) (fresh (dom (objs s))) r c)
    as [[Hz E]|[Hnz E]]; rewrite E; clear E; rewrite wmul_small in * by exact Hrc; cbn.
  - rewrite decide_False by lia. by rewrite insert_insert_eq.
  - rewrite decide_True by exact Hnz. by rewrite insert_insert_eq.
Qed.

(** The operands and the result object, in the store in which the loops
    of a multiplication run *)
Lemma product_setting s a b m n p ea eb buf :
  is_matrix s a m n ea → is_matrix s b n p eb →
  let st := fresh_matrix s m p buf in
  let d := fresh_data s m p in
  is_matrix st a m n ea ∧ is_matrix st b n p eb ∧
  objs st !! fresh (dom (objs s)) = Some (mkMatrix m p d) ∧
  match d with
  | Some ac =>
      (∀ mo, objs st !! a = Some mo → data mo ≠ Some ac) ∧
      (∀ mo, objs st !! b = Some mo → data mo ≠ Some ac)
  | None => m * p = 0
  end.
Proof.
  intros Ha Hb st d.
  destruct (fresh_matrix_keeps s a m n ea m p buf Ha) as [Ha' Sa].
  destruct (fresh_matrix_keeps s b n p eb m p buf Hb) as [Hb' Sb].
  split; [exact Ha'|]. split; [exact Hb'|].
  split; [apply fresh_matrix_object|].
  destruct d as [ac|] eqn:Ed.
  - split; intros mo Emo; [by apply (Sa mo ac) | by apply (Sb mo ac)].
  - unfold d, fresh_data in Ed. case_decide; [discriminate|lia].
Qed.

Lemma multiply_naive_exact s a b m n p ea eb :
  is_matrix s a m n ea → is_matrix s b n p eb →
  sizeof_double * (m * p) < modulus →
  ∃ ec, multiply_naive a b s
        = Ok (fresh (dom (objs s))) (fresh_matrix s m p ec) ∧
        Z.of_nat (length ec) = m * p ∧
        ∀ i k, 0 <= i < m → 0 <= k < p →
               ec !!! offset p i k = dot ea eb n p i k.
Proof.
  intros Ha Hb Hsz.
  destruct (is_matrix_sizeof _ _ _ _ _ Ha) as (Rm & _ & _ & _).
  destruct (is_matrix_sizeof _ _ _ _ _ Hb) as (_ & Rp & _ & _).
  assert (0 <= m * p < modulus) as Hmp
    by (unfold in_range, sizeof_double in *; nia).
  pose proof Ha as (ma & Ea & Hra & Hca & _)%is_matrix_elim.
  pose proof Hb as (mb & Eb & Hrb & Hcb & _)%is_matrix_elim.
  set (zeros := replicate (Z.to_nat (m * p)) 0%float).
  destruct (product_setting s a b m n p ea eb zeros Ha Hb) as (Ha' & Hb' & Ho & Hd).
  set (st := fresh_matrix s m p zeros) in *.
  set (d := fresh_data s m p) in *.
  set (o := fresh (dom (objs s))) in *.
  assert (progress m n p ea eb zeros (naive_progress n p 0 0)) as H0.
  { eapply progress_ext; [apply progress_zeros; lia|].
    intros i k Hi Hk. pose proof (offset_in_range m p i k Hi Hk).
    unfold naive_progress. repeat case_decide; lia. }
  pose proof (naive_all_spec st a b o m n p ea eb d Ha' Hb' Ho Rm Rp
                ltac:(lia) Hd _ H0) as Hloops.
  apply returns_elim in Hloops as ([] & s' & Eloops & buf' & -> & Hdone).
  unfold cur in Eloops. unfold st, d in Eloops.
  rewrite !fresh_matrix_contents in Eloops.
  exists buf'. split; [|split].
  - unfold multiply_naive.
    rewrite (bind_ok _ _ _ _ _ (get_obj_ok _ _ _ Ea)).
    rewrite (bind_ok _ _ _ _ _ (get_obj_ok _ _ _ Eb)).
    rewrite decide_False by (intros H; apply H; congruence).
    rewrite Hra, Hcb, Hca.
    rewrite (bind_ok _ _ _ _ _ (Matrix_new_state s m p Rm Rp Hsz)).
    unfold naive_cell in Eloops. fold o. fold zeros.
    rewrite (bind_ok _ _ _ _ _ Eloops). reflexivity.
  - apply Hdone.
  - by apply (progress_complete m n p ea eb).
Qed.

Lemma fresh_matrix_is_matrix s r c els :
  in_range r → in_range c → sizeof_double * (r * c) < modulus →
  Z.of_nat (length els) = r * c →
  is_matrix (fresh_matrix s r c els) (fresh (dom (objs s))) r c els.
Proof.
  intros Rr Rc Hsz Hlen.
  rewrite <- (fresh_matrix_contents s r c els els).
  apply result_matrix; try assumption; [apply fresh_matrix_object|].
  unfold fresh_data. case_decide; lia.
Qed.

(** X13: [multiply_naive] changes nothing and leaves nothing behind but
    its result: the store it returns is the store it was called in with
    one more object, the product, and that matrix's array. *)
Theorem multiply_naive_adds_result s a b m n p ea eb :
  is_matrix s a m n ea → is_matrix s b n p eb →
  sizeof_double * (m * p) < modulus →
  returns (multiply_naive a b) s (λ o s',
    o = fresh (dom (objs s)) ∧
    ∃ ec, s' = fresh_matrix s m p ec ∧ is_matrix s' o m p ec ∧
          ∀ i k, 0 <= i < m → 0 <= k < p →
                 ec !!! offset p i k = dot ea eb n p i k).
Proof.
  intros Ha Hb Hsz.
  destruct (is_matrix_sizeof _ _ _ _ _ Ha) as (Rm & _ & _ & _).
  destruct (is_matrix_sizeof _ _ _ _ _ Hb) as (_ & Rp & _ & _).
  destruct (multiply_naive_exact s a b m n p ea eb Ha Hb Hsz) as (ec & E & Hlen & Hc).
  apply (returns_intro _ _ _ _ _ E). split; [reflexivity|].
  exists ec. split; [reflexivity|]. split; [|exact Hc].
  by apply fresh_matrix_is_matrix.
Qed.

Lemma multiply_naive_adds_result_witness :
  returns (multiply_naive 1%positive 2%positive) worked_example (λ o s',
    o = fresh (dom (objs worked_example)) ∧
    ∃ ec, s' = fresh_matrix worked_example 2 2 ec ∧ is_matrix s' o 2 2 ec ∧
          ∀ i k, 0 <= i < 2 → 0 <= k < 2 →
                 ec !!! offset 2 i k
                 = dot [1; 2; 3; 4; 5; 6]%float [7; 8; 9; 10; 11; 12]%float 3 2 i k).
Proof.
  apply (multiply_naive_adds_result worked_example 1%positive 2%positive 2 3 2
           [1; 2; 3; 4; 5; 6]%float [7; 8; 9; 10; 11; 12]%float);
    [exact worked_example_1 | exact worked_example_2 | size_t_solve].
Defined.



(** ** Export and import *)

(** X15: building a matrix from the flat export of a matrix [m], with
    [m]'s dimensions, is copying [m]: the two return the same object in
    the same store, a matrix with [m]'s contents in an array of its own. *)
Theorem rebuild_is_copy s m r c els :
  is_matrix s m r c els →
  (v ← to_vector m; Matrix_new_vec r c v) s = Matrix_copy m s ∧
  returns (Matrix_copy m) s (λ cp s',
    objs s !! cp = None ∧ s' = fresh_matrix s r c els ∧ is_matrix s' cp r c els).
Proof.
  intros Hm.
  pose proof Hm as (_ & _ & _ & _ & Rr & Rc & Hlen & _)%is_matrix_elim.
  pose proof (is_matrix_sizeof _ _ _ _ _ Hm) as (_ & _ & _ & Hsz).
  split.
  - rewrite (bind_ok _ _ _ _ _ (to_vector_matrix _ _ _ _ _ Hm)).
    rewrite (Matrix_new_vec_eq s r c els Rr Rc Hsz Hlen).
    by rewrite (Matrix_copy_eq s m r c els Hm).
  - apply (returns_intro _ _ _ _ _ (Matrix_copy_eq s m r c els Hm)).
    split; [apply fresh_obj_None|]. split; [reflexivity|].
    by apply fresh_matrix_is_matrix.
Qed.

Lemma rebuild_is_copy_witness :
  (v ← to_vector 1%positive; Matrix_new_vec 1 2 v) two_matrices
  = Matrix_copy 1%positive two_matrices ∧
  returns (Matrix_copy 1%positive) two_matrices (λ cp s',
    objs two_matrices !! cp = None ∧
    s' = fresh_matrix two_matrices 1 2 [1; 2]%float ∧
    is_matrix s' cp 1 2 [1; 2]%float).
Proof.
  apply (rebuild_is_copy two_matrices 1%positive 1 2 [1; 2]%float).
  exact two_matrices_1.
Defined.

(** ** Tiled multiplication with a square second operand *)

Lemma multiply_tile_exact s a b m n ea eb tile_size fuel :
  is_matrix s a m n ea → is_matrix s b n n eb →
  1 <= tile_size → tiles_fit m tile_size → tiles_fit n tile_size →
  (Z.to_nat (Z.max m n) < fuel)%nat →
  ∃ ec, multiply_tile fuel a b tile_size s
        = Ok (fresh (dom (objs s))) (fresh_matrix s m n ec) ∧
        Z.of_nat (length ec) = m * n ∧
        ∀ i j, 0 <= i < m → 0 <= j < n →
               ec !!! offset n i j = dot ea eb n n i j.
Proof.
  intros Ha Hb Htile Hfm Hfn Hfuel.
  destruct (is_matrix_sizeof _ _ _ _ _ Ha) as (Rm & Rn & Hpos & Hsz).
  assert (0 <= m * n < modulus) as Hmn by (unfold sizeof_double in *; lia).
  pose proof Ha as (ma & Ea & Hra & Hca & _)%is_matrix_elim.
  pose proof Hb as (mb & Eb & Hrb & Hcb & _)%is_matrix_elim.
  set (zeros := replicate (Z.to_nat (m * n)) 0%float).
  destruct (product_setting s a b m n n ea eb zeros Ha Hb) as (Ha' & Hb' & Ho & Hd).
  set (st := fresh_matrix s m n zeros) in *.
  set (d := fresh_data s m n) in *.
  set (o := fresh (dom (objs s))) in *.
  assert (holds st m n ea eb d (λ _ _, 0) st) as H0.
  { exists zeros. split.
    - unfold cur, st, d. by rewrite fresh_matrix_contents.
    - apply progress_zeros. lia. }
  pose proof (tile_loops_spec st a b o m n ea eb d tile_size fuel
                Ha' Hb' Ho ltac:(lia) Hd Htile Hfm Hfn Hfuel _ H0) as Hloops.
  apply returns_elim in Hloops as ([] & s' & Eloops & buf' & -> & Hdone).
  unfold cur, st, d in Eloops. rewrite fresh_matrix_contents in Eloops.
  exists buf'. split; [|split].
  - unfold multiply_tile.
    rewrite (bind_ok _ _ _ _ _ (get_obj_ok _ _ _ Ea)).
    rewrite (bind_ok _ _ _ _ _ (get_obj_ok _ _ _ Eb)).
    rewrite decide_False by (intros H; apply H; congruence).
    cbv zeta. rewrite Hra, Hcb, Hca.
    rewrite (bind_ok _ _ _ _ _ (Matrix_new_state s m n Rm Rn Hsz)).
    unfold tile_loops, tile_k_loop, tile_j_loop, tile_block, tile_row, tile_sweep
      in Eloops.
    fold o zeros. rewrite (bind_ok _ _ _ _ _ Eloops). reflexivity.
  - apply Hdone.
  - by apply (progress_complete m n n ea eb).
Qed.

(** X16: with a square second operand, [multiply_tile] is
    [multiply_naive]: for every tile size of at least 1 whose tiles fit,
    the two calls return the same object in the same store, the product
    with every element rounded the same way, since each cell receives its
    terms in the same order. *)
Theorem multiply_tile_is_naive s a b m n ea eb tile_size fuel :
  is_matrix s a m n ea → is_matrix s b n n eb →
  1 <= tile_size → tiles_fit m tile_size → tiles_fit n tile_size →
  (Z.to_nat (Z.max m n) < fuel)%nat →
  multiply_tile fuel a b tile_size s = multiply_naive a b s ∧
  returns (multiply_naive a b) s (λ o s', ∃ ec, is_matrix s' o m n ec).
Proof.
  intros Ha Hb Htile Hfm Hfn Hfuel.
  destruct (is_matrix_sizeof _ _ _ _ _ Ha) as (Rm & Rn & Hpos & Hsz).
  destruct (multiply_tile_exact s a b m n ea eb tile_size fuel
              Ha Hb Htile Hfm Hfn Hfuel) as (e2 & E2 & Hl2 & Hc2).
  destruct (multiply_naive_exact s a b m n n ea eb Ha Hb Hsz)
    as (e1 & E1 & Hl1 & Hc1).
  assert (e2 = e1) as ->.
  { apply (cells_ext m n); [exact Hl2 | exact Hl1 | apply Rm | apply Rn |].
    intros i j Hi Hj. by rewrite Hc1, Hc2. }
  split; [by rewrite E1, E2|].
  apply (returns_intro _ _ _ _ _ E1). exists e1.
  by apply fresh_matrix_is_matrix.
Qed.

Lemma multiply_tile_is_naive_witness :
  multiply_tile 4 1%positive 2%positive 2 square_example
  = multiply_naive 1%positive 2%positive square_example ∧
  returns (multiply_naive 1%positive 2%positive) square_example
    (λ o s', ∃ ec, is_matrix s' o 2 3 ec).
Proof.
  apply (multiply_tile_is_naive square_example 1%positive 2%positive 2 3
           [1; 2; 3; 4; 5; 6]%float [1; 2; 3; 4; 5; 6; 7; 8; 9]%float 2 4).
  - matrix_solve.
  - matrix_solve.
  - lia.
  - right. vm_compute. reflexivity.
  - right. vm_compute. reflexivity.
  - vm_compute. lia.
Defined.

(** ** Tiled multiplication with a second operand that is not square *)
















Section Overrun.

Variables (st : state) (a b o : loc) (m n p : Z).
Variables (tile_size : Z) (fuel : nat).
Hypothesis Htile : 1 <= tile_size.
Hypothesis Hfit_m : tiles_fit m tile_size.
Hypothesis Hfit_n : tiles_fit n tile_size.
Hypothesis Hfit_p : tiles_fit p tile_size.
Hypothesis Hfuel : (Z.to_nat (Z.max m (Z.max n p)) < fuel)%nat.
Hypothesis Hm : 1 <= m.


End Overrun.



(** ** Tiled multiplication: empty operands and tile size zero *)


Lemma for_step_none fuel x hi step (body : Z → M unit) s :
  hi <= x → (0 < fuel)%nat → for_step fuel x hi step body s = Ok tt s.
Proof.
  intros Hx Hfuel. destruct fuel as [|fuel]; [lia|].
  cbn [for_step]. by rewrite decide_False by lia.
Qed.



(** A loop with stride 0 whose first iteration leaves the store alone, or
    does not come to an end itself, does not come to an end. *)
Lemma for_step_stuck fuel hi (body : Z → M unit) s :
  0 < hi →
  body 0 s = Ok tt s ∨ body 0 s = OutOfFuel →
  for_step fuel 0 hi 0 body s = OutOfFuel.
Proof.
  intros Hhi Hbody. induction fuel as [|fuel IH]; [reflexivity|].
  cbn [for_step]. rewrite decide_True by exact Hhi.
  destruct Hbody as [E|E].
  - rewrite (bind_ok _ _ _ _ _ E). exact IH.
  - by rewrite bind_unfold, E.
Qed.

(** X19: a tile size of 0 is not rejected: when the first operand has at
    least one row, the tile counters never advance and the call does not
    return, whatever fuel it is given. *)
Theorem multiply_tile_zero_tile s a b m n p ea eb fuel :
  is_matrix s a m n ea → is_matrix s b n p eb →
  1 <= m → sizeof_double * (m * p) < modulus →
  multiply_tile fuel a b 0 s = OutOfFuel.
Proof.
  intros Ha Hb Hm Hsz.
  destruct (is_matrix_sizeof _ _ _ _ _ Ha) as (Rm & Rn & _ & _).
  destruct (is_matrix_sizeof _ _ _ _ _ Hb) as (_ & Rp & _ & _).
  pose proof Ha as (ma & Ea & Hra & Hca & _)%is_matrix_elim.
  pose proof Hb as (mb & Eb & Hrb & Hcb & _)%is_matrix_elim.
  set (zeros := replicate (Z.to_nat (m * p)) 0%float).
  set (st := fresh_matrix s m p zeros).
  set (o := fresh (dom (objs s))).
  assert (tile_nest a b o m n p 0 fuel st = OutOfFuel) as Eloops.
  { unfold tile_nest. destruct fuel as [|fuel]; [reflexivity|].
    apply for_step_stuck; [lia|].
    destruct (decide (0 < p)) as [Hp|Hp];
      [|left; apply for_step_none; lia].
    right. apply for_step_stuck; [lia|].
    destruct (decide (0 < n)) as [Hn|Hn];
      [|left; apply for_step_none; lia].
    right. apply for_step_stuck; [lia|].
    left. unfold tile_block. apply for_range_empty.
    rewrite size_min_eq. change (wadd 0 0) with 0. lia. }
  unfold multiply_tile.
  rewrite (bind_ok _ _ _ _ _ (get_obj_ok _ _ _ Ea)).
  rewrite (bind_ok _ _ _ _ _ (get_obj_ok _ _ _ Eb)).
  rewrite decide_False by (intros H; apply H; congruence).
  cbv zeta. rewrite Hra, Hcb, Hca.
  rewrite (bind_ok _ _ _ _ _ (Matrix_new_state s m p Rm Rp Hsz)).
  fold o zeros st. unfold tile_nest, tile_block, tile_row, tile_sweep in Eloops.
  by rewrite bind_unfold, Eloops.
Qed.

Lemma multiply_tile_zero_tile_witness :
  multiply_tile 1000 1%positive 2%positive 0 square_example = OutOfFuel.
Proof.
  apply (multiply_tile_zero_tile square_example 1%positive 2%positive 2 3 3
           [1; 2; 3; 4; 5; 6]%float [1; 2; 3; 4; 5; 6; 7; 8; 9]%float 1000).
  - matrix_solve.
  - matrix_solve.
  - lia.
  - size_t_solve.
Defined.

(** ** Multiplication through the BLAS: the call *)



(** ** Ownership of the arrays *)

Lemma owned_with_buf s a buf :
  owned s → is_Some (bufs s !! a) → owned (with_buf s a buf).
Proof.
  intros H Ha a' Ha'. apply H. cbn in Ha'.
  destruct (decide (a' = a)) as [->|Hne]; [exact Ha|].
  by rewrite lookup_insert_ne in Ha'.
Qed.

Lemma safe_elem_set_owned o i j v s E :
  owned s → safe (elem_set o i j v) s (λ _, owned) E.
Proof.
  intros H. unfold elem_set. apply safe_bind, safe_get_obj. intros m _.
  unfold safe, write_elem. destruct (data m) as [a|]; [|exact I].
  destruct (bufs s !! a) as [buf|] eqn:Hb; [|exact I].
  case_decide; [|exact I].
  apply (owned_with_buf s a); [exact H | by rewrite Hb].
Qed.

(** Once its array is released, an object owns nothing. *)
Lemma owned_dropped s this m0 :
  objs s !! this = Some m0 → owned s →
  owned (mkState (objs s) (drop_buf (data m0) (bufs s))) ∧
  owned_without (mkState (objs s) (drop_buf (data m0) (bufs s))) this.
Proof.
  intros Ho H.
  assert (∀ a, is_Some (drop_buf (data m0) (bufs s) !! a) →
               is_Some (bufs s !! a) ∧ data m0 ≠ Some a) as Hrest.
  { intros a Ha. destruct (data m0) as [a0|]; cbn in Ha; [|done].
    destruct (decide (a = a0)) as [->|Hne].
    - rewrite lookup_delete_eq in Ha. by destruct Ha.
    - rewrite lookup_delete_ne in Ha by done. split; [exact Ha | congruence]. }
  split.
  - intros a Ha. apply H. by apply Hrest.
  - intros a Ha. cbn in Ha. destruct (Hrest a Ha) as [Hlive Hne].
    destruct (H a Hlive) as (o & M & HM & Hd).
    exists o, M. split; [|exact Hd]. cbn.
    rewrite lookup_delete_ne; [exact HM|]. intros <-. congruence.
Qed.

Lemma owned_reset s this m0 r c :
  objs s !! this = Some m0 → owned s →
  owned (reset_result s this r c (data m0)) ∧
  (wmul r c = 0 → owned_without (reset_result s this r c (data m0)) this).
Proof.
  intros Ho H.
  destruct (owned_dropped s this m0 Ho H) as [_ Hw].
  assert (∀ M, owned (mkState (<[this := M]> (objs s)) (drop_buf (data m0) (bufs s))))
    as Hkeep.
  { intros M a Ha. destruct (Hw a Ha) as (o & Mo & HMo & Hd). cbn in HMo.
    exists o, Mo. split; [|exact Hd]. cbn.
    destruct (decide (o = this)) as [->|Hne].
    - by rewrite lookup_delete_eq in HMo.
    - rewrite lookup_delete_ne in HMo by done. by rewrite lookup_insert_ne. }
  destruct (reset_result_cases s this r c (data m0)) as [[Hz E]|[Hnz E]];
    rewrite E; clear E.
  - split; [apply Hkeep|]. intros _ a Ha.
    destruct (Hw a Ha) as (o & Mo & HMo & Hd).
    exists o, Mo. split; [|exact Hd]. cbn in *. by rewrite delete_insert_eq.
  - split; [|done]. intros a Ha. cbn in Ha.
    destruct (decide (a = fresh (dom (drop_buf (data m0) (bufs s))))) as [->|Hne].
    + eexists this, _. cbn. rewrite lookup_insert_eq. split; reflexivity.
    + rewrite lookup_insert_ne in Ha by done.
      destruct (Hkeep (mkMatrix r c (Some (fresh (dom (drop_buf (data m0) (bufs s))))))
                  a Ha) as (o & Mo & HMo & Hd).
      by exists o, Mo.
Qed.

Lemma safe_reset_buffer_owned s this r c :
  owned s →
  safe (reset_buffer this r c) s
    (λ _ s', owned s' ∧ (wmul r c = 0 → owned_without s' this))
    (λ s', owned s' ∧ owned_without s' this).
Proof.
  intros H. unfold safe.
  destruct (objs s !! this) as [m0|] eqn:Ho.
  - assert ((∀ a, data m0 = Some a → is_Some (bufs s !! a)) ∨
            ∃ a, data m0 = Some a ∧ bufs s !! a = None) as [Hv|(a & Ed & Hb)].
    { destruct (data m0) as [a|]; [|left; discriminate].
      destruct (bufs s !! a) eqn:Hb; [|right; eauto].
      left. intros a' [= <-]. by rewrite Hb. }
    + destruct (decide (sizeof_double * wmul r c < modulus)) as [Hsz|Hsz].
      * rewrite (reset_buffer_eq s this m0 r c Ho Hv Hsz). by apply owned_reset.
      * rewrite (reset_buffer_throw s this m0 r c Ho Hv Hsz). by apply owned_dropped.
    + (* the array is not live: [delete[]] on it is undefined *)
      unfold reset_buffer. rewrite (bind_ok _ _ _ _ _ (get_obj_ok _ _ _ Ho)).
      rewrite bind_unfold, Ed. unfold delete_array. by rewrite Hb.
  - unfold reset_buffer. rewrite bind_unfold. unfold get_obj. by rewrite Ho.
Qed.

Lemma owned_born s init : owned s → owned (born s init).
Proof.
  intros H a Ha. destruct (H a Ha) as (o & M & HM & Hd).
  exists o, M. split; [|exact Hd]. unfold born. cbn.
  rewrite lookup_insert_ne; [exact HM|].
  intros <-. by rewrite fresh_obj_None in HM.
Qed.

(** A constructor whose body keeps the arrays owned, and which, when it
    throws, has left no array to the object under construction *)
Lemma safe_constructor_owned init body s :
  safe (body (fresh (dom (objs s)))) (born s init)
    (λ _, owned) (λ s2, owned_without s2 (fresh (dom (objs s)))) →
  safe (construct init body) s (λ _, owned) owned.
Proof. intros H. apply safe_construct. exact H. Qed.

Lemma copy_elements_owned s this other (E : state → Prop) :
  owned s → safe (copy_elements this other) s (λ _, owned) E.
Proof.
  intros H. unfold copy_elements. apply safe_bind, safe_get_obj. intros m _.
  apply safe_for_range; [exact H|]. intros i [] s1 H1.
  apply safe_for_range; [exact H1|]. intros j [] s2 H2.
  apply safe_bind, safe_elem_get. intros x. by apply safe_elem_set_owned.
Qed.

Lemma assign_vector_owned s this v :
  owned s → safe (assign_vector this v) s (λ _, owned) owned.
Proof.
  intros H. unfold assign_vector. apply safe_bind, safe_get_obj. intros m _.
  case_decide; [by apply safe_throw|].
  apply safe_bind.
  eapply (safe_mono _ _ (λ _, owned) _ owned);
    [| intros ? ? Hs; exact Hs | done].
  apply safe_for_range; [exact H|]. intros i k s1 H1.
  apply safe_for_range; [exact H1|]. intros j k' s2 H2.
  apply safe_bind, safe_vec_at. intros x.
  apply safe_bind. eapply safe_mono; [by apply safe_elem_set_owned | | done].
  intros [] s3 H3. exact H3.
Qed.

Lemma Matrix_new_owned s r c :
  owned s → safe (Matrix_new r c) s (λ _, owned) owned.
Proof.
  intros H. unfold Matrix_new. apply safe_constructor_owned.
  apply safe_bind, safe_get_obj. intros m _.
  eapply safe_mono; [apply safe_reset_buffer_owned, owned_born, H | |].
  - by intros _ s' [? _].
  - by intros s' [_ ?].
Qed.

(** The constructor from a vector, when it returns *)
Lemma Matrix_new_vec_owned s r c v :
  owned s → safe (Matrix_new_vec r c v) s (λ _, owned) (λ _, True).
Proof.
  intros H. unfold Matrix_new_vec. apply safe_construct.
  apply safe_bind.
  eapply safe_mono; [apply safe_reset_buffer_owned, owned_born, H | | done].
  cbn beta. intros _ s1 [H1 _].
  eapply safe_mono; [by apply assign_vector_owned | done | done].
Qed.

Lemma Matrix_copy_owned s other :
  owned s → safe (Matrix_copy other) s (λ _, owned) owned.
Proof.
  intros H. unfold Matrix_copy. apply safe_bind, safe_get_obj. intros mo _.
  apply safe_constructor_owned.
  apply safe_bind, safe_get_obj. intros mo' _.
  apply safe_bind.
  eapply safe_mono; [apply safe_reset_buffer_owned, owned_born, H | |].
  - cbn beta. intros _ s1 [H1 _]. by apply copy_elements_owned.
  - by intros s' [_ ?].
Qed.

Lemma copy_assign_owned s this other :
  owned s → safe (copy_assign this other) s (λ _, owned) owned.
Proof.
  intros H. unfold copy_assign. case_decide; [exact H|].
  apply safe_bind, safe_get_obj. intros m _.
  apply safe_bind, safe_get_obj. intros mo _.
  apply safe_bind. case_decide.
  - eapply safe_mono; [by apply safe_reset_buffer_owned | |].
    + cbn beta. intros _ s1 [Hs1 _]. by apply copy_elements_owned.
    + by intros s' [? _].
  - apply safe_ret. by apply copy_elements_owned.
Qed.

Lemma owned_swap s x y mx my :
  owned s → objs s !! x = Some mx → objs s !! y = Some my →
  owned (mkState (<[x := my]> (<[y := mx]> (objs s))) (bufs s)).
Proof.
  intros H Ex Ey a Ha. destruct (H a Ha) as (o & M & HM & Hd). cbn.
  destruct (decide (o = x)) as [->|Hox].
  { (* what [x] owned, [y] owns, unless they are one object *)
    destruct (decide (x = y)) as [->|Hxy].
    - exists y, my. rewrite lookup_insert_eq. split; [reflexivity|]. congruence.
    - exists y, mx. rewrite lookup_insert_ne, lookup_insert_eq by done.
      split; [reflexivity|]. congruence. }
  destruct (decide (o = y)) as [->|Hoy].
  { exists x, my. rewrite lookup_insert_eq. split; [reflexivity|]. congruence. }
  exists o, M. by rewrite !lookup_insert_ne.
Qed.

Lemma move_assign_owned s this other :
  owned s → safe (move_assign this other) s (λ _, owned) owned.
Proof.
  intros H. unfold safe.
  destruct (decide (this = other)) as [->|Hne].
  { unfold move_assign. rewrite decide_True by done. exact H. }
  destruct (objs s !! this) as [my|] eqn:Ey;
    [destruct (objs s !! other) as [mx|] eqn:Ex|].
  - rewrite (move_assign_eq s other this mx my Hne Ex Ey).
    by apply owned_swap.
  - unfold move_assign, swap_nrow. rewrite decide_False by done.
    rewrite bind_unfold, bind_unfold, (get_obj_ok _ _ _ Ey), bind_unfold.
    unfold get_obj. by rewrite Ex.
  - unfold move_assign, swap_nrow. rewrite decide_False by done.
    rewrite !bind_unfold. unfold get_obj. by rewrite Ey.
Qed.

Lemma Matrix_move_owned s other :
  owned s → safe (Matrix_move other) s (λ _, owned) owned.
Proof.
  intros H. unfold safe.
  destruct (objs s !! other) as [mx|] eqn:Ex.
  - rewrite (Matrix_move_eq s other mx Ex).
    set (o := fresh (dom (objs s))).
    assert (objs s !! o = None) as Hfresh by apply fresh_obj_None.
    assert (o ≠ other) as Hne by congruence.
    intros a Ha. destruct (H a Ha) as (o' & M & HM & Hd). cbn.
    destruct (decide (o' = other)) as [->|Hn].
    + exists o, mx. rewrite lookup_insert_ne, lookup_insert_eq by done.
      split; [reflexivity|]. congruence.
    + exists o', M. rewrite !lookup_insert_ne; [done | congruence | done].
  - unfold Matrix_move. rewrite bind_unfold. unfold get_obj. by rewrite Ex.
Qed.

Lemma Matrix_destroy_owned s this :
  owned s → safe (Matrix_destroy this) s (λ _, owned) owned.
Proof.
  intros H. unfold Matrix_destroy. apply safe_bind.
  eapply safe_mono; [by apply safe_reset_buffer_owned | |].
  - cbn beta. intros _ s1 [_ H1]. unfold safe, free_obj. by apply H1.
  - by intros s' [? _].
Qed.

Lemma equals_owned s this other :
  owned s → safe (equals this other) s (λ _, owned) owned.
Proof.
  intros H. unfold equals.
  apply safe_bind, safe_get_obj. intros m1 _.
  apply safe_bind, safe_get_obj. intros m2 _.
  case_decide; [exact H|].
  apply safe_bind. eapply safe_mono; [| | done].
  - apply safe_for_range_ret; [exact H|]. intros i s1 H1.
    apply safe_for_range_ret; [exact H1|]. intros j s2 H2.
    apply safe_bind, safe_elem_get. intros x.
    apply safe_bind, safe_elem_get. intros y.
    by destruct (negb _).
  - cbn beta. intros [b|] s1 H1; exact H1.
Qed.

Lemma to_vector_owned s this :
  owned s → safe (to_vector this) s (λ _, owned) owned.
Proof.
  intros H. unfold to_vector. apply safe_bind, safe_get_obj. intros m _.
  cbv zeta. destruct (data m) as [a|].
  - unfold safe, copy_range. destruct (bufs s !! a); [|exact I].
    by case_decide.
  - by case_decide.
Qed.

Lemma multiply_naive_owned s a b :
  owned s → safe (multiply_naive a b) s (λ _, owned) owned.
Proof.
  intros H. unfold multiply_naive.
  apply safe_bind, safe_get_obj. intros m1 _.
  apply safe_bind, safe_get_obj. intros m2 _.
  case_decide; [by apply safe_throw|].
  apply safe_bind. eapply safe_mono; [by apply Matrix_new_owned | | done].
  cbn beta. intros r s1 H1.
  apply safe_bind.
  eapply (safe_mono _ _ (λ _, owned) _ owned);
    [| intros ? ? Hs; exact Hs | done].
  apply safe_for_range; [exact H1|]. intros i [] s2 H2.
  apply safe_for_range; [exact H2|]. intros k [] s3 H3.
  apply safe_for_range; [exact H3|]. intros j [] s4 H4.
  apply safe_bind, safe_elem_get. intros x.
  apply safe_bind, safe_elem_get. intros y.
  apply safe_bind, safe_elem_get. intros z.
  by apply safe_elem_set_owned.
Qed.

Lemma multiply_tile_owned s fuel a b tile_size :
  owned s → safe (multiply_tile fuel a b tile_size) s (λ _, owned) owned.
Proof.
  intros H. unfold multiply_tile.
  apply safe_bind, safe_get_obj. intros m1 _.
  apply safe_bind, safe_get_obj. intros m2 _.
  case_decide; [by apply safe_throw|].
  cbv zeta.
  apply safe_bind. eapply safe_mono; [by apply Matrix_new_owned | | done].
  cbn beta. intros r s1 H1.
  apply safe_bind.
  eapply (safe_mono _ _ (λ _, owned) _ owned);
    [| intros ? ? Hs; exact Hs | done].
  apply safe_for_step; [exact H1|]. intros ti s2 H2.
  apply safe_for_step; [exact H2|]. intros tk s3 H3.
  apply safe_for_step; [exact H3|]. intros tj s4 H4.
  apply safe_for_range; [exact H4|]. intros i [] s5 H5.
  apply safe_for_range; [exact H5|]. intros k [] s6 H6.
  apply safe_bind, safe_elem_get. intros tmp.
  apply safe_for_range; [exact H6|]. intros j [] s7 H7.
  apply safe_bind, safe_elem_get. intros y.
  apply safe_bind, safe_elem_get. intros z.
  by apply safe_elem_set_owned.
Qed.

(** X21: no public operation lets go of an array.  Run in a store where
    every live array belongs to some object, an operation that returns
    leaves such a store; so does one that throws, except the construction
    from a vector, whose array outlives the failed construction. *)
Theorem arrays_stay_owned op s :
  owned s →
  safe (run op) s (λ _, owned)
    (λ s', (∀ r c v, op ≠ OpNewVec r c v) → owned s').
Proof.
  intros H.
  assert (∀ (m : M unit), safe m s (λ _, owned) owned →
            safe m s (λ _, owned) (λ s', (∀ r c v, op ≠ OpNewVec r c v) → owned s'))
    as Hweak.
  { intros m Hm. eapply safe_mono; [exact Hm | done | by intros s' ? _]. }
  destruct op; cbn [run].
  - by apply Hweak, safe_discard, Matrix_new_owned.
  - eapply safe_mono; [by apply safe_discard, Matrix_new_vec_owned | done |].
    intros s' _ Hne. by destruct (Hne r c v).
  - by apply Hweak, safe_discard, Matrix_copy_owned.
  - by apply Hweak, safe_discard, Matrix_move_owned.
  - by apply Hweak, copy_assign_owned.
  - by apply Hweak, move_assign_owned.
  - by apply Hweak, assign_vector_owned.
  - apply Hweak, safe_discard. by apply safe_elem_get.
  - by apply Hweak, safe_elem_set_owned.
  - by apply Hweak, safe_discard, equals_owned.
  - by apply Hweak, safe_discard, to_vector_owned.
  - by apply Hweak, Matrix_destroy_owned.
  - by apply Hweak, safe_discard, multiply_naive_owned.
  - by apply Hweak, safe_discard, multiply_tile_owned.
Qed.

Lemma owned_two_matrices : owned two_matrices.
Proof.
  intros a [buf Ha].
  destruct (decide (a = 1%positive)) as [->|H1].
  { by exists 1%positive, (mkMatrix 1 2 (Some 1%positive)). }
  destruct (decide (a = 2%positive)) as [->|H2].
  { by exists 2%positive, (mkMatrix 1 1 (Some 2%positive)). }
  unfold two_matrices in Ha. cbn in Ha.
  by rewrite !lookup_insert_ne, lookup_empty in Ha.
Defined.

Lemma arrays_stay_owned_witness :
  safe (run (OpCopy 1%positive)) two_matrices (λ _, owned)
    (λ s', (∀ r c v, OpCopy 1%positive ≠ OpNewVec r c v) → owned s').
Proof.
  apply (arrays_stay_owned (OpCopy 1%positive) two_matrices).
  exact owned_two_matrices.
Defined.

(** ** Output to a stream: what is written *)

(** X22: printing a matrix reads each element once, in the order of the
    flat export and never outside the array, and leaves the store as it
    is: the doubles it inserts into the stream are the row-major element
    sequence, and it inserts one [std::endl] per row. *)
Theorem print_spec s o r c els :
  is_matrix s o r c els →
  returns (print o) s (λ out s',
    s' = s ∧ doubles out = els ∧ endls out = Z.to_nat r).
Proof.
  intros Hm.
  pose proof Hm as (m & Ho & Hr & Hc & Rr & Rc & Hlen & _)%is_matrix_elim.
  unfold print. apply returns_bind.
  apply (returns_intro _ _ _ _ _ (get_obj_ok _ _ _ Ho)). rewrite Hr, Hc.
  eapply returns_mono.
  - apply (returns_for_range 0 r _ [] s
             (λ i out s', s' = s ∧ doubles out = take (Z.to_nat (c * i)) els ∧
                          endls out = Z.to_nat i)); [apply Rr | |].
    + split; [reflexivity|]. rewrite Z.mul_0_r. by rewrite take_0.
    + intros i out s1 Hi (-> & Hd & He).
      eapply returns_mono.
      * apply (returns_for_range 0 c _ _ s
                 (λ j out s', s' = s ∧
                    doubles out = take (Z.to_nat (c * i + j)) els ∧
                    endls out = Z.to_nat (i + 1))); [apply Rc | |].
        -- split; [reflexivity|]. rewrite Z.add_0_r. split.
           ++ unfold doubles in *. rewrite omap_app, Hd. cbn. apply app_nil_r.
           ++ unfold endls in *. rewrite omap_app, length_app, He. cbn. lia.
        -- intros j out' s2 Hj (-> & Hd' & He').
           apply returns_bind.
           apply (returns_intro _ _ _ _ _ (elem_get_matrix _ _ _ _ _ _ _ Hm Hi Hj)).
           split; [reflexivity|]. split.
           ++ unfold doubles in *. rewrite omap_app, Hd'. cbn.
              pose proof (offset_in_range r c i j Hi Hj) as Hoff.
              replace (Z.to_nat (c * i + (j + 1))) with (S (offset c i j))
                by (unfold offset; lia).
              erewrite take_S_r; [reflexivity|].
              apply list_lookup_lookup_total_lt. unfold offset. lia.
           ++ unfold endls in *. rewrite omap_app, length_app, He'. cbn. lia.
      * cbn beta. intros out' s2 (-> & Hd' & He'). split; [reflexivity|].
        split; [|exact He'].
        rewrite Hd'. f_equal. lia.
  - cbn beta. intros out s' (-> & Hd & He). split; [reflexivity|].
    split; [|exact He].
    rewrite Hd. apply take_ge. lia.
Qed.

Lemma print_spec_witness :
  returns (print 1%positive) worked_example (λ out s',
    s' = worked_example ∧ doubles out = [1; 2; 3; 4; 5; 6]%float ∧
    endls out = Z.to_nat 2).
Proof.
  apply (print_spec worked_example 1%positive 2 3 [1; 2; 3; 4; 5; 6]%float).
  exact worked_example_1.
Defined.

(** ** The text of [__repr__] *)

Lemma pretty_N_go_lacks ch x s :
  (∀ d, pretty_N_char d ≠ ch) → lacks ch s → lacks ch (pretty_N_go x s).
Proof.
  intros Hch. revert s. induction (N.lt_wf_0 x) as [x _ IH]. intros s Hs.
  destruct (decide (x = 0)%N) as [->|Hx]; [by rewrite pretty_N_go_0|].
  rewrite pretty_N_go_step by lia.
  apply IH; [apply N.div_lt; lia|]. split; [apply Hch | exact Hs].
Qed.

Lemma to_string_lacks ch z :
  (∀ d, pretty_N_char d ≠ ch) → 0 <= z → lacks ch (to_string z).
Proof.
  intros Hch Hz. unfold to_string, pretty, pretty_Z.
  destruct z as [|x|x]; [| |lia].
  - split; [|exact I]. apply (Hch 0%N).
  - unfold pretty, pretty_positive, pretty, pretty_N.
    rewrite decide_False by done. by apply pretty_N_go_lacks.
Qed.

Lemma digit_not_comma d : pretty_N_char d ≠ ","%char.
Proof. unfold pretty_N_char. by repeat case_match. Qed.

Lemma digit_not_paren d : pretty_N_char d ≠ ")"%char.
Proof. unfold pretty_N_char. by repeat case_match. Qed.

(** Two texts without [ch], each followed by [ch] and a rest, are equal
    only part by part. *)
Lemma lacks_split ch s1 s2 t1 t2 :
  lacks ch s1 → lacks ch s2 →
  s1 +:+ String ch t1 = s2 +:+ String ch t2 → s1 = s2 ∧ t1 = t2.
Proof.
  revert s2. induction s1 as [|a s1 IH]; intros [|b s2] H1 H2 E; cbn in *.
  - by injection E.
  - injection E as E1 E2. destruct H2 as [H2 _]. congruence.
  - injection E as E1 E2. destruct H1 as [H1 _]. congruence.
  - injection E as -> E. destruct H1 as [_ H1], H2 as [_ H2].
    destruct (IH s2 H1 H2 E) as [-> ->]. done.
Qed.

(** X23: the text [__repr__] gives for a matrix shows its shape, and
    nothing else: two matrices have the same text exactly when they have
    the same numbers of rows and of columns. *)
Theorem repr_shows_shape s a b r c ea r' c' eb :
  is_matrix s a r c ea → is_matrix s b r' c' eb →
  ∃ ta tb, repr a s = Ok ta s ∧ repr b s = Ok tb s ∧
           (ta = tb ↔ r = r' ∧ c = c').
Proof.
  intros (ma & Ea & <- & <- & Rr & Rc & _)%is_matrix_elim
         (mb & Eb & <- & <- & Rr' & Rc' & _)%is_matrix_elim.
  unfold repr.
  rewrite (bind_ok _ _ _ _ _ (get_obj_ok _ _ _ Ea)).
  rewrite (bind_ok _ _ _ _ _ (get_obj_ok _ _ _ Eb)).
  eexists _, _. split; [reflexivity|]. split; [reflexivity|].
  split; [|by intros [-> ->]].
  cbn [String.app]. intros E. simplify_eq.
  match goal with H : _ +:+ _ = _ +:+ _ |- _ => rename H into E end.
  apply lacks_split in E as [Er E];
    [| apply to_string_lacks; [apply digit_not_comma | apply Rr]
     | apply to_string_lacks; [apply digit_not_comma | apply Rr'] ].
  injection E as E.
  apply lacks_split in E as [Ec _];
    [| apply to_string_lacks; [apply digit_not_paren | apply Rc]
     | apply to_string_lacks; [apply digit_not_paren | apply Rc'] ].
  unfold to_string in *. split; by apply (inj pretty).
Qed.

Lemma repr_shows_shape_witness :
  ∃ ta tb, repr 1%positive two_matrices = Ok ta two_matrices ∧
           repr 2%positive two_matrices = Ok tb two_matrices ∧
           (ta = tb ↔ 1 = 1 ∧ 2 = 1).
Proof.
  apply (repr_shows_shape two_matrices 1%positive 2%positive 1 2 [1; 2]%float
           1 1 [3]%float); [exact two_matrices_1 | exact two_matrices_2].
Defined.

Example repr_example :
  repr 1%positive worked_example = Ok "Matrix(2, 3)" worked_example.
Proof. reflexivity. Qed.
